(** * BlueSkySight: the CAR / DAG-CBOR / MST decoder of [blueskysight/utils.py]

    A shallow embedding of the functions of [utils.py] (the decoders, the
    deduplication helper and the conversion of a post's URI to its URL; the
    HTTP request of [resolve_did_to_handle] is a parameter) and the
    properties of its specification that were checked against it.

    Conventions of the embedding.
    - A [bytes] object is a [list byte]; a Python [int] is a [Z].
    - A Python [str] is represented by its UTF-8 encoding, held in a Rocq
      [string] (one [ascii] per byte).  On the strings the decoder produces
      this is a bijection, so equality of [str] objects is equality of
      the representations.
    - A Python [float] is represented by the big-endian bytes it was unpacked
      from (2, 4 or 8 of them); comparisons with an [int] are computed exactly
      from those bits.
    - A [dict] is an association list in insertion order, without duplicate
      keys: assigning an existing key replaces its value in place, assigning
      a new key appends it, as Python dicts do.
    - An [io.BytesIO] stream that is only read forward is its position
      together with the bytes that are still unread.
    - A raised exception is [Err e]; nothing in [utils.py] catches one.
      [OutOfFuel] is the embedding's bound on recursion and on loop
      iterations; it is not a behaviour of the decoder on a finite buffer
      (see [parse_obj_total]) and stands for Python's [RecursionError] in the
      tree enumerator. *)

From Stdlib Require Import ZArith List String Ascii Bool Lia.
From Stdlib Require Import Init.Byte Strings.Byte.
Import ListNotations.

Local Open Scope Z_scope.

(** ** Bytes *)

Definition bytes := list byte.

Definition byte_val (b : byte) : Z := Z.of_N (Byte.to_N b).

Definition byte_of_Z (z : Z) : byte :=
  match Byte.of_N (Z.to_N z) with
  | Some b => b
  | None => x00
  end.

Definition len {A : Type} (l : list A) : Z := Z.of_nat (List.length l).

Fixpoint bytes_eqb (a b : bytes) : bool :=
  match a, b with
  | [], [] => true
  | x :: a', y :: b' => Byte.eqb x y && bytes_eqb a' b'
  | _, _ => false
  end.

(** [b.startswith(prefix)] *)
Fixpoint startswith (b prefix : bytes) : bool :=
  match prefix, b with
  | [], _ => true
  | p :: prefix', x :: b' => Byte.eqb x p && startswith b' prefix'
  | _ :: _, [] => false
  end.

(** [b.endswith(suffix)] *)
Definition endswith (b suffix : bytes) : bool :=
  (List.length suffix <=? List.length b)%nat
  && bytes_eqb (skipn (List.length b - List.length suffix) b) suffix.

(** [int.from_bytes(b, "big")] *)
Definition int_from_bytes_big (b : bytes) : Z :=
  fold_left (fun acc x => acc * 256 + byte_val x) b 0.

(** ** Exceptions and results *)

(** The [assert] statements of [utils.py], by what they check. *)
Inductive assert_site : Type :=
  | AssertCidIsBytes    (* type(cid_bytes) is bytes *)
  | AssertCidLen        (* len(cid_bytes) == 37 *)
  | AssertLinkPrefix    (* cid_bytes.startswith(...) or ... *)
  | AssertHeaderLen     (* stream.tell() - header_start == header_len *)
  | AssertVersion       (* car_header.get("version") == 1 *)
  | AssertRoots         (* len(car_header.get("roots", [])) == 1 *)
  | AssertBlockPrefix   (* cid_raw.startswith(b"\x01q\x12 ") *)
  | AssertDigest        (* cid_raw.endswith(content_hash) *)
  | AssertTrailing      (* not block_data_stream.read() *)
  | AssertBlockLen      (* stream.tell() - block_start == block_len *)
  | AssertMstPrefix.    (* entry["p"] <= len(prev_key) *)

Inductive exn : Type :=
  | IndexError                      (* stream.read(1)[0] on an exhausted stream *)
  | KeyError
  | TypeError
  | AttributeError
  | EOFError                        (* short read of a string body *)
  | UnicodeDecodeError
  | MapKeyNotStr                    (* ValueError("DAG-CBOR only accepts strings as map keys") *)
  | ExcInvalid                      (* Exception("invalid") *)
  | ExcUnreachable                  (* Exception("unreachable") *)
  | ExcIndefinite                   (* Exception("indefinite lengths not supported ...") *)
  | ExcNotWellFormed                (* Exception("not well-formed") *)
  | ExcNon42                        (* Exception("non-42 tags are not supported") *)
  | AssertionError (site : assert_site).

Inductive result (A : Type) : Type :=
  | Ok (a : A)
  | Err (e : exn)
  | OutOfFuel.

Arguments Ok {A} a.
Arguments Err {A} e.
Arguments OutOfFuel {A}.

Definition bind {A B : Type} (r : result A) (k : A -> result B) : result B :=
  match r with
  | Ok a => k a
  | Err e => Err e
  | OutOfFuel => OutOfFuel
  end.

Notation "x <- r ;; k" := (bind r (fun x => k))
  (at level 61, r at next level, right associativity).
Notation "' p <- r ;; k" := (bind r (fun p => k))
  (at level 61, p pattern, r at next level, right associativity).

(** [assert c] at the given site *)
Definition py_assert (c : bool) (site : assert_site) : result unit :=
  if c then Ok tt else Err (AssertionError site).

(** ** Streams *)

Record stream : Type := mkStream { pos : Z; rest : bytes }.

(** [io.BytesIO(b)] *)
Definition BytesIO (b : bytes) : stream := mkStream 0 b.

(** [stream.tell()] *)
Definition tell (s : stream) : Z := pos s.

Fixpoint split_at (n : Z) (l : bytes) : bytes * bytes :=
  match l with
  | [] => ([], [])
  | x :: t =>
      if n <=? 0 then ([], l)
      else let (a, b) := split_at (n - 1) t in (x :: a, b)
  end.

(** [stream.read(n)]: up to [n] bytes, fewer when the stream runs out; all the
    remaining bytes when [n] is negative.  CPython first converts [n] to a C
    [ssize_t] and raises [OverflowError] when [n] is 2^63 or more (on a
    64-bit build); that case is not part of the embedding, which describes
    reads of a length below 2^63. *)
Definition read (n : Z) (s : stream) : bytes * stream :=
  if n <? 0 then (rest s, mkStream (pos s + len (rest s)) [])
  else let (a, b) := split_at n (rest s) in (a, mkStream (pos s + len a) b).

(** [stream.read()] *)
Definition read_all (s : stream) : bytes * stream := read (-1) s.

(** [stream.read(1)[0]] *)
Definition read_byte (s : stream) : result (Z * stream) :=
  match rest s with
  | [] => Err IndexError
  | b :: t => Ok (byte_val b, mkStream (pos s + 1) t)
  end.

(** ** [parse_varint] (LEB128) *)

(** The [while True] loop, by recursion on the unread bytes: every iteration
    reads one byte. *)
Fixpoint varint_loop (unread : bytes) (p n shift : Z) : result (Z * stream) :=
  match unread with
  | [] => Err IndexError
  | b :: t =>
      let val := byte_val b in
      let n := Z.lor n (Z.shiftl (Z.land val 0x7F) shift) in
      if Z.land val 0x80 =? 0 then Ok (n, mkStream (p + 1) t)
      else varint_loop t (p + 1) n (shift + 7)
  end.

Definition parse_varint (s : stream) : result (Z * stream) :=
  varint_loop (rest s) (pos s) 0 0.

(** Modelled from the spec: the varint encoder, which [utils.py] does not
    contain ("little-endian base-128 continuation scheme": seven bits per
    byte, least significant group first, high bit set on every byte but the
    last). *)
Fixpoint leb128_groups (fuel : nat) (n : Z) : bytes :=
  match fuel with
  | O => []
  | S f =>
      if n <? 128 then [byte_of_Z n]
      else byte_of_Z (n mod 128 + 128) :: leb128_groups f (n / 128)
  end.

Definition leb128_encode (n : Z) : bytes :=
  leb128_groups (S (Z.to_nat (Z.log2 n))) n.

(** [n.bit_length()] for [n >= 0] *)
Definition bitlength (n : Z) : Z := if n =? 0 then 0 else Z.log2 n + 1.

(** [ceil(a / b)] for [b > 0] *)
Definition ceil_div (a b : Z) : Z := (a + b - 1) / b.

(** ** SHA-256 ([hashlib.sha256(b).digest()]), after FIPS 180-4 *)

Module SHA256.

Definition w32 (x : Z) : Z := x mod 2 ^ 32.
Definition add32 (x y : Z) : Z := w32 (x + y).
Definition rotr (n x : Z) : Z :=
  Z.lor (Z.shiftr x n) (w32 (Z.shiftl x (32 - n))).
Definition not32 (x : Z) : Z := 2 ^ 32 - 1 - x.

Definition Ch (x y z : Z) : Z := Z.lxor (Z.land x y) (Z.land (not32 x) z).
Definition Maj (x y z : Z) : Z :=
  Z.lxor (Z.lxor (Z.land x y) (Z.land x z)) (Z.land y z).
Definition Sigma0 (x : Z) : Z :=
  Z.lxor (Z.lxor (rotr 2 x) (rotr 13 x)) (rotr 22 x).
Definition Sigma1 (x : Z) : Z :=
  Z.lxor (Z.lxor (rotr 6 x) (rotr 11 x)) (rotr 25 x).
Definition sigma0 (x : Z) : Z :=
  Z.lxor (Z.lxor (rotr 7 x) (rotr 18 x)) (Z.shiftr x 3).
Definition sigma1 (x : Z) : Z :=
  Z.lxor (Z.lxor (rotr 17 x) (rotr 19 x)) (Z.shiftr x 10).

(** Round constants, in decimal. *)
Definition K : list Z := [
  1116352408; 1899447441; 3049323471; 3921009573;
  961987163; 1508970993; 2453635748; 2870763221;
  3624381080; 310598401; 607225278; 1426881987;
  1925078388; 2162078206; 2614888103; 3248222580;
  3835390401; 4022224774; 264347078; 604807628;
  770255983; 1249150122; 1555081692; 1996064986;
  2554220882; 2821834349; 2952996808; 3210313671;
  3336571891; 3584528711; 113926993; 338241895;
  666307205; 773529912; 1294757372; 1396182291;
  1695183700; 1986661051; 2177026350; 2456956037;
  2730485921; 2820302411; 3259730800; 3345764771;
  3516065817; 3600352804; 4094571909; 275423344;
  430227734; 506948616; 659060556; 883997877;
  958139571; 1322822218; 1537002063; 1747873779;
  1955562222; 2024104815; 2227730452; 2361852424;
  2428436474; 2756734187; 3204031479; 3329325298 ].

Record state : Type := mkState {
  ha : Z; hb : Z; hc : Z; hd : Z; he : Z; hf : Z; hg : Z; hh : Z }.

Definition H0 : state :=
  mkState 1779033703 3144134277 1013904242 2773480762
          1359893119 2600822924 528734635 1541459225.

(** Big-endian 32-bit words of a block. *)
Fixpoint words_of (b : bytes) : list Z :=
  match b with
  | b0 :: b1 :: b2 :: b3 :: t =>
      int_from_bytes_big [b0; b1; b2; b3] :: words_of t
  | _ => []
  end.

(** The message schedule, most recent word first: [extend n rev_w] adds
    [n] words to the reversed schedule [rev_w]. *)
Fixpoint extend (n : nat) (rev_w : list Z) : list Z :=
  match n with
  | O => rev_w
  | S n' =>
      let w2 := nth 1 rev_w 0 in
      let w7 := nth 6 rev_w 0 in
      let w15 := nth 14 rev_w 0 in
      let w16 := nth 15 rev_w 0 in
      extend n'
        (add32 (add32 (sigma1 w2) w7) (add32 (sigma0 w15) w16) :: rev_w)
  end.

Definition schedule (block : bytes) : list Z :=
  rev (extend 48 (rev (words_of block))).

Definition round (st : state) (kw : Z * Z) : state :=
  let (k, w) := kw in
  let t1 :=
    add32 (add32 (add32 (hh st) (Sigma1 (he st)))
                 (add32 (Ch (he st) (hf st) (hg st)) k)) w in
  let t2 := add32 (Sigma0 (ha st)) (Maj (ha st) (hb st) (hc st)) in
  mkState (add32 t1 t2) (ha st) (hb st) (hc st)
          (add32 (hd st) t1) (he st) (hf st) (hg st).

Definition compress (h : state) (block : bytes) : state :=
  let r := fold_left round (combine K (schedule block)) h in
  mkState (add32 (ha h) (ha r)) (add32 (hb h) (hb r))
          (add32 (hc h) (hc r)) (add32 (hd h) (hd r))
          (add32 (he h) (he r)) (add32 (hf h) (hf r))
          (add32 (hg h) (hg r)) (add32 (hh h) (hh r)).

Definition be_bytes (width : nat) (x : Z) : bytes :=
  map (fun i => byte_of_Z (Z.shiftr x (8 * Z.of_nat i) mod 256))
      (rev (seq 0 width)).

(** Message, one [0x80] byte, zero bytes up to 56 mod 64, then the bit
    length on eight bytes. *)
Definition pad (msg : bytes) : bytes :=
  let l := len msg in
  msg ++ [x80] ++ repeat x00 (Z.to_nat ((55 - l) mod 64))
      ++ be_bytes 8 (8 * l).

Fixpoint blocks (n : nat) (h : state) (data : bytes) : state :=
  match n with
  | O => h
  | S n' => blocks n' (compress h (firstn 64 data)) (skipn 64 data)
  end.

Definition digest_of (h : state) : bytes :=
  flat_map (be_bytes 4)
    [ha h; hb h; hc h; hd h; he h; hf h; hg h; hh h].

Definition sha256 (msg : bytes) : bytes :=
  let data := pad msg in
  digest_of (blocks (List.length data / 64) H0 data).

End SHA256.

Definition sha256 := SHA256.sha256.

(** ** Base32 and the textual CID *)

Definition b32_alphabet : list ascii :=
  list_ascii_of_string "ABCDEFGHIJKLMNOPQRSTUVWXYZ234567".

(** The [k]-th (from the left, [0 <= k < 8]) character of the 40-bit
    quantum [q]. *)
Definition b32_char (q : Z) (k : Z) : ascii :=
  nth (Z.to_nat (Z.land (Z.shiftr q (35 - 5 * k)) 31)) b32_alphabet "="%char.

Definition b32_quantum (q : Z) (chars : nat) : string :=
  string_of_list_ascii
    (map (fun k => b32_char q (Z.of_nat k)) (seq 0 chars)
     ++ repeat "="%char (8 - chars)).

(** [base64.b32encode(b).decode()]: five bytes give eight characters; a
    final group of 1, 2, 3 or 4 bytes is zero-filled and gives 2, 4, 5 or 7
    characters followed by [=] padding. *)
Fixpoint b32encode (b : bytes) : string :=
  match b with
  | [] => EmptyString
  | b0 :: b1 :: b2 :: b3 :: b4 :: t =>
      (b32_quantum (int_from_bytes_big [b0; b1; b2; b3; b4]) 8
       ++ b32encode t)%string
  | [b0; b1; b2; b3] =>
      b32_quantum (int_from_bytes_big [b0; b1; b2; b3; x00]) 7
  | [b0; b1; b2] =>
      b32_quantum (int_from_bytes_big [b0; b1; b2; x00; x00]) 5
  | [b0; b1] =>
      b32_quantum (int_from_bytes_big [b0; b1; x00; x00; x00]) 4
  | [b0] =>
      b32_quantum (int_from_bytes_big [b0; x00; x00; x00; x00]) 2
  end.

(** [str.lower()] on one ASCII character; [b32encode] only produces ASCII. *)
Definition ascii_lower (c : ascii) : ascii :=
  let n := nat_of_ascii c in
  if ((65 <=? n) && (n <=? 90))%nat then ascii_of_nat (n + 32) else c.

Definition lower_ascii (s : string) : string :=
  string_of_list_ascii (map ascii_lower (list_ascii_of_string s)).

(** [s.rstrip("=")] *)
Fixpoint rstrip_eq (s : string) : string :=
  match s with
  | EmptyString => EmptyString
  | String c t =>
      match rstrip_eq t with
      | EmptyString => if Ascii.eqb c "="%char then EmptyString
                       else String c EmptyString
      | t' => String c t'
      end
  end.

(** ["b" + base64.b32encode(raw).decode().lower().rstrip("=")] *)
Definition cid_text (raw : bytes) : string :=
  ("b" ++ rstrip_eq (lower_ascii (b32encode raw)))%string.

(** ** UTF-8 ([bytes.decode()]) *)

Definition in_range (lo hi : Z) (b : byte) : bool :=
  (lo <=? byte_val b) && (byte_val b <=? hi).

(** Well-formed UTF-8 byte sequences (Unicode, table 3-7), as the strict
    decoder of [bytes.decode()] accepts them: no overlong forms, no
    surrogates, nothing above U+10FFFF. *)
Fixpoint utf8_valid (b : bytes) : bool :=
  match b with
  | [] => true
  | b0 :: t =>
      if in_range 0x00 0x7F b0 then utf8_valid t
      else
        match t with
        | b1 :: t1 =>
            if in_range 0xC2 0xDF b0 then in_range 0x80 0xBF b1 && utf8_valid t1
            else
              match t1 with
              | b2 :: t2 =>
                  if in_range 0xE0 0xEF b0 then
                    in_range (if byte_val b0 =? 0xE0 then 0xA0 else 0x80)
                             (if byte_val b0 =? 0xED then 0x9F else 0xBF) b1
                    && in_range 0x80 0xBF b2 && utf8_valid t2
                  else
                    match t2 with
                    | b3 :: t3 =>
                        in_range 0xF0 0xF4 b0
                        && in_range (if byte_val b0 =? 0xF0 then 0x90 else 0x80)
                                    (if byte_val b0 =? 0xF4 then 0x8F else 0xBF) b1
                        && in_range 0x80 0xBF b2 && in_range 0x80 0xBF b3
                        && utf8_valid t3
                    | [] => false
                    end
              | [] => false
              end
        | [] => false
        end
  end.

(** [value.decode()] *)
Definition decode_utf8 (b : bytes) : result string :=
  if utf8_valid b then Ok (string_of_list_byte b) else Err UnicodeDecodeError.

(** Number of code points of a [str]: the bytes that are not continuation
    bytes. *)
Definition str_len (s : string) : Z :=
  len (filter (fun b => negb (in_range 0x80 0xBF b)) (list_byte_of_string s)).

(** The characters of a [str], each as a one-character [str]. *)
Fixpoint str_chars_aux (b : bytes) (cur : bytes) : list bytes :=
  match b with
  | [] => match cur with [] => [] | _ => [rev cur] end
  | x :: t =>
      if in_range 0x80 0xBF x then str_chars_aux t (x :: cur)
      else match cur with
           | [] => str_chars_aux t [x]
           | _ => rev cur :: str_chars_aux t [x]
           end
  end.

Definition str_chars (s : string) : list string :=
  map string_of_list_byte (str_chars_aux (list_byte_of_string s) []).

(** ** Floats *)

Inductive fval : Type :=
  | FNaN
  | FInf (neg : bool)
  | FFin (neg : bool) (m e : Z).   (* (-1)^neg * m * 2^e *)

Definition float_decode (ebits mbits : Z) (bits : Z) : fval :=
  let neg := Z.testbit bits (ebits + mbits) in
  let e := Z.land (Z.shiftr bits mbits) (2 ^ ebits - 1) in
  let m := Z.land bits (2 ^ mbits - 1) in
  let bias := 2 ^ (ebits - 1) - 1 in
  if e =? 2 ^ ebits - 1 then (if m =? 0 then FInf neg else FNaN)
  else if e =? 0 then FFin neg m (1 - bias - mbits)
  else FFin neg (2 ^ mbits + m) (e - bias - mbits).

(** [struct.unpack("!e" | "!f" | "!d", raw)[0]] *)
Definition float_of_raw (raw : bytes) : fval :=
  let bits := int_from_bytes_big raw in
  match List.length raw with
  | 2%nat => float_decode 5 10 bits
  | 4%nat => float_decode 8 23 bits
  | _ => float_decode 11 52 bits
  end.

(** Exact comparison of a float with an [int]: [f ? n] is decided on
    [s*m*2^e ? n], both sides scaled to integers. *)
Definition fin_cmp (neg : bool) (m e n : Z) : comparison :=
  let sm := if neg then - m else m in
  if 0 <=? e then (sm * 2 ^ e ?= n) else (sm ?= n * 2 ^ (- e)).

Definition float_eq_int (f : fval) (n : Z) : bool :=
  match f with
  | FFin neg m e => match fin_cmp neg m e n with Eq => true | _ => false end
  | _ => false
  end.

Definition float_le_int (f : fval) (n : Z) : bool :=
  match f with
  | FNaN => false
  | FInf neg => neg
  | FFin neg m e => match fin_cmp neg m e n with Gt => false | _ => true end
  end.

(** ** Python values *)

Set Warnings "-register-all".

(** Keys of the dicts of [utils.py]: [str] in decoded maps and in the block
    mapping, [bytes] in the record set.  A [str] never equals a [bytes]. *)
Inductive pykey : Type :=
  | KStr (s : string)
  | KBytes (b : bytes).

Definition pykey_eqb (a b : pykey) : bool :=
  match a, b with
  | KStr x, KStr y => String.eqb x y
  | KBytes x, KBytes y => bytes_eqb x y
  | _, _ => false
  end.

Inductive pyval : Type :=
  | PyNone
  | PyBool (b : bool)
  | PyInt (n : Z)
  | PyFloat (raw : bytes)
  | PyBytes (b : bytes)
  | PyStr (s : string)
  | PyList (l : list pyval)
  | PyDict (d : list (pykey * pyval)).

Definition pydict := list (pykey * pyval).

(** ** Dicts *)

Section Dict.

Context {K V : Type} (eqb : K -> K -> bool).

Fixpoint dict_get (d : list (K * V)) (k : K) : option V :=
  match d with
  | [] => None
  | (k', v) :: t => if eqb k' k then Some v else dict_get t k
  end.

(** [d[k] = v] *)
Fixpoint dict_set (d : list (K * V)) (k : K) (v : V) : list (K * V) :=
  match d with
  | [] => [(k, v)]
  | (k', v') :: t =>
      if eqb k' k then (k', v) :: t else (k', v') :: dict_set t k v
  end.

(** [d |= other] *)
Definition dict_update (d other : list (K * V)) : list (K * V) :=
  fold_left (fun acc kv => dict_set acc (fst kv) (snd kv)) other d.

(** [list(d.values())] *)
Definition dict_values (d : list (K * V)) : list V := map snd d.

End Dict.

Definition pd_get : pydict -> pykey -> option pyval := dict_get pykey_eqb.
Definition pd_set : pydict -> pykey -> pyval -> pydict := dict_set pykey_eqb.
Definition pd_update : pydict -> pydict -> pydict := dict_update pykey_eqb.

(** ** Operations of Python on values of unknown type *)

Definition pyval_of_key (k : pykey) : pyval :=
  match k with KStr s => PyStr s | KBytes b => PyBytes b end.

(** [v.get(key, default)]; only a dict has [get]. *)
Definition py_dict_get (v : pyval) (key : string) (default : pyval)
  : result pyval :=
  match v with
  | PyDict d =>
      Ok (match pd_get d (KStr key) with Some x => x | None => default end)
  | _ => Err AttributeError
  end.

(** [v[key]] for a [str] key. *)
Definition py_getitem_str (v : pyval) (key : string) : result pyval :=
  match v with
  | PyDict d =>
      match pd_get d (KStr key) with Some x => Ok x | None => Err KeyError end
  | _ => Err TypeError
  end.

(** [v[0]] *)
Definition py_getitem_0 (v : pyval) : result pyval :=
  match v with
  | PyList (x :: _) => Ok x
  | PyList [] => Err IndexError
  | PyBytes (b :: _) => Ok (PyInt (byte_val b))
  | PyBytes [] => Err IndexError
  | PyStr s =>
      match str_chars s with c :: _ => Ok (PyStr c) | [] => Err IndexError end
  | PyDict _ => Err KeyError
  | _ => Err TypeError
  end.

(** [len(v)] *)
Definition py_len (v : pyval) : result Z :=
  match v with
  | PyBytes b => Ok (len b)
  | PyStr s => Ok (str_len s)
  | PyList l => Ok (len l)
  | PyDict d => Ok (len d)
  | _ => Err TypeError
  end.

(** [v == n] for an [int] [n]; [True == 1] and [1.0 == 1] hold in Python. *)
Definition py_eq_int (v : pyval) (n : Z) : bool :=
  match v with
  | PyInt m => m =? n
  | PyBool b => (if b then 1 else 0) =? n
  | PyFloat raw => float_eq_int (float_of_raw raw) n
  | _ => false
  end.

(** [v <= n] for an [int] [n] *)
Definition py_le_int (v : pyval) (n : Z) : result bool :=
  match v with
  | PyInt m => Ok (m <=? n)
  | PyBool b => Ok ((if b then 1 else 0) <=? n)
  | PyFloat raw => Ok (float_le_int (float_of_raw raw) n)
  | _ => Err TypeError
  end.

(** [b[:n]] for an [int] [n]: a negative [n] counts from the end. *)
Definition slice_to (b : bytes) (n : Z) : bytes :=
  fst (split_at (if n <? 0 then len b + n else n) b).

(** [b[:v]] *)
Definition py_slice_to (b : bytes) (v : pyval) : result bytes :=
  match v with
  | PyInt n => Ok (slice_to b n)
  | PyBool x => Ok (slice_to b (if x then 1 else 0))
  | PyNone => Ok b
  | _ => Err TypeError
  end.

(** [b + v] for a [bytes] [b] *)
Definition py_bytes_concat (b : bytes) (v : pyval) : result bytes :=
  match v with
  | PyBytes c => Ok (b ++ c)
  | _ => Err TypeError
  end.

(** [v in d]: lists and dicts are unhashable; the dicts here hold only
    [str] and [bytes] keys, which no other value equals. *)
Definition py_in (v : pyval) (d : pydict) : result bool :=
  match v with
  | PyList _ | PyDict _ => Err TypeError
  | PyStr s => Ok (match pd_get d (KStr s) with Some _ => true | None => false end)
  | PyBytes b => Ok (match pd_get d (KBytes b) with Some _ => true | None => false end)
  | _ => Ok false
  end.

(** [d[v]] *)
Definition py_dict_getitem (d : pydict) (v : pyval) : result pyval :=
  match v with
  | PyList _ | PyDict _ => Err TypeError
  | PyStr s => match pd_get d (KStr s) with Some x => Ok x | None => Err KeyError end
  | PyBytes b => match pd_get d (KBytes b) with Some x => Ok x | None => Err KeyError end
  | _ => Err KeyError
  end.

(** The items [for entry in v] visits. *)
Definition py_iter (v : pyval) : result (list pyval) :=
  match v with
  | PyList l => Ok l
  | PyStr s => Ok (map PyStr (str_chars s))
  | PyBytes b => Ok (map (fun x => PyInt (byte_val x)) b)
  | PyDict d => Ok (map (fun kv => pyval_of_key (fst kv)) d)
  | _ => Err TypeError
  end.

(** ** [parse_cbor_head] *)

Inductive MajorType : Type :=
  | UNSIGNED_INT | NEGATIVE_INT | BYTE_STRING | TEXT_STRING
  | ARRAY | MAP | TAG | FLOAT.

(** [MajorType(n)]; [n] is the top three bits of a byte. *)
Definition MajorType_of (n : Z) : result MajorType :=
  match n with
  | 0 => Ok UNSIGNED_INT | 1 => Ok NEGATIVE_INT | 2 => Ok BYTE_STRING
  | 3 => Ok TEXT_STRING | 4 => Ok ARRAY | 5 => Ok MAP | 6 => Ok TAG
  | 7 => Ok FLOAT
  | _ => Err TypeError
  end.

Definition MajorType_value (m : MajorType) : Z :=
  match m with
  | UNSIGNED_INT => 0 | NEGATIVE_INT => 1 | BYTE_STRING => 2
  | TEXT_STRING => 3 | ARRAY => 4 | MAP => 5 | TAG => 6 | FLOAT => 7
  end.

Definition BYTE_LENGTHS (additional_info : Z) : option Z :=
  match additional_info with
  | 24 => Some 1 | 25 => Some 2 | 26 => Some 4 | 27 => Some 8
  | _ => None
  end.

(** [{20: False, 21: True, 22: None}[additional_info]] *)
Definition simple_value (additional_info : Z) : result pyval :=
  match additional_info with
  | 20 => Ok (PyBool false)
  | 21 => Ok (PyBool true)
  | 22 => Ok PyNone
  | _ => Err KeyError
  end.

(** The float case of a multi-byte head, by the number of bytes that were
    read: [struct.unpack] of 2, 4 or 8 bytes. *)
Definition unpack_float (byte_value : bytes) : result pyval :=
  match List.length byte_value with
  | 1%nat => Err ExcInvalid
  | 2%nat | 4%nat | 8%nat => Ok (PyFloat byte_value)
  | _ => Err ExcUnreachable
  end.

Definition parse_cbor_head (s : stream) : result (MajorType * pyval * stream) :=
  '(first, s) <- read_byte s ;;
  major_type <- MajorType_of (Z.shiftr first 5) ;;
  let additional_info := Z.land first 0x1F in
  if additional_info <? 24 then
    match major_type with
    | FLOAT =>
        v <- simple_value additional_info ;;
        Ok (major_type, v, s)
    | _ => Ok (major_type, PyInt additional_info, s)
    end
  else
    match BYTE_LENGTHS additional_info with
    | Some k =>
        let (byte_value, s) := read k s in
        match major_type with
        | NEGATIVE_INT =>
            Ok (major_type, PyInt (-1 - int_from_bytes_big byte_value), s)
        | FLOAT =>
            v <- unpack_float byte_value ;;
            Ok (major_type, v, s)
        | _ => Ok (major_type, PyInt (int_from_bytes_big byte_value), s)
        end
    | None =>
        if additional_info =? 31 then Err ExcIndefinite
        else Err ExcNotWellFormed
    end.

(** ** [parse_dag_cbor_object] *)

Definition link_prefix_dag_cbor : bytes := [x00; x01; x71; x12; x20].
Definition link_prefix_raw : bytes := [x00; x01; x55; x12; x20].

(** The head's value used as a count or a length; it is an [int] for every
    major type that uses it so. *)
Definition as_int (info : pyval) : result Z :=
  match info with
  | PyInt n => Ok n
  | _ => Err TypeError
  end.

(** The checks and the encoding of the tag-42 branch, on the decoded tagged
    value. *)
Definition decode_link (cid_bytes : pyval) : result pyval :=
  match cid_bytes with
  | PyBytes b =>
      _ <- py_assert (len b =? 37) AssertCidLen ;;
      _ <- py_assert (startswith b link_prefix_dag_cbor
                      || startswith b link_prefix_raw) AssertLinkPrefix ;;
      Ok (PyStr (cid_text (tl b)))
  | _ => Err (AssertionError AssertCidIsBytes)
  end.

(** One unit of fuel is spent by every call and by every loop iteration. *)
Fixpoint parse_obj (fuel : nat) (s : stream) {struct fuel}
  : result (pyval * stream) :=
  match fuel with
  | O => OutOfFuel
  | S f =>
      '(major_type, info, s) <- parse_cbor_head s ;;
      match major_type with
      | UNSIGNED_INT | NEGATIVE_INT | FLOAT => Ok (info, s)
      | BYTE_STRING =>
          n <- as_int info ;;
          let (value, s) := read n s in
          if negb (len value =? n) then Err EOFError
          else Ok (PyBytes value, s)
      | TEXT_STRING =>
          n <- as_int info ;;
          let (value, s) := read n s in
          if negb (len value =? n) then Err EOFError
          else str <- decode_utf8 value ;; Ok (PyStr str, s)
      | ARRAY =>
          n <- as_int info ;;
          '(values, s) <- parse_array_items f n [] s ;;
          Ok (PyList values, s)
      | MAP =>
          n <- as_int info ;;
          '(values, s) <- parse_map_items f n [] s ;;
          Ok (PyDict values, s)
      | TAG =>
          n <- as_int info ;;
          if negb (n =? 42) then Err ExcNon42
          else
            '(cid_bytes, s) <- parse_obj f s ;;
            link <- decode_link cid_bytes ;;
            Ok (link, s)
      end
  end

(** [for _ in range(n): values.append(await parse_dag_cbor_object(stream))] *)
with parse_array_items (fuel : nat) (n : Z) (values : list pyval) (s : stream)
  {struct fuel} : result (list pyval * stream) :=
  match fuel with
  | O => OutOfFuel
  | S f =>
      if n <=? 0 then Ok (values, s)
      else
        '(v, s) <- parse_obj f s ;;
        parse_array_items f (n - 1) (values ++ [v]) s
  end

(** The loop of the map branch. *)
with parse_map_items (fuel : nat) (n : Z) (values : pydict) (s : stream)
  {struct fuel} : result (pydict * stream) :=
  match fuel with
  | O => OutOfFuel
  | S f =>
      if n <=? 0 then Ok (values, s)
      else
        '(key, s) <- parse_obj f s ;;
        match key with
        | PyStr k =>
            '(v, s) <- parse_obj f s ;;
            parse_map_items f (n - 1) (pd_set values (KStr k) v) s
        | _ => Err MapKeyNotStr
        end
  end.

(** Every call reads a byte and every iteration that goes on decodes an
    item, so twice the unread bytes, and two, is fuel enough
    ([parse_obj_total]). *)
Definition parse_dag_cbor_object (s : stream) : result (pyval * stream) :=
  parse_obj (2 * List.length (rest s) + 2) s.

(** ** [parse_car] *)

Definition block_prefix_dag_cbor : bytes := [x01; x71; x12; x20].
Definition block_prefix_raw : bytes := [x01; x55; x12; x20].

Definition is_empty (b : bytes) : bool :=
  match b with [] => true | _ => false end.

(** The statements before the [while] loop. *)
Definition parse_car_header (s : stream) : result (pyval * stream) :=
  '(header_len, s) <- parse_varint s ;;
  let header_start := tell s in
  '(car_header, s) <- parse_dag_cbor_object s ;;
  _ <- py_assert (tell s - header_start =? header_len) AssertHeaderLen ;;
  version <- py_dict_get car_header "version" PyNone ;;
  _ <- py_assert (py_eq_int version 1) AssertVersion ;;
  roots <- py_dict_get car_header "roots" (PyList []) ;;
  n <- py_len roots ;;
  _ <- py_assert (n =? 1) AssertRoots ;;
  roots <- py_getitem_str car_header "roots" ;;
  root <- py_getitem_0 roots ;;
  Ok (root, s).

(** The body of the [while] loop. *)
Definition parse_car_block (s : stream) (nodes : pydict)
  : result (stream * pydict) :=
  '(block_len, s) <- parse_varint s ;;
  let block_start := tell s in
  let (cid_raw, s) := read 36 s in
  _ <- py_assert (startswith cid_raw block_prefix_dag_cbor) AssertBlockPrefix ;;
  let cid := cid_text cid_raw in
  let (block_data, s) := read (block_len - 36) s in
  let content_hash := sha256 block_data in
  _ <- py_assert (endswith cid_raw content_hash) AssertDigest ;;
  let block_data_stream := BytesIO block_data in
  '(block, block_data_stream) <- parse_dag_cbor_object block_data_stream ;;
  _ <- py_assert (is_empty (fst (read_all block_data_stream))) AssertTrailing ;;
  _ <- py_assert (tell s - block_start =? block_len) AssertBlockLen ;;
  Ok (s, pd_set nodes (KStr cid) block).

(** [while stream.tell() != length: ...] *)
Fixpoint parse_car_blocks (fuel : nat) (s : stream) (length : Z)
  (nodes : pydict) : result pydict :=
  if tell s =? length then Ok nodes
  else
    match fuel with
    | O => OutOfFuel
    | S f =>
        '(s, nodes) <- parse_car_block s nodes ;;
        parse_car_blocks f s length nodes
    end.

(** Every block reads at least the byte of its varint, so there are at most
    as many iterations that succeed as unread bytes, and one more that
    fails ([parse_car_total]). *)
Definition parse_car (s : stream) (length : Z) : result (pyval * pydict) :=
  '(root, s) <- parse_car_header s ;;
  nodes <- parse_car_blocks (S (List.length (rest s))) s length [] ;;
  Ok (root, nodes).

(** ** [enumerate_mst_records] *)

(** [if link in nodes: records |= await enumerate_mst_records(nodes,
    nodes[link])], with the recursive call as [recur]. *)
Definition mst_merge_subtree (recur : pyval -> result pydict)
  (nodes : pydict) (records : pydict) (link : pyval) : result pydict :=
  present <- py_in link nodes ;;
  if present then
    target <- py_dict_getitem nodes link ;;
    sub <- recur target ;;
    Ok (pd_update records sub)
  else Ok records.

(** The body of [for entry in node["e"]], on the pair of the accumulator
    and the previous key. *)
Definition mst_entry (recur : pyval -> result pydict) (nodes : pydict)
  (st : pydict * bytes) (entry : pyval) : result (pydict * bytes) :=
  let (records, prev_key) := st in
  p <- py_getitem_str entry "p" ;;
  in_bound <- py_le_int p (len prev_key) ;;
  _ <- py_assert in_bound AssertMstPrefix ;;
  shared <- py_slice_to prev_key p ;;
  k <- py_getitem_str entry "k" ;;
  key <- py_bytes_concat shared k ;;
  let prev_key := key in
  v <- py_getitem_str entry "v" ;;
  let records := pd_set records (KBytes key) v in
  t <- py_dict_get entry "t" PyNone ;;
  records <- mst_merge_subtree recur nodes records t ;;
  Ok (records, prev_key).

Fixpoint mst_entries (recur : pyval -> result pydict) (nodes : pydict)
  (st : pydict * bytes) (entries : list pyval) : result (pydict * bytes) :=
  match entries with
  | [] => Ok st
  | entry :: more =>
      st <- mst_entry recur nodes st entry ;;
      mst_entries recur nodes st more
  end.

(** The fuel bounds the depth of the recursion. *)
Fixpoint enumerate_mst_records (fuel : nat) (nodes : pydict) (node : pyval)
  : result pydict :=
  match fuel with
  | O => OutOfFuel
  | S f =>
      let recur := enumerate_mst_records f nodes in
      let records := [] in
      l <- py_dict_get node "l" PyNone ;;
      records <- mst_merge_subtree recur nodes records l ;;
      let prev_key := [] in
      e <- py_getitem_str node "e" ;;
      entries <- py_iter e ;;
      '(records, _) <- mst_entries recur nodes (records, prev_key) entries ;;
      Ok records
  end.

(** ** [remove_case_insensitive_duplicates] *)

Section Dedup.

(** [str.lower], a builtin of Python: any function on strings. *)
Variable lower : string -> string.

(** One item of the dict comprehension: [d[item.lower()] = item]. *)
Definition dedup_step (d : list (string * string)) (item : string)
  : list (string * string) :=
  dict_set String.eqb d (lower item) item.

(** [list({item.lower(): item for item in input_list}.values())] *)
Definition remove_case_insensitive_duplicates (input_list : list string)
  : list string :=
  dict_values (fold_left dedup_step input_list []).

End Dedup.

(** ** [get_url_from_uri] *)

(** [s.split(sep)] for a separator of one ASCII character, which no byte of
    the UTF-8 encoding of another character equals. *)
Fixpoint str_split (sep : ascii) (s : string) : list string :=
  match s with
  | EmptyString => [EmptyString]
  | String c t =>
      if Ascii.eqb c sep then EmptyString :: str_split sep t
      else
        match str_split sep t with
        | part :: more => String c part :: more
        | [] => [String c EmptyString]
        end
  end.

(** [l[i]] for a list [l]: a negative [i] counts from the end. *)
Definition list_getitem {A : Type} (l : list A) (i : Z) : result A :=
  let j := if i <? 0 then len l + i else i in
  if j <? 0 then Err IndexError
  else
    match nth_error l (Z.to_nat j) with
    | Some x => Ok x
    | None => Err IndexError
    end.

Section GetUrl.

(** [resolve_did_to_handle] asks the identity service over the network and
    is not embedded: it is any function from the DID to the handle it
    returns, [None] or a [str], or to the exception it raises. *)
Variable resolve_did_to_handle : string -> result (option string).

(** The messages the function prints are not part of the embedding. *)
Definition get_url_from_uri (uri : string) : result (option string) :=
  let parts := str_split "/" uri in
  did <- list_getitem parts 2 ;;
  post_id <- list_getitem parts (-1) ;;
  handle <- resolve_did_to_handle did ;;
  match handle with
  | Some (String c h) =>
      Ok (Some ("https://bsky.app/profile/" ++ String c h
                ++ "/post/" ++ post_id)%string)
  | Some EmptyString => Ok None
  | None => Ok None
  end.

End GetUrl.

(** ** Tactics *)

Ltac inv H := inversion H; subst; clear H.

(** ** Vocabulary of the properties *)

(** [blocks_reach length fuel s nodes fuel' s' nodes']: the [while] loop of
    [parse_car], entered with the stream [s] and the blocks [nodes] read so
    far, is after zero or more iterations that all succeeded at the stream
    [s'] with the blocks [nodes']. *)
Inductive blocks_reach (length : Z)
  : nat -> stream -> pydict -> nat -> stream -> pydict -> Prop :=
  | reach_here (fuel : nat) (s : stream) (nodes : pydict) :
      blocks_reach length fuel s nodes fuel s nodes
  | reach_next (fuel : nat) (s s1 : stream) (nodes nodes1 : pydict)
      (fuel' : nat) (s' : stream) (nodes' : pydict) :
      tell s <> length ->
      parse_car_block s nodes = Ok (s1, nodes1) ->
      blocks_reach length fuel s1 nodes1 fuel' s' nodes' ->
      blocks_reach length (S fuel) s nodes fuel' s' nodes'.

(** Whether every key of every dict inside a value is a [str]. *)
Fixpoint str_keyed (v : pyval) : bool :=
  match v with
  | PyList l => forallb str_keyed l
  | PyDict d =>
      forallb (fun kv =>
                 match kv with
                 | (KStr _, x) => str_keyed x
                 | (KBytes _, _) => false
                 end) d
  | _ => true
  end.

Definition entries_str_keyed (d : pydict) : bool :=
  forallb (fun kv =>
             match kv with
             | (KStr _, x) => str_keyed x
             | (KBytes _, _) => false
             end) d.

(** The calls of [parse_dag_cbor_object] and its two loops that are under
    way: a call on a stream, or a loop with the iterations left, the items
    collected so far and the stream. *)
Inductive frame : Type :=
  | FObj (fuel : nat) (s : stream)
  | FArr (fuel : nat) (n : Z) (values : list pyval) (s : stream)
  | FMap (fuel : nat) (n : Z) (values : pydict) (s : stream).

Definition frame_raises (fr : frame) (e : exn) : Prop :=
  match fr with
  | FObj fuel s => parse_obj fuel s = Err e
  | FArr fuel n values s => parse_array_items fuel n values s = Err e
  | FMap fuel n values s => parse_map_items fuel n values s = Err e
  end.

(** [invokes a b]: the call or loop [a] runs [b] as its next call or as the
    rest of its loop, and returns what [b] returns or wraps it. *)
Inductive invokes : frame -> frame -> Prop :=
  | invokes_array (f : nat) (s s1 : stream) (n : Z) :
      parse_cbor_head s = Ok (ARRAY, PyInt n, s1) ->
      invokes (FObj (S f) s) (FArr f n [] s1)
  | invokes_map (f : nat) (s s1 : stream) (n : Z) :
      parse_cbor_head s = Ok (MAP, PyInt n, s1) ->
      invokes (FObj (S f) s) (FMap f n [] s1)
  | invokes_tagged (f : nat) (s s1 : stream) :
      parse_cbor_head s = Ok (TAG, PyInt 42, s1) ->
      invokes (FObj (S f) s) (FObj f s1)
  | invokes_item (f : nat) (n : Z) (values : list pyval) (s : stream) :
      0 < n ->
      invokes (FArr (S f) n values s) (FObj f s)
  | invokes_more_items (f : nat) (n : Z) (values : list pyval)
      (s s1 : stream) (v : pyval) :
      0 < n ->
      parse_obj f s = Ok (v, s1) ->
      invokes (FArr (S f) n values s) (FArr f (n - 1) (values ++ [v]) s1)
  | invokes_key (f : nat) (n : Z) (values : pydict) (s : stream) :
      0 < n ->
      invokes (FMap (S f) n values s) (FObj f s)
  | invokes_value (f : nat) (n : Z) (values : pydict) (s s1 : stream)
      (k : string) :
      0 < n ->
      parse_obj f s = Ok (PyStr k, s1) ->
      invokes (FMap (S f) n values s) (FObj f s1)
  | invokes_more_entries (f : nat) (n : Z) (values : pydict)
      (s s1 s2 : stream) (k : string) (v : pyval) :
      0 < n ->
      parse_obj f s = Ok (PyStr k, s1) ->
      parse_obj f s1 = Ok (v, s2) ->
      invokes (FMap (S f) n values s)
              (FMap f (n - 1) (pd_set values (KStr k) v) s2).

(** [within a b]: [b] runs inside [a], at any depth. *)
Inductive within : frame -> frame -> Prop :=
  | within_here (a : frame) : within a a
  | within_deeper (a b c : frame) : invokes a b -> within b c -> within a c.

(** The fuel of a frame is enough for the bytes it has left to read. *)
Definition frame_fueled (fr : frame) : Prop :=
  match fr with
  | FObj fuel s => (2 * List.length (rest s) + 1 <= fuel)%nat
  | FArr fuel _ _ s => (2 * List.length (rest s) + 2 <= fuel)%nat
  | FMap fuel _ _ s => (2 * List.length (rest s) + 2 <= fuel)%nat
  end.

Section DedupSpec.

Variable lower : string -> string.

Definition seen_before (seen : list string) (k : string) : bool :=
  existsb (String.eqb k) seen.

(** The lowercase classes of the items of [l], each once, in the order of
    their first occurrence in [l]; [seen] holds the classes that occurred
    before [l]. *)
Fixpoint classes_from (seen : list string) (l : list string) : list string :=
  match l with
  | [] => []
  | x :: t =>
      if seen_before seen (lower x) then classes_from seen t
      else lower x :: classes_from (lower x :: seen) t
  end.

Definition classes (l : list string) : list string := classes_from [] l.

(** The last item of [l] whose lowercase form is [k]. *)
Fixpoint last_in_class (k : string) (l : list string) : option string :=
  match l with
  | [] => None
  | x :: t =>
      match last_in_class k t with
      | Some y => Some y
      | None => if String.eqb (lower x) k then Some x else None
      end
  end.

End DedupSpec.

(** How often the character [c] occurs in [s]. *)
Fixpoint count_char (c : ascii) (s : string) : nat :=
  match s with
  | EmptyString => O
  | String x t => if Ascii.eqb x c then S (count_char c t) else count_char c t
  end.

(** Whether a byte of a varint has its high bit set: more bytes follow. *)
Definition continues (b : byte) : bool := 128 <=? byte_val b.

(** The integer that 7-bit groups spell, least significant group first. *)
Fixpoint groups_value (b : bytes) : Z :=
  match b with
  | [] => 0
  | x :: t => byte_val x mod 128 + 128 * groups_value t
  end.

(** [n.to_bytes(width, "big")] *)
Definition int_to_bytes_big (width : nat) (n : Z) : bytes :=
  SHA256.be_bytes width n.

(** [advances s s']: the stream [s'] is [s] after some of its unread bytes
    were read, its position moved by their number. *)
Definition advances (s s' : stream) : Prop :=
  exists consumed : bytes,
    rest s = consumed ++ rest s' /\ pos s' = pos s + len consumed.

(** [n] values decoded one after the other. *)
Fixpoint decode_items (n : nat) (s : stream) : result (list pyval * stream) :=
  match n with
  | O => Ok ([], s)
  | S k =>
      '(v, s) <- parse_dag_cbor_object s ;;
      '(vs, s) <- decode_items k s ;;
      Ok (v :: vs, s)
  end.

(** [n] pairs of a text-string key and a value decoded one after the other
    and assigned to the dict [d] in that order. *)
Fixpoint decode_entries (n : nat) (d : pydict) (s : stream)
  : result (pydict * stream) :=
  match n with
  | O => Ok (d, s)
  | S k =>
      '(key, s) <- parse_dag_cbor_object s ;;
      match key with
      | PyStr name =>
          '(v, s) <- parse_dag_cbor_object s ;;
          decode_entries k (pd_set d (KStr name) v) s
      | _ => Err MapKeyNotStr
      end
  end.

(** An entry of the block mapping that a block of a container accounts
    for: its key is the text of 36 CID bytes that start with the DAG-CBOR
    prefix and end with the SHA-256 of a payload, and its value is what
    that whole payload decodes to. *)
Definition block_entry_verified (kv : pykey * pyval) : Prop :=
  exists (cid_raw payload : bytes) (s' : stream),
    fst kv = KStr (cid_text cid_raw)
    /\ List.length cid_raw = 36%nat
    /\ firstn 4 cid_raw = block_prefix_dag_cbor
    /\ skipn 4 cid_raw = sha256 payload
    /\ parse_dag_cbor_object (BytesIO payload) = Ok (snd kv, s')
    /\ rest s' = [].

(** ** Hand-built containers for the examples *)

Module Fixtures.

(** A text string shorter than 24 bytes: head [0x60 + length], then the
    bytes. *)
Definition cbor_text (t : string) : bytes :=
  byte_of_Z (0x60 + len (list_byte_of_string t)) :: list_byte_of_string t.


(** Tag 42 around a 37-byte byte string: multibase byte [0x00], then the
    36-byte CID. *)
Definition cbor_link (cid_raw : bytes) : bytes :=
  [xd8; x2a; x58; x25; x00] ++ cid_raw.

(** The 36-byte CID of a payload, with the given codec byte. *)
Definition cid_of (codec : byte) (payload : bytes) : bytes :=
  [x01; codec; x12; x20] ++ sha256 payload.

Definition framed (b : bytes) : bytes := leb128_encode (len b) ++ b.

(** [{"roots": [root, ...], "version": version}], for fewer than 24 roots
    and a version below 24. *)
Definition header_of (roots : list bytes) (version : Z) : bytes :=
  [xa2] ++ cbor_text "roots"
        ++ [byte_of_Z (0x80 + len roots)] ++ List.concat (map cbor_link roots)
        ++ cbor_text "version" ++ [byte_of_Z version].

(** [{"roots": [root], "version": 1}] *)
Definition header (root : bytes) : bytes := header_of [root] 1.

Definition car (root : bytes) (blocks : list bytes) : bytes :=
  framed (header root) ++ List.concat blocks.

(** A block as a writer emits it. *)
Definition block (codec : byte) (payload : bytes) : bytes :=
  framed (cid_of codec payload ++ payload).

(** [{"e": []}], an empty tree node. *)
Definition empty_node : bytes := [xa1] ++ cbor_text "e" ++ [x80].

(** The payload [b"\x05"], the integer 5. *)
Definition five : bytes := [x05].

(** The decoded tree-node entry [{"p": p, "k": k, "v": v}]. *)
Definition entry (p : Z) (k : string) (v : pyval) : pyval :=
  PyDict [(KStr "p", PyInt p); (KStr "k", PyBytes (list_byte_of_string k));
          (KStr "v", v)].

(** The decoded tree node [{"e": entries}], without subtree links. *)
Definition node (entries : list pyval) : pyval :=
  PyDict [(KStr "e", PyList entries)].

(** The root of the example containers, and their first block. *)
Definition root : bytes := cid_of x71 empty_node.

(** Header, the root block, then a block whose payload [0x06] is not the
    payload [0x05] its CID was computed from. *)
Definition car_bad_digest : bytes :=
  car root [block x71 empty_node; framed (cid_of x71 five ++ [x06])].

(** Header, the root block, then a well-formed block with the raw codec. *)
Definition car_raw_block : bytes :=
  car root [block x71 empty_node; block x55 five].

(** Header, the root block, then a block that declares the length 0: its
    CID is that of the empty payload, and nothing follows it. *)
Definition car_short_block : bytes :=
  car root [block x71 empty_node; [x00] ++ cid_of x71 []].

(** Containers whose header has two roots, and none. *)
Definition car_two_roots : bytes :=
  framed (header_of [root; root] 1) ++ block x71 empty_node.

Definition car_no_roots : bytes :=
  framed (header_of [] 1) ++ block x71 empty_node.

(** A container of version 2. *)
Definition car_version_2 : bytes :=
  framed (header_of [root] 2) ++ block x71 empty_node.





Definition parse (data : bytes) : result (pyval * pydict) :=
  parse_car (BytesIO data) (len data).

End Fixtures.

(** ** Containers as a writer emits them *)

(** The payload is one encoded value and nothing else. *)
Definition decodes_whole (payload : bytes) : Prop :=
  exists (v : pyval) (s' : stream),
    parse_dag_cbor_object (BytesIO payload) = Ok (v, s') /\ rest s' = [].

Definition decoded_payload (payload : bytes) : pyval :=
  match parse_dag_cbor_object (BytesIO payload) with
  | Ok (v, _) => v
  | _ => PyNone
  end.

(** The block mapping of the payloads, assigned in the order of the
    payloads. *)
Definition written_blocks (payloads : list bytes) : pydict :=
  fold_left
    (fun d payload =>
       pd_set d (KStr (cid_text (Fixtures.cid_of x71 payload)))
              (decoded_payload payload))
    payloads [].

(** ** Tree nodes as a writer emits them *)

(** The number of leading bytes two keys share. *)
Fixpoint common_prefix_len (a b : bytes) : nat :=
  match a, b with
  | x :: a', y :: b' =>
      if Byte.eqb x y then S (common_prefix_len a' b') else O
  | _, _ => O
  end.

(** An entry of a tree node: a key, its value, and the link to the subtree
    of the keys between this one and the next, if there is one. *)
Record mst_item : Type := mkItem {
  item_key : bytes;
  item_value : pyval;
  item_tree : option string
}.

(** A nullable link: the text of a CID, or [None]. *)
Definition link_value (link : option string) : pyval :=
  match link with
  | Some cid => PyStr cid
  | None => PyNone
  end.

(** The entries of a node for [items], each key cut to what it does not
    share with the key before it; [prev] is the key before the first. *)
Fixpoint mst_compress (prev : bytes) (items : list mst_item) : list pyval :=
  match items with
  | [] => []
  | it :: more =>
      let p := common_prefix_len prev (item_key it) in
      PyDict [(KStr "p", PyInt (Z.of_nat p));
              (KStr "k", PyBytes (skipn p (item_key it)));
              (KStr "v", item_value it);
              (KStr "t", link_value (item_tree it))]
      :: mst_compress (item_key it) more
  end.

(** The node with the left link [l] and the entries of [items]. *)
Definition mst_node (l : option string) (items : list mst_item) : pyval :=
  PyDict [(KStr "l", link_value l); (KStr "e", PyList (mst_compress [] items))].

(** An entry without a subtree. *)
Definition leaf_item (kv : bytes * pyval) : mst_item :=
  mkItem (fst kv) (snd kv) None.

(** An entry with its subtree link removed. *)
Definition unlinked (it : mst_item) : mst_item :=
  mkItem (item_key it) (item_value it) None.

(** A link that is absent, or names no block of [nodes]. *)
Definition dangling (nodes : pydict) (link : option string) : Prop :=
  match link with
  | Some cid => pd_get nodes (KStr cid) = None
  | None => True
  end.

(** The record set in which the keys of [items] are assigned in their
    order. *)
Definition records_of (items : list mst_item) (records : pydict) : pydict :=
  fold_left (fun d it => pd_set d (KBytes (item_key it)) (item_value it))
    items records.

(** What a link contributes to a node enumerated with the recursion depth
    [S fuel]: the records of the block it names, and nothing when it is null
    or names no block of [nodes]. *)
Definition subtree_records (fuel : nat) (nodes : pydict)
  (link : option string) (records : pydict) : Prop :=
  match link with
  | Some cid =>
      match pd_get nodes (KStr cid) with
      | Some sub => enumerate_mst_records fuel nodes sub = Ok records
      | None => records = []
      end
  | None => records = []
  end.

(** The record set in which the keys of the entries are assigned in their
    order, each followed by the merge of the records of its right subtree. *)
Definition records_in_order (items : list (mst_item * pydict))
  (records : pydict) : pydict :=
  fold_left
    (fun d e =>
       pd_update (pd_set d (KBytes (item_key (fst e))) (item_value (fst e)))
         (snd e))
    items records.

(** * Properties *)

Example varint_0 : parse_varint (BytesIO [x00]) = Ok (0, mkStream 1 []).
Proof. reflexivity. Qed.

Example varint_129 : parse_varint (BytesIO [x81; x01]) = Ok (129, mkStream 2 []).
Proof. reflexivity. Qed.

Example leb128_300 : leb128_encode 300 = [xac; x02].
Proof. reflexivity. Qed.


Example sha256_empty :
  map byte_val (firstn 4 (sha256 [])) = [0xe3; 0xb0; 0xc4; 0x42].
Proof. vm_compute. reflexivity. Qed.

Example sha256_abc :
  map byte_val (firstn 4 (sha256 [x61; x62; x63])) = [0xba; 0x78; 0x16; 0xbf].
Proof. vm_compute. reflexivity. Qed.

(** ** Bytes and streams *)

Lemma byte_val_range (b : byte) : 0 <= byte_val b < 256.
Proof.
  unfold byte_val. pose proof (Byte.to_N_bounded b). lia.
Qed.

Lemma byte_val_of_Z (z : Z) : 0 <= z < 256 -> byte_val (byte_of_Z z) = z.
Proof.
  intros Hz. unfold byte_val, byte_of_Z.
  destruct (Byte.of_N (Z.to_N z)) as [b|] eqn:E.
  - apply Byte.to_of_N in E. rewrite E. lia.
  - apply Byte.of_N_None_iff in E. lia.
Qed.

Lemma byte_low7 (b : byte) : Z.land (byte_val b) 0x7F = byte_val b mod 128.
Proof. destruct b; reflexivity. Qed.

Lemma byte_high_bit (b : byte) :
  (Z.land (byte_val b) 0x80 =? 0) = (byte_val b <? 128).
Proof. destruct b; reflexivity. Qed.

Lemma bytes_eqb_eq (a b : bytes) : bytes_eqb a b = true <-> a = b.
Proof.
  revert b. induction a as [|x a IH]; intros [|y b]; simpl;
    try (split; [discriminate | discriminate]); try tauto.
  rewrite andb_true_iff, IH. split.
  - intros [H1 H2]. apply Byte.byte_dec_bl in H1. congruence.
  - intros H. inversion H; subst. split; [apply Byte.byte_dec_lb|]; reflexivity.
Qed.

Lemma startswith_firstn (b prefix : bytes) :
  startswith b prefix = true <-> firstn (List.length prefix) b = prefix.
Proof.
  revert b. induction prefix as [|p prefix IH]; intros b; simpl.
  - destruct b; split; reflexivity.
  - destruct b as [|x b]; simpl; [split; discriminate|].
    rewrite andb_true_iff, IH. split.
    + intros [H1 H2]. apply Byte.byte_dec_bl in H1. congruence.
    + intros H. inversion H as [[H1 H2]]. rewrite H2.
      split; [now apply Byte.byte_dec_lb | assumption].
Qed.

Lemma split_at_firstn (n : Z) (l : bytes) :
  0 <= n -> split_at n l = (firstn (Z.to_nat n) l, skipn (Z.to_nat n) l).
Proof.
  revert n. induction l as [|x l IH]; intros n Hn; simpl.
  - now rewrite firstn_nil, skipn_nil.
  - destruct (n <=? 0) eqn:E.
    + apply Z.leb_le in E. replace n with 0 by lia. reflexivity.
    + apply Z.leb_gt in E. rewrite IH by lia.
      replace (Z.to_nat n) with (S (Z.to_nat (n - 1))) by lia. reflexivity.
Qed.

Lemma split_at_app (n : Z) (l : bytes) :
  fst (split_at n l) ++ snd (split_at n l) = l.
Proof.
  revert n. induction l as [|x l IH]; intros n; simpl; [reflexivity|].
  destruct (n <=? 0); [reflexivity|].
  specialize (IH (n - 1)). destruct (split_at (n - 1) l). simpl in *. congruence.
Qed.

Lemma split_at_length (n : Z) (l : bytes) :
  len (fst (split_at n l)) = Z.max 0 (Z.min n (len l)).
Proof.
  unfold len. revert n. induction l as [|x l IH]; intros n; simpl.
  - lia.
  - destruct (n <=? 0) eqn:E.
    + apply Z.leb_le in E. simpl. lia.
    + apply Z.leb_gt in E. specialize (IH (n - 1)).
      destruct (split_at (n - 1) l). simpl in *. lia.
Qed.

(** What [read] returns and leaves: the bytes read and the bytes left are
    the unread bytes, and the position moves by the number read. *)
Lemma read_spec (n : Z) (s s' : stream) (a : bytes) :
  read n s = (a, s') ->
  rest s = a ++ rest s' /\ pos s' = pos s + len a.
Proof.
  unfold read. destruct (n <? 0).
  - intros H. inversion H; subst. simpl. now rewrite app_nil_r.
  - pose proof (split_at_app n (rest s)) as Happ.
    destruct (split_at n (rest s)) as [x y]. simpl in Happ.
    intros H. inversion H; subst. simpl. auto.
Qed.

Lemma read_length (n : Z) (s s' : stream) (a : bytes) :
  read n s = (a, s') ->
  len a = if n <? 0 then len (rest s) else Z.min n (len (rest s)).
Proof.
  unfold read. destruct (n <? 0) eqn:E.
  - intros H. now inversion H.
  - pose proof (split_at_length n (rest s)) as Hl.
    destruct (split_at n (rest s)) as [x y]. simpl in Hl.
    intros H. inversion H; subst. apply Z.ltb_ge in E.
    unfold len in *. lia.
Qed.

Lemma read_shrinks (n : Z) (s s' : stream) (a : bytes) :
  read n s = (a, s') -> (List.length (rest s') <= List.length (rest s))%nat.
Proof.
  intros H. apply read_spec in H. destruct H as [H _].
  rewrite H, length_app. lia.
Qed.

(** ** The varint decoder against the encoder *)

Lemma lor_shiftl_add (acc x shift : Z) :
  0 <= shift -> 0 <= acc < 2 ^ shift -> 0 <= x ->
  Z.lor acc (Z.shiftl x shift) = acc + x * 2 ^ shift.
Proof.
  intros Hs Hacc Hx. rewrite Z.shiftl_mul_pow2 by assumption.
  assert (Hland : Z.land acc (x * 2 ^ shift) = 0).
  { apply Z.bits_inj'. intros n Hn. rewrite Z.land_spec, Z.bits_0.
    destruct (Z.lt_ge_cases n shift) as [Hlt|Hge].
    - rewrite (Z.mul_pow2_bits_low x shift n) by assumption.
      apply andb_false_r.
    - destruct (Z.eq_dec acc 0) as [->|Hne].
      + now rewrite Z.bits_0.
      + rewrite (Z.bits_above_log2 acc n); [reflexivity | lia |].
        apply Z.lt_le_trans with shift; [|assumption].
        apply Z.log2_lt_pow2; lia. }
  rewrite <- Z.lxor_lor by assumption.
  symmetry. apply Z.add_nocarry_lxor. assumption.
Qed.

Lemma varint_loop_groups (fuel : nat) :
  forall (m : Z) (tail : bytes) (p acc shift : Z),
    (0 < fuel)%nat -> 0 <= m < 128 ^ Z.of_nat fuel ->
    0 <= shift -> 0 <= acc < 2 ^ shift ->
    varint_loop (leb128_groups fuel m ++ tail) p acc shift
    = Ok (acc + m * 2 ^ shift,
          mkStream (p + len (leb128_groups fuel m)) tail).
Proof.
  induction fuel as [|f IH]; intros m tail p acc shift Hf Hm Hs Hacc; [lia|].
  simpl leb128_groups. destruct (m <? 128) eqn:E.
  - apply Z.ltb_lt in E. simpl.
    rewrite byte_high_bit, byte_low7, byte_val_of_Z by lia.
    rewrite Z.mod_small by lia.
    replace (m <? 128) with true by (symmetry; apply Z.ltb_lt; lia).
    rewrite lor_shiftl_add by lia. reflexivity.
  - apply Z.ltb_ge in E.
    assert (Hr : 0 <= m mod 128 < 128) by (apply Z.mod_pos_bound; lia).
    simpl app. cbn [varint_loop].
    rewrite byte_high_bit, byte_low7, byte_val_of_Z by lia.
    replace (m mod 128 + 128 <? 128) with false
      by (symmetry; apply Z.ltb_ge; lia).
    replace ((m mod 128 + 128) mod 128) with (m mod 128)
      by (rewrite <- Zplus_mod_idemp_r, Z.mod_same, Z.add_0_r, Z.mod_mod; lia).
    rewrite lor_shiftl_add by lia.
    assert (Hf' : (0 < f)%nat).
    { destruct f; [|lia]. simpl in Hm. lia. }
    assert (Hq : 0 <= m / 128 < 128 ^ Z.of_nat f).
    { split; [apply Z.div_pos; lia|].
      apply Z.div_lt_upper_bound; [lia|].
      replace (Z.of_nat (S f)) with (Z.of_nat f + 1) in Hm by lia.
      rewrite Z.pow_add_r, Z.pow_1_r in Hm by lia. lia. }
    assert (Hp : 2 ^ (shift + 7) = 128 * 2 ^ shift).
    { rewrite Z.pow_add_r by lia. change (2 ^ 7) with 128. lia. }
    rewrite IH; try assumption; try lia.
    + f_equal. f_equal.
      * rewrite Hp. pose proof (Z.div_mod m 128). nia.
      * f_equal. unfold len. simpl List.length. lia.
    + rewrite Hp. pose proof (Z.pow_pos_nonneg 2 shift). nia.
Qed.

Lemma leb128_fuel_enough (n : Z) :
  0 <= n -> 0 <= n < 128 ^ Z.of_nat (S (Z.to_nat (Z.log2 n))).
Proof.
  intros Hn. split; [assumption|].
  destruct (Z.eq_dec n 0) as [->|Hne]; [reflexivity|].
  pose proof (Z.log2_nonneg n) as Hl.
  pose proof (Z.log2_spec n ltac:(lia)) as [_ Hhi].
  replace (Z.of_nat (S (Z.to_nat (Z.log2 n)))) with (Z.succ (Z.log2 n)) by lia.
  apply Z.lt_le_trans with (2 ^ Z.succ (Z.log2 n)); [assumption|].
  apply Z.pow_le_mono_l. lia.
Qed.

Lemma bitlength_small (m : Z) : 0 <= m < 128 -> 0 <= bitlength m <= 7.
Proof.
  intros Hm. unfold bitlength. destruct (m =? 0) eqn:E; [lia|].
  apply Z.eqb_neq in E. pose proof (Z.log2_nonneg m).
  assert (Z.log2 m < 7) by (apply Z.log2_lt_pow2; [lia | simpl; lia]). lia.
Qed.

Lemma bitlength_div128 (m : Z) :
  128 <= m -> bitlength m = bitlength (m / 128) + 7 /\ 1 <= bitlength (m / 128).
Proof.
  intros Hm. unfold bitlength.
  assert (Hq : 1 <= m / 128) by (apply Z.div_le_lower_bound; lia).
  replace (m =? 0) with false by (symmetry; apply Z.eqb_neq; lia).
  replace (m / 128 =? 0) with false by (symmetry; apply Z.eqb_neq; lia).
  change 128 with (2 ^ 7). rewrite <- Z.shiftr_div_pow2 by lia.
  rewrite Z.log2_shiftr by lia.
  assert (7 <= Z.log2 m) by (apply Z.log2_le_pow2; [lia | simpl; lia]).
  pose proof (Z.log2_nonneg m). lia.
Qed.

Lemma leb128_groups_size (fuel : nat) :
  forall m : Z,
    (0 < fuel)%nat -> 0 <= m < 128 ^ Z.of_nat fuel ->
    len (leb128_groups fuel m) = Z.max 1 (ceil_div (bitlength m) 7).
Proof.
  induction fuel as [|f IH]; intros m Hf Hm; [lia|].
  simpl leb128_groups. destruct (m <? 128) eqn:E.
  - apply Z.ltb_lt in E. pose proof (bitlength_small m ltac:(lia)) as Hb.
    unfold ceil_div, len. simpl List.length.
    assert ((bitlength m + 7 - 1) / 7 <= 1).
    { apply Z.lt_succ_r. apply Z.div_lt_upper_bound; lia. }
    lia.
  - apply Z.ltb_ge in E.
    assert (Hf' : (0 < f)%nat).
    { destruct f; [|lia]. simpl in Hm. lia. }
    assert (Hq : 0 <= m / 128 < 128 ^ Z.of_nat f).
    { split; [apply Z.div_pos; lia|].
      apply Z.div_lt_upper_bound; [lia|].
      replace (Z.of_nat (S f)) with (Z.of_nat f + 1) in Hm by lia.
      rewrite Z.pow_add_r, Z.pow_1_r in Hm by lia. lia. }
    destruct (bitlength_div128 m E) as [Hb Hb1].
    unfold len in *. simpl List.length. rewrite Nat2Z.inj_succ, IH by assumption.
    rewrite Hb. unfold ceil_div.
    replace (bitlength (m / 128) + 7 + 7 - 1)
      with ((bitlength (m / 128) + 7 - 1) + 1 * 7) by lia.
    rewrite Z.div_add by lia.
    assert (1 <= (bitlength (m / 128) + 7 - 1) / 7).
    { apply Z.div_le_lower_bound; lia. }
    lia.
Qed.

(** Decoding an encoding, for every non-negative integer. *)
Lemma parse_varint_encode (n : Z) (tail : bytes) (p : Z) :
  0 <= n ->
  parse_varint (mkStream p (leb128_encode n ++ tail))
  = Ok (n, mkStream (p + Z.max 1 (ceil_div (bitlength n) 7)) tail).
Proof.
  intros Hn. unfold parse_varint, leb128_encode. cbn [rest pos].
  pose proof (leb128_fuel_enough n Hn) as Hfuel.
  rewrite varint_loop_groups; try lia; try (simpl; lia).
  rewrite leb128_groups_size by (lia || assumption).
  f_equal. f_equal. simpl. lia.
Qed.

(** C5 (amended). For every unsigned integer [n < 2^35], decoding the
    LEB128 encoding of [n] returns [n], whatever bytes follow it, and the
    decoder consumes exactly [max(1, ceil(bitlength(n)/7))] bytes, which is
    the length of the encoding: the bytes after the encoding are left unread
    and the position advances by that number. *)
Theorem C5_varint_roundtrip (n : Z) (tail : bytes) (p : Z) :
  0 <= n < 2 ^ 35 ->
  parse_varint (mkStream p (leb128_encode n ++ tail))
  = Ok (n, mkStream (p + Z.max 1 (ceil_div (bitlength n) 7)) tail)
  /\ len (leb128_encode n) = Z.max 1 (ceil_div (bitlength n) 7).
Proof.
  intros [Hn _]. split.
  - apply parse_varint_encode. assumption.
  - unfold leb128_encode. pose proof (leb128_fuel_enough n Hn).
    apply leb128_groups_size; [lia | assumption].
Qed.

Lemma C5_varint_roundtrip_witness :
  parse_varint (mkStream 0 (leb128_encode 129 ++ [xff]))
  = Ok (129, mkStream (0 + Z.max 1 (ceil_div (bitlength 129) 7)) [xff])
  /\ len (leb128_encode 129) = Z.max 1 (ceil_div (bitlength 129) 7).
Proof.
  apply (C5_varint_roundtrip 129 [xff] 0). simpl. lia.
Defined.

(** C5 as stated fails at [n = 0]: the encoding of 0 is the byte [0x00], the
    decoder consumes that one byte, and [ceil(bitlength(0)/7)] is 0. *)
Lemma C5_zero_takes_one_byte :
  ~ (forall n : Z, 0 <= n < 2 ^ 35 ->
       exists s' : stream,
         parse_varint (BytesIO (leb128_encode n)) = Ok (n, s')
         /\ tell s' - tell (BytesIO (leb128_encode n))
            = ceil_div (bitlength n) 7).
Proof.
  intros H. destruct (H 0) as [s' [Hparse Hpos]]; [simpl; lia|].
  vm_compute in Hparse. inversion Hparse; subst s'.
  vm_compute in Hpos. discriminate.
Qed.

(** ** Progress of the decoder *)

(** Splits the first [bind] of a hypothesis that says a computation
    succeeded. *)
Lemma bind_ok {A B : Type} (r : result A) (k : A -> result B) (b : B) :
  bind r k = Ok b -> exists a, r = Ok a /\ k a = Ok b.
Proof. destruct r; simpl; intros H; try discriminate. eauto. Qed.

Lemma bind_err {A B : Type} (r : result A) (k : A -> result B) (e : exn) :
  r = Err e -> bind r k = Err e.
Proof. intros ->. reflexivity. Qed.

Lemma bind_not_out {A B : Type} (r : result A) (k : A -> result B) :
  r <> OutOfFuel -> (forall a, r = Ok a -> k a <> OutOfFuel) ->
  bind r k <> OutOfFuel.
Proof. destruct r; simpl; intros H1 H2; auto. discriminate. Qed.

Lemma read_byte_spec (s s' : stream) (v : Z) :
  read_byte s = Ok (v, s') ->
  exists b, rest s = b :: rest s' /\ v = byte_val b /\ pos s' = pos s + 1.
Proof.
  unfold read_byte. destruct (rest s) as [|b t]; [discriminate|].
  intros H. inv H. exists b. auto.
Qed.

Lemma parse_cbor_head_shrinks (s s' : stream) (m : MajorType) (info : pyval) :
  parse_cbor_head s = Ok (m, info, s') ->
  (List.length (rest s') < List.length (rest s))%nat.
Proof.
  unfold parse_cbor_head. intros H.
  apply bind_ok in H. destruct H as [[first s1] [Hb H]].
  apply read_byte_spec in Hb. destruct Hb as [b [Hrest _]].
  rewrite Hrest. simpl.
  apply bind_ok in H. destruct H as [mt [_ H]].
  destruct (Z.land first 31 <? 24).
  - destruct mt; try (inv H; lia).
    apply bind_ok in H. destruct H as [v [_ H]]. inv H. lia.
  - destruct (BYTE_LENGTHS (Z.land first 31)) as [k|].
    + destruct (read k s1) as [bv s2] eqn:Hr. apply read_shrinks in Hr.
      destruct mt; try (inv H; lia).
      apply bind_ok in H. destruct H as [v [_ H]]. inv H. lia.
    + destruct (Z.land first 31 =? 31); discriminate.
Qed.

Lemma parse_cbor_head_not_out (s : stream) : parse_cbor_head s <> OutOfFuel.
Proof.
  unfold parse_cbor_head, read_byte. destruct (rest s) as [|b t]; [discriminate|].
  simpl. unfold MajorType_of.
  destruct (Z.shiftr (byte_val b) 5) as [|q|q]; try discriminate;
    repeat (destruct q as [q|q|]; try discriminate);
    simpl; (destruct (Z.land (byte_val b) 31 <? 24);
      [ try discriminate; unfold simple_value;
        destruct (Z.land (byte_val b) 31) as [|r|r]; try discriminate;
        repeat (destruct r as [r|r|]; try discriminate)
      | destruct (BYTE_LENGTHS (Z.land (byte_val b) 31));
        [ destruct (read _ _) as [bv s2]; try discriminate;
          unfold unpack_float;
          destruct (List.length bv) as [|[|[|[|[|[|[|[|[|n]]]]]]]]]; discriminate
        | destruct (Z.land (byte_val b) 31 =? 31); discriminate ] ]).
Qed.

(** One step of each of the three mutually recursive functions. *)
Lemma parse_obj_step (f : nat) (s : stream) :
  parse_obj (S f) s
  = ('(major_type, info, s) <- parse_cbor_head s ;;
     match major_type with
     | UNSIGNED_INT | NEGATIVE_INT | FLOAT => Ok (info, s)
     | BYTE_STRING =>
         n <- as_int info ;;
         let (value, s) := read n s in
         if negb (len value =? n) then Err EOFError
         else Ok (PyBytes value, s)
     | TEXT_STRING =>
         n <- as_int info ;;
         let (value, s) := read n s in
         if negb (len value =? n) then Err EOFError
         else str <- decode_utf8 value ;; Ok (PyStr str, s)
     | ARRAY =>
         n <- as_int info ;;
         '(values, s) <- parse_array_items f n [] s ;;
         Ok (PyList values, s)
     | MAP =>
         n <- as_int info ;;
         '(values, s) <- parse_map_items f n [] s ;;
         Ok (PyDict values, s)
     | TAG =>
         n <- as_int info ;;
         if negb (n =? 42) then Err ExcNon42
         else
           '(cid_bytes, s) <- parse_obj f s ;;
           link <- decode_link cid_bytes ;;
           Ok (link, s)
     end).
Proof. reflexivity. Qed.

Lemma parse_array_items_step (f : nat) (n : Z) (values : list pyval) (s : stream) :
  parse_array_items (S f) n values s
  = (if n <=? 0 then Ok (values, s)
     else
       '(v, s) <- parse_obj f s ;;
       parse_array_items f (n - 1) (values ++ [v]) s).
Proof. reflexivity. Qed.

Lemma parse_map_items_step (f : nat) (n : Z) (values : pydict) (s : stream) :
  parse_map_items (S f) n values s
  = (if n <=? 0 then Ok (values, s)
     else
       '(key, s) <- parse_obj f s ;;
       match key with
       | PyStr k =>
           '(v, s) <- parse_obj f s ;;
           parse_map_items f (n - 1) (pd_set values (KStr k) v) s
       | _ => Err MapKeyNotStr
       end).
Proof. reflexivity. Qed.

(** A decoded value takes at least one byte; a loop never gives bytes
    back. *)
Lemma parse_obj_shrinks (fuel : nat) :
  (forall s v s', parse_obj fuel s = Ok (v, s') ->
     (List.length (rest s') < List.length (rest s))%nat)
  /\ (forall n vs s vs' s', parse_array_items fuel n vs s = Ok (vs', s') ->
        (List.length (rest s') <= List.length (rest s))%nat)
  /\ (forall n d s d' s', parse_map_items fuel n d s = Ok (d', s') ->
        (List.length (rest s') <= List.length (rest s))%nat).
Proof.
  induction fuel as [|f [IHo [IHa IHm]]].
  - repeat split; intros; discriminate.
  - split; [|split].
    + intros s v s' H. rewrite parse_obj_step in H.
      apply bind_ok in H. destruct H as [[[mt info] s1] [Hh H]].
      apply parse_cbor_head_shrinks in Hh.
      destruct mt.
      * inv H. assumption.
      * inv H. assumption.
      * apply bind_ok in H. destruct H as [n [_ H]].
        destruct (read n s1) as [value s2] eqn:Hr. apply read_shrinks in Hr.
        destruct (negb (len value =? n)); [discriminate|]. inv H. lia.
      * apply bind_ok in H. destruct H as [n [_ H]].
        destruct (read n s1) as [value s2] eqn:Hr. apply read_shrinks in Hr.
        destruct (negb (len value =? n)); [discriminate|].
        apply bind_ok in H. destruct H as [str [_ H]]. inv H. lia.
      * apply bind_ok in H. destruct H as [n [_ H]].
        apply bind_ok in H. destruct H as [[values s2] [Ha H]].
        apply IHa in Ha. inv H. lia.
      * apply bind_ok in H. destruct H as [n [_ H]].
        apply bind_ok in H. destruct H as [[values s2] [Ha H]].
        apply IHm in Ha. inv H. lia.
      * apply bind_ok in H. destruct H as [n [_ H]].
        destruct (negb (n =? 42)); [discriminate|].
        apply bind_ok in H. destruct H as [[cid_bytes s2] [Ha H]].
        apply IHo in Ha.
        apply bind_ok in H. destruct H as [link [_ H]]. inv H. lia.
      * inv H. assumption.
    + intros n vs s vs' s' H. rewrite parse_array_items_step in H.
      destruct (n <=? 0); [inv H; lia|].
      apply bind_ok in H. destruct H as [[v s1] [Ho H]].
      apply IHo in Ho. apply IHa in H. lia.
    + intros n d s d' s' H. rewrite parse_map_items_step in H.
      destruct (n <=? 0); [inv H; lia|].
      apply bind_ok in H. destruct H as [[key s1] [Ho H]].
      apply IHo in Ho. destruct key; try discriminate.
      apply bind_ok in H. destruct H as [[v s2] [Ho2 H]].
      apply IHo in Ho2. apply IHm in H. lia.
Qed.

Lemma decode_link_not_out (v : pyval) : decode_link v <> OutOfFuel.
Proof.
  destruct v; try discriminate. unfold decode_link, py_assert.
  destruct (len b =? 37); [|discriminate]. simpl.
  destruct (startswith b link_prefix_dag_cbor || startswith b link_prefix_raw);
    discriminate.
Qed.

Lemma as_int_not_out (v : pyval) : as_int v <> OutOfFuel.
Proof. destruct v; discriminate. Qed.

(** [OutOfFuel] is never the outcome when the fuel is at least twice the
    unread bytes, and one for a call or two for a loop. *)
Lemma parse_obj_fuel (fuel : nat) :
  (forall s, (2 * List.length (rest s) + 1 <= fuel)%nat ->
     parse_obj fuel s <> OutOfFuel)
  /\ (forall n vs s, (2 * List.length (rest s) + 2 <= fuel)%nat ->
        parse_array_items fuel n vs s <> OutOfFuel)
  /\ (forall n d s, (2 * List.length (rest s) + 2 <= fuel)%nat ->
        parse_map_items fuel n d s <> OutOfFuel).
Proof.
  induction fuel as [|f [IHo [IHa IHm]]].
  - repeat split; intros; lia.
  - destruct (parse_obj_shrinks f) as [Sho [Sha Shm]].
    split; [|split].
    + intros s Hf. rewrite parse_obj_step.
      apply bind_not_out; [apply parse_cbor_head_not_out|].
      intros [[mt info] s1] Hh. apply parse_cbor_head_shrinks in Hh.
      destruct mt; try discriminate.
      * apply bind_not_out; [apply as_int_not_out|]. intros n _.
        destruct (read n s1) as [value s2].
        destruct (negb (len value =? n)); discriminate.
      * apply bind_not_out; [apply as_int_not_out|]. intros n _.
        destruct (read n s1) as [value s2].
        destruct (negb (len value =? n)); [discriminate|].
        unfold decode_utf8. destruct (utf8_valid value); discriminate.
      * apply bind_not_out; [apply as_int_not_out|]. intros n _.
        apply bind_not_out; [apply IHa; lia|].
        intros [values s2] _. discriminate.
      * apply bind_not_out; [apply as_int_not_out|]. intros n _.
        apply bind_not_out; [apply IHm; lia|].
        intros [values s2] _. discriminate.
      * apply bind_not_out; [apply as_int_not_out|]. intros n _.
        destruct (negb (n =? 42)); [discriminate|].
        apply bind_not_out; [apply IHo; lia|].
        intros [cid_bytes s2] _.
        apply bind_not_out; [apply decode_link_not_out|]. discriminate.
    + intros n vs s Hf. rewrite parse_array_items_step.
      destruct (n <=? 0); [discriminate|].
      apply bind_not_out; [apply IHo; lia|].
      intros [v s1] Ho. apply Sho in Ho. apply IHa. lia.
    + intros n d s Hf. rewrite parse_map_items_step.
      destruct (n <=? 0); [discriminate|].
      apply bind_not_out; [apply IHo; lia|].
      intros [key s1] Ho. apply Sho in Ho.
      destruct key; try discriminate.
      apply bind_not_out; [apply IHo; lia|].
      intros [v s2] Ho2. apply Sho in Ho2. apply IHm. lia.
Qed.

(** The decoder is total: on every stream it returns a value or raises. *)
Lemma parse_obj_total (s : stream) : parse_dag_cbor_object s <> OutOfFuel.
Proof.
  unfold parse_dag_cbor_object.
  apply (proj1 (parse_obj_fuel _)). lia.
Qed.

Lemma parse_dag_cbor_object_shrinks (s s' : stream) (v : pyval) :
  parse_dag_cbor_object s = Ok (v, s') ->
  (List.length (rest s') < List.length (rest s))%nat.
Proof. apply (proj1 (parse_obj_shrinks _)). Qed.

(** ** Independence of the fuel *)

(** More fuel does not change an outcome that is not [OutOfFuel]. *)
Lemma parse_obj_more_fuel (fuel : nat) :
  (forall s, parse_obj fuel s <> OutOfFuel ->
     parse_obj (S fuel) s = parse_obj fuel s)
  /\ (forall n vs s, parse_array_items fuel n vs s <> OutOfFuel ->
        parse_array_items (S fuel) n vs s = parse_array_items fuel n vs s)
  /\ (forall n d s, parse_map_items fuel n d s <> OutOfFuel ->
        parse_map_items (S fuel) n d s = parse_map_items fuel n d s).
Proof.
  induction fuel as [|f [IHo [IHa IHm]]].
  - repeat split; intros; simpl in *; congruence.
  - split; [|split].
    + intros s H. rewrite (parse_obj_step (S f)). rewrite parse_obj_step in *.
      destruct (parse_cbor_head s) as [[[mt info] s1]| |]; try reflexivity.
      cbn [bind] in *. destruct mt; try reflexivity.
      * destruct (as_int info) as [n| |]; try reflexivity. cbn [bind] in *.
        rewrite IHa; [reflexivity|].
        intros E. rewrite E in H. now apply H.
      * destruct (as_int info) as [n| |]; try reflexivity. cbn [bind] in *.
        rewrite IHm; [reflexivity|].
        intros E. rewrite E in H. now apply H.
      * destruct (as_int info) as [n| |]; try reflexivity. cbn [bind] in *.
        destruct (negb (n =? 42)); [reflexivity|].
        rewrite IHo; [reflexivity|].
        intros E. rewrite E in H. now apply H.
    + intros n vs s H. rewrite (parse_array_items_step (S f)).
      rewrite parse_array_items_step in *.
      destruct (n <=? 0); [reflexivity|].
      assert (Ho : parse_obj f s <> OutOfFuel).
      { intros E. rewrite E in H. now apply H. }
      rewrite (IHo s Ho).
      destruct (parse_obj f s) as [[v s1]| |]; try reflexivity.
      cbn [bind] in *. now apply IHa.
    + intros n d s H. rewrite (parse_map_items_step (S f)).
      rewrite parse_map_items_step in *.
      destruct (n <=? 0); [reflexivity|].
      assert (Ho : parse_obj f s <> OutOfFuel).
      { intros E. rewrite E in H. now apply H. }
      rewrite (IHo s Ho).
      destruct (parse_obj f s) as [[key s1]| |]; try reflexivity.
      cbn [bind] in *. destruct key; try reflexivity.
      assert (Ho2 : parse_obj f s1 <> OutOfFuel).
      { intros E. rewrite E in H. now apply H. }
      rewrite (IHo s1 Ho2).
      destruct (parse_obj f s1) as [[v s2]| |]; try reflexivity.
      cbn [bind] in *. now apply IHm.
Qed.

(** With any fuel that is enough, [parse_obj] is [parse_dag_cbor_object]. *)
Lemma parse_obj_enough_fuel (s : stream) (extra : nat) :
  parse_obj (2 * List.length (rest s) + 2 + extra) s = parse_dag_cbor_object s.
Proof.
  unfold parse_dag_cbor_object.
  induction extra as [|k IH]; [now rewrite Nat.add_0_r|].
  rewrite Nat.add_succ_r, <- IH.
  apply (proj1 (parse_obj_more_fuel _)).
  apply (proj1 (parse_obj_fuel _)). lia.
Qed.

(** ** Heads *)

Lemma parse_cbor_head_indefinite (s : stream) (b : byte) (t : bytes) :
  rest s = b :: t ->
  Z.land (byte_val b) 0x1F = 31 ->
  parse_cbor_head s = Err ExcIndefinite.
Proof.
  intros Hrest Hinfo.
  unfold parse_cbor_head, read_byte. rewrite Hrest. cbn [bind].
  rewrite Hinfo.
  destruct (MajorType_of (Z.shiftr (byte_val b) 5)) as [mt| |] eqn:E.
  - reflexivity.
  - exfalso. revert E. destruct b; discriminate.
  - exfalso. revert E. destruct b; discriminate.
Qed.

(** The eight heads with additional info 31, one per major type. *)
Lemma indefinite_heads_all_major_types (m : MajorType) (t : bytes) (p : Z) :
  parse_cbor_head (mkStream p (byte_of_Z (32 * MajorType_value m + 31) :: t))
  = Err ExcIndefinite.
Proof. destruct m; reflexivity. Qed.

(** C3: what the head decoder does when fewer bytes remain than the head
    announces.  After [0x19], which announces two bytes, with one byte [0x01]
    left, it returns the integer 1; after [0x1b], which announces eight,
    with nothing left, it returns 0; after [0xfa], which announces a
    four-byte float, with the two bytes [0x3c 0x00] left, it returns them as
    a half-precision float.  None raises.  A short string body does raise
    [EOFError]. *)
Theorem C3_head_short_read_not_detected :
  parse_cbor_head (BytesIO [x19; x01])
  = Ok (UNSIGNED_INT, PyInt 1, mkStream 2 [])
  /\ parse_dag_cbor_object (BytesIO [x19; x01]) = Ok (PyInt 1, mkStream 2 [])
  /\ parse_dag_cbor_object (BytesIO [x1b]) = Ok (PyInt 0, mkStream 1 [])
  /\ parse_dag_cbor_object (BytesIO [xfa; x3c; x00])
     = Ok (PyFloat [x3c; x00], mkStream 3 [])
  /\ parse_dag_cbor_object (BytesIO [x42; x01]) = Err EOFError.
Proof. repeat split; reflexivity. Qed.

(** The defect in general: a multi-byte head of an integer, string, array,
    map or tag returns the big-endian value of whatever bytes [read]
    returned, without comparing their number with the number asked for. *)
Lemma head_multibyte_unchecked (s s1 s2 : stream) (first k : Z)
  (m : MajorType) (byte_value : bytes) :
  read_byte s = Ok (first, s1) ->
  MajorType_of (Z.shiftr first 5) = Ok m ->
  m <> NEGATIVE_INT -> m <> FLOAT ->
  BYTE_LENGTHS (Z.land first 0x1F) = Some k ->
  read k s1 = (byte_value, s2) ->
  parse_cbor_head s = Ok (m, PyInt (int_from_bytes_big byte_value), s2).
Proof.
  intros Hb Hm Hn Hf Hk Hr. unfold parse_cbor_head.
  rewrite Hb. cbn [bind]. rewrite Hm. cbn [bind].
  assert (Hge : (Z.land first 31 <? 24) = false).
  { unfold BYTE_LENGTHS in Hk. apply Z.ltb_ge.
    destruct (Z.land first 31) as [|q|q]; try discriminate.
    repeat (destruct q as [q|q|]; try discriminate); lia. }
  rewrite Hge, Hk, Hr. destruct m; try reflexivity; congruence.
Qed.

(** ** Dicts with [str] keys, and the deduplication helper *)

Section StrDict.

Context {V : Type}.

Lemma sdict_keys_set (d : list (string * V)) (k : string) (v : V) :
  map fst (dict_set String.eqb d k v)
  = if seen_before (map fst d) k then map fst d else map fst d ++ [k].
Proof.
  induction d as [|[k' v'] d IH]; simpl; [reflexivity|].
  rewrite (String.eqb_sym k k').
  destruct (String.eqb k' k) eqn:E; simpl; [reflexivity|].
  rewrite IH. destruct (seen_before (map fst d) k); reflexivity.
Qed.

Lemma sdict_get_set (d : list (string * V)) (k k' : string) (v : V) :
  dict_get String.eqb (dict_set String.eqb d k v) k'
  = if String.eqb k k' then Some v else dict_get String.eqb d k'.
Proof.
  induction d as [|[k0 v0] d IH]; simpl.
  - reflexivity.
  - destruct (String.eqb k0 k) eqn:E; simpl.
    + apply String.eqb_eq in E. subst k0.
      destruct (String.eqb k k'); reflexivity.
    + destruct (String.eqb k0 k') eqn:E'; [|exact IH].
      apply String.eqb_eq in E'. subst k0. now rewrite String.eqb_sym, E.
Qed.

Lemma sdict_values_by_key (d : list (string * V)) :
  NoDup (map fst d) ->
  map Some (dict_values d) = map (dict_get String.eqb d) (map fst d).
Proof.
  unfold dict_values.
  induction d as [|[k v] d IH]; simpl; intros Hnd; [reflexivity|].
  inversion Hnd as [|? ? Hnotin Hnd']; subst.
  rewrite String.eqb_refl. f_equal. rewrite IH by assumption.
  apply map_ext_in. intros k' Hin.
  destruct (String.eqb k k') eqn:E; [|reflexivity].
  apply String.eqb_eq in E. subst. contradiction.
Qed.

End StrDict.

Section DedupProofs.

Variable lower : string -> string.

Lemma seen_before_In (seen : list string) (k : string) :
  seen_before seen k = true <-> In k seen.
Proof.
  unfold seen_before. rewrite existsb_exists. split.
  - intros [x [Hin E]]. apply String.eqb_eq in E. now subst.
  - intros Hin. exists k. split; [assumption | apply String.eqb_refl].
Qed.

Lemma classes_from_ext (l : list string) :
  forall s1 s2,
    (forall k, seen_before s1 k = seen_before s2 k) ->
    classes_from lower s1 l = classes_from lower s2 l.
Proof.
  induction l as [|x l IH]; intros s1 s2 Hext; simpl; [reflexivity|].
  rewrite Hext. destruct (seen_before s2 (lower x)); [now apply IH|].
  f_equal. apply IH. intros k. simpl. now rewrite Hext.
Qed.

Lemma fold_keys (l : list string) :
  forall d : list (string * string),
    map fst (fold_left (dedup_step lower) l d)
    = map fst d ++ classes_from lower (map fst d) l.
Proof.
  induction l as [|x l IH]; intros d; simpl.
  - now rewrite app_nil_r.
  - rewrite IH. unfold dedup_step at 1 2. rewrite sdict_keys_set.
    destruct (seen_before (map fst d) (lower x)); [reflexivity|].
    rewrite <- app_assoc. simpl. do 2 f_equal.
    apply classes_from_ext. intros k. unfold seen_before.
    rewrite existsb_app. simpl. rewrite orb_false_r. apply orb_comm.
Qed.

Lemma fold_get (l : list string) :
  forall (d : list (string * string)) (k : string),
    dict_get String.eqb (fold_left (dedup_step lower) l d) k
    = match last_in_class lower k l with
      | Some v => Some v
      | None => dict_get String.eqb d k
      end.
Proof.
  induction l as [|x l IH]; intros d k; simpl; [reflexivity|].
  rewrite IH. destruct (last_in_class lower k l); [reflexivity|].
  unfold dedup_step. rewrite sdict_get_set. destruct (String.eqb (lower x) k); reflexivity.
Qed.

Lemma fold_values_in_class (l : list string) :
  forall d : list (string * string),
    Forall (fun kv => lower (snd kv) = fst kv) d ->
    Forall (fun kv => lower (snd kv) = fst kv) (fold_left (dedup_step lower) l d).
Proof.
  induction l as [|x l IH]; intros d Hd; simpl; [assumption|].
  apply IH. clear IH. unfold dedup_step.
  induction d as [|[k v] d IHd]; simpl.
  - constructor; [reflexivity | constructor].
  - inversion Hd as [|? ? Hk Hd']; subst.
    destruct (String.eqb k (lower x)) eqn:E.
    + apply String.eqb_eq in E. constructor; [simpl; congruence | assumption].
    + constructor; [assumption | now apply IHd].
Qed.

Lemma values_in_class_keys (d : list (string * string)) :
  Forall (fun kv => lower (snd kv) = fst kv) d ->
  map lower (dict_values d) = map fst d.
Proof.
  unfold dict_values. induction 1 as [|kv d Hkv _ IH]; simpl; [reflexivity|].
  now rewrite Hkv, IH.
Qed.

Lemma classes_from_NoDup (l : list string) :
  forall seen,
    NoDup (classes_from lower seen l)
    /\ (forall k, In k (classes_from lower seen l) -> ~ In k seen).
Proof.
  induction l as [|x l IH]; intros seen; simpl.
  - split; [constructor | intros k []].
  - destruct (seen_before seen (lower x)) eqn:E; [apply IH|].
    destruct (IH (lower x :: seen)) as [Hnd Hout]. split.
    + constructor; [|assumption]. intros Hin. apply (Hout _ Hin). now left.
    + intros k [<-|Hin].
      * intros Hin. apply seen_before_In in Hin. congruence.
      * intros Hs. apply (Hout _ Hin). now right.
Qed.

Lemma classes_from_complete (l : list string) :
  forall seen x,
    In x l -> In (lower x) (classes_from lower seen l) \/ In (lower x) seen.
Proof.
  induction l as [|y l IH]; intros seen x Hin; [destruct Hin|]. simpl.
  destruct (seen_before seen (lower y)) eqn:E.
  - destruct Hin as [->|Hin]; [right; now apply seen_before_In | now apply IH].
  - destruct Hin as [->|Hin]; [left; now left|].
    destruct (IH (lower y :: seen) x Hin) as [H|[H|H]].
    + left. now right.
    + left. left. assumption.
    + now right.
Qed.

(** C10. The output holds, for each lowercase class of the input and in the
    order in which the classes first occur, the last input item of that
    class, unchanged: its lowercase forms are the classes, each once, and
    every input item's class is among them. *)
Theorem C10_dedup_keeps_last_in_first_order (input_list : list string) :
  let out := remove_case_insensitive_duplicates lower input_list in
  map Some out
  = map (fun k => last_in_class lower k input_list) (classes lower input_list)
  /\ map lower out = classes lower input_list
  /\ NoDup (classes lower input_list)
  /\ (forall x, In x input_list -> In (lower x) (map lower out)).
Proof.
  intros out. unfold out, remove_case_insensitive_duplicates, classes.
  pose proof (fold_keys input_list []) as Hkeys. simpl in Hkeys.
  destruct (classes_from_NoDup input_list []) as [Hnd _].
  assert (Hlower : map lower (dict_values (fold_left (dedup_step lower) input_list []))
                   = classes_from lower [] input_list).
  { rewrite <- Hkeys. apply values_in_class_keys.
    apply fold_values_in_class. constructor. }
  repeat split.
  - rewrite sdict_values_by_key by (rewrite Hkeys; assumption).
    rewrite Hkeys. apply map_ext. intros k. rewrite fold_get.
    destruct (last_in_class lower k input_list); reflexivity.
  - assumption.
  - assumption.
  - intros x Hin. rewrite Hlower.
    destruct (classes_from_complete input_list [] x Hin) as [H|[]]. assumption.
Qed.

End DedupProofs.

Example dedup_example :
  remove_case_insensitive_duplicates lower_ascii
    ["Apple"; "bob"; "APPLE"; "Bob"; "c"]%string
  = ["APPLE"; "Bob"; "c"]%string.
Proof. reflexivity. Qed.

(** ** The tree enumerator *)

Lemma pykey_eqb_eq (a b : pykey) : pykey_eqb a b = true <-> a = b.
Proof.
  destruct a as [x|x], b as [y|y]; simpl;
    try (split; [discriminate | discriminate]).
  - rewrite String.eqb_eq. split; congruence.
  - rewrite bytes_eqb_eq. split; congruence.
Qed.

Lemma pykey_eqb_refl (a : pykey) : pykey_eqb a a = true.
Proof. now apply pykey_eqb_eq. Qed.

Lemma pd_get_set_same (d : pydict) (k : pykey) (v : pyval) :
  pd_get (pd_set d k v) k = Some v.
Proof.
  unfold pd_get, pd_set. induction d as [|[k' v'] d IH]; simpl.
  - now rewrite pykey_eqb_refl.
  - destruct (pykey_eqb k' k) eqn:E; simpl; rewrite E; [reflexivity | exact IH].
Qed.

Lemma pd_get_set_other (d : pydict) (k k' : pykey) (v : pyval) :
  k' <> k -> pd_get (pd_set d k v) k' = pd_get d k'.
Proof.
  intros Hne. unfold pd_get, pd_set. induction d as [|[k0 v0] d IH]; simpl.
  - destruct (pykey_eqb k k') eqn:E; [|reflexivity].
    apply pykey_eqb_eq in E. congruence.
  - destruct (pykey_eqb k0 k) eqn:E; simpl.
    + apply pykey_eqb_eq in E. subst k0.
      destruct (pykey_eqb k k') eqn:E'; [|reflexivity].
      apply pykey_eqb_eq in E'. congruence.
    + destruct (pykey_eqb k0 k'); [reflexivity | exact IH].
Qed.

Lemma slice_to_firstn (b : bytes) (p : Z) :
  0 <= p -> slice_to b p = firstn (Z.to_nat p) b.
Proof.
  intros Hp. unfold slice_to.
  replace (p <? 0) with false by (symmetry; apply Z.ltb_ge; lia).
  now rewrite split_at_firstn.
Qed.

(** C4. An entry [{p, k, v}] whose shared-prefix length [p] is at most the
    length of the previous key gets the key [prev_key[:p] + k], which for
    [p >= 0] is the first [p] bytes of the previous key followed by [k];
    the accumulator maps that key to [v], replacing what it mapped it to
    and leaving the other keys alone, before the entry's right subtree, if
    it has one in the block mapping, is merged; the previous key becomes
    the new key.  A [p] above the length of the previous key fails the
    assertion.  The two entries of the example give the two records of the
    example. *)
Theorem C4_mst_entry_key_reconstruction :
  (forall (recur : pyval -> result pydict) (nodes records : pydict)
          (prev_key : bytes) (d : pydict) (p : Z) (k : bytes) (v : pyval),
      pd_get d (KStr "p") = Some (PyInt p) ->
      pd_get d (KStr "k") = Some (PyBytes k) ->
      pd_get d (KStr "v") = Some v ->
      let key := slice_to prev_key p ++ k in
      let recorded := pd_set records (KBytes key) v in
      let t := match pd_get d (KStr "t") with Some x => x | None => PyNone end in
      (p <= len prev_key ->
         mst_entry recur nodes (records, prev_key) (PyDict d)
         = (merged <- mst_merge_subtree recur nodes recorded t ;;
            Ok (merged, key))
         /\ (py_in t nodes = Ok false ->
             mst_entry recur nodes (records, prev_key) (PyDict d)
             = Ok (recorded, key))
         /\ (0 <= p -> key = firstn (Z.to_nat p) prev_key ++ k)
         /\ pd_get recorded (KBytes key) = Some v
         /\ (forall k', k' <> KBytes key ->
               pd_get recorded k' = pd_get records k'))
      /\ (len prev_key < p ->
          mst_entry recur nodes (records, prev_key) (PyDict d)
          = Err (AssertionError AssertMstPrefix)))
  /\ (forall (fuel : nat) (nodes : pydict) (cidA cidB : pyval),
        enumerate_mst_records (S fuel) nodes
          (Fixtures.node [Fixtures.entry 0 "bob" cidA;
                          Fixtures.entry 1 "rah" cidB])
        = Ok [(KBytes (list_byte_of_string "bob"), cidA);
              (KBytes (list_byte_of_string "brah"), cidB)]).
Proof.
  split.
  - intros recur nodes records prev_key d p k v Hp Hk Hv key recorded t.
    split.
    + intros Hle.
      assert (Hrun : mst_entry recur nodes (records, prev_key) (PyDict d)
                     = (merged <- mst_merge_subtree recur nodes recorded t ;;
                        Ok (merged, key))).
      { unfold mst_entry, py_getitem_str, py_dict_get.
        rewrite Hp, Hk, Hv. cbn [bind py_le_int py_slice_to py_bytes_concat].
        replace (p <=? len prev_key) with true
          by (symmetry; apply Z.leb_le; assumption).
        reflexivity. }
      split; [exact Hrun|]. split; [|split; [|split]].
      * intros Hin. rewrite Hrun. unfold mst_merge_subtree. rewrite Hin.
        reflexivity.
      * intros Hp0. unfold key. now rewrite slice_to_firstn.
      * apply pd_get_set_same.
      * intros k' Hne. now apply pd_get_set_other.
    + intros Hgt. unfold mst_entry, py_getitem_str.
      rewrite Hp. cbn [bind py_le_int].
      replace (p <=? len prev_key) with false
        by (symmetry; apply Z.leb_gt; assumption).
      reflexivity.
  - intros fuel nodes cidA cidB. reflexivity.
Qed.

Lemma C4_mst_entry_key_reconstruction_witness :
  1 <= len (list_byte_of_string "bob")
  /\ mst_entry (fun _ => Ok []) []
       ([(KBytes (list_byte_of_string "bob"), PyStr "bafyA")],
        list_byte_of_string "bob")
       (Fixtures.entry 1 "rah" (PyStr "bafyB"))
     = Ok ([(KBytes (list_byte_of_string "bob"), PyStr "bafyA");
            (KBytes (list_byte_of_string "brah"), PyStr "bafyB")],
           list_byte_of_string "brah").
Proof.
  split; [vm_compute; discriminate|].
  destruct C4_mst_entry_key_reconstruction as [Hentry _].
  destruct (Hentry (fun _ => Ok []) []
              [(KBytes (list_byte_of_string "bob"), PyStr "bafyA")]
              (list_byte_of_string "bob")
              [(KStr "p", PyInt 1);
               (KStr "k", PyBytes (list_byte_of_string "rah"));
               (KStr "v", PyStr "bafyB")]
              1 (list_byte_of_string "rah") (PyStr "bafyB")) as [Hin _];
    [reflexivity | reflexivity | reflexivity |].
  destruct Hin as [_ [Hplain _]]; [vm_compute; discriminate|].
  apply Hplain. reflexivity.
Defined.

(** A negative [p], which a DAG-CBOR integer can be, passes the assertion,
    and [prev_key[:p]] then drops bytes from the end of the previous key, as
    Python slices do. *)
Example mst_entry_negative_prefix :
  mst_entry (fun _ => Ok []) [] ([], list_byte_of_string "bob")
    (Fixtures.entry (-1) "x" PyNone)
  = Ok ([(KBytes (list_byte_of_string "box"), PyNone)],
        list_byte_of_string "box").
Proof. reflexivity. Qed.

(** ** The container parser *)

Lemma be_bytes_length (width : nat) (x : Z) :
  List.length (SHA256.be_bytes width x) = width.
Proof.
  unfold SHA256.be_bytes. now rewrite length_map, length_rev, length_seq.
Qed.

Lemma sha256_length (msg : bytes) : List.length (sha256 msg) = 32%nat.
Proof.
  unfold sha256, SHA256.sha256, SHA256.digest_of. cbn [flat_map].
  repeat rewrite length_app. repeat rewrite be_bytes_length. reflexivity.
Qed.

(** [cid_raw.endswith(digest)] fails exactly when the last 32 bytes of
    [cid_raw] are not the digest. *)
Lemma endswith_digest (cid_raw digest : bytes) :
  List.length digest = 32%nat ->
  endswith cid_raw digest = false
  <-> skipn (List.length cid_raw - 32) cid_raw <> digest.
Proof.
  intros Hlen. unfold endswith. rewrite Hlen. split.
  - intros H Heq. rewrite Heq in H.
    assert (Hb : bytes_eqb digest digest = true) by now apply bytes_eqb_eq.
    rewrite Hb, andb_true_r in H. apply Nat.leb_gt in H.
    assert (Hl : List.length (skipn (List.length cid_raw - 32) cid_raw) = 32%nat)
      by (rewrite Heq; assumption).
    rewrite length_skipn in Hl. lia.
  - intros Hne. apply andb_false_iff. right.
    destruct (bytes_eqb _ digest) eqn:E; [|reflexivity].
    apply bytes_eqb_eq in E. contradiction.
Qed.

Lemma varint_loop_shrinks (unread : bytes) :
  forall p n shift v s',
    varint_loop unread p n shift = Ok (v, s') ->
    (List.length (rest s') < List.length unread)%nat.
Proof.
  induction unread as [|b t IH]; intros p n shift v s' H; [discriminate|].
  simpl in H. destruct (Z.land (byte_val b) 128 =? 0).
  - inv H. simpl. lia.
  - apply IH in H. simpl. lia.
Qed.

Lemma varint_loop_not_out (unread : bytes) :
  forall p n shift, varint_loop unread p n shift <> OutOfFuel.
Proof.
  induction unread as [|b t IH]; intros p n shift; simpl; [discriminate|].
  destruct (Z.land (byte_val b) 128 =? 0); [discriminate | apply IH].
Qed.

(** The body of the loop once the varint, the CID bytes and the payload
    bytes have been read. *)
Lemma parse_car_block_reads (s s1 s2 s3 : stream) (nodes : pydict)
  (block_len : Z) (cid_raw block_data : bytes) :
  parse_varint s = Ok (block_len, s1) ->
  read 36 s1 = (cid_raw, s2) ->
  read (block_len - 36) s2 = (block_data, s3) ->
  parse_car_block s nodes
  = (_ <- py_assert (startswith cid_raw block_prefix_dag_cbor)
            AssertBlockPrefix ;;
     _ <- py_assert (endswith cid_raw (sha256 block_data)) AssertDigest ;;
     '(block, block_data_stream) <- parse_dag_cbor_object (BytesIO block_data) ;;
     _ <- py_assert (is_empty (fst (read_all block_data_stream)))
            AssertTrailing ;;
     _ <- py_assert (tell s3 - tell s1 =? block_len) AssertBlockLen ;;
     Ok (s3, pd_set nodes (KStr (cid_text cid_raw)) block)).
Proof.
  intros Hv Hc Hd. unfold parse_car_block. rewrite Hv. cbn [bind].
  rewrite Hc.
  destruct (startswith cid_raw block_prefix_dag_cbor); cbn [py_assert bind];
    [|reflexivity].
  rewrite Hd. reflexivity.
Qed.

Lemma py_assert_ok (c : bool) (site : assert_site) (u : unit) :
  py_assert c site = Ok u -> c = true.
Proof. destruct c; [reflexivity | discriminate]. Qed.

Lemma parse_car_block_shrinks (s s' : stream) (nodes nodes' : pydict) :
  parse_car_block s nodes = Ok (s', nodes') ->
  (List.length (rest s') < List.length (rest s))%nat.
Proof.
  intros H. destruct (parse_varint s) as [[block_len s1]| |] eqn:Hv;
    try (unfold parse_car_block in H; rewrite Hv in H; discriminate).
  destruct (read 36 s1) as [cid_raw s2] eqn:Hc.
  destruct (read (block_len - 36) s2) as [block_data s3] eqn:Hd.
  rewrite (parse_car_block_reads _ _ _ _ _ _ _ _ Hv Hc Hd) in H.
  apply varint_loop_shrinks in Hv.
  apply read_shrinks in Hc. apply read_shrinks in Hd.
  apply bind_ok in H. destruct H as [_ [_ H]].
  apply bind_ok in H. destruct H as [_ [_ H]].
  apply bind_ok in H. destruct H as [[block bs] [_ H]].
  apply bind_ok in H. destruct H as [_ [_ H]].
  apply bind_ok in H. destruct H as [_ [_ H]].
  inv H. lia.
Qed.

Lemma parse_car_block_not_out (s : stream) (nodes : pydict) :
  parse_car_block s nodes <> OutOfFuel.
Proof.
  destruct (parse_varint s) as [[block_len s1]| |] eqn:Hv.
  - destruct (read 36 s1) as [cid_raw s2] eqn:Hc.
    destruct (read (block_len - 36) s2) as [block_data s3] eqn:Hd.
    rewrite (parse_car_block_reads _ _ _ _ _ _ _ _ Hv Hc Hd).
    unfold py_assert.
    destruct (startswith cid_raw block_prefix_dag_cbor); [|discriminate].
    destruct (endswith cid_raw (sha256 block_data)); [|discriminate].
    cbn [bind].
    apply bind_not_out; [apply parse_obj_total|].
    intros [block bs] _.
    destruct (is_empty (fst (read_all bs))); [|discriminate].
    destruct (tell s3 - tell s1 =? block_len); discriminate.
  - unfold parse_car_block. rewrite Hv. discriminate.
  - exfalso. revert Hv. apply varint_loop_not_out.
Qed.

Lemma parse_car_blocks_fuel (fuel : nat) :
  forall s length nodes,
    (List.length (rest s) < fuel)%nat ->
    parse_car_blocks fuel s length nodes <> OutOfFuel.
Proof.
  induction fuel as [|f IH]; intros s length nodes Hf; [lia|]. simpl.
  destruct (tell s =? length); [discriminate|].
  apply bind_not_out; [apply parse_car_block_not_out|].
  intros [s' n'] Hb. apply parse_car_block_shrinks in Hb. apply IH. lia.
Qed.

(** The container parser is total. *)
Lemma parse_car_total (s : stream) (length : Z) :
  parse_car s length <> OutOfFuel.
Proof.
  unfold parse_car.
  apply bind_not_out.
  - unfold parse_car_header.
    apply bind_not_out; [apply varint_loop_not_out|]. intros [header_len s1] _.
    apply bind_not_out; [apply parse_obj_total|]. intros [car_header s2] _.
    unfold py_assert.
    destruct (tell s2 - tell s1 =? header_len); [|discriminate]. cbn [bind].
    destruct (py_dict_get car_header "version" PyNone) as [version| |] eqn:E1;
      [|discriminate|destruct car_header; discriminate]. cbn [bind].
    destruct (py_eq_int version 1); [|discriminate]. cbn [bind].
    destruct (py_dict_get car_header "roots" (PyList [])) as [roots| |] eqn:E2;
      [|discriminate|destruct car_header; discriminate]. cbn [bind].
    destruct (py_len roots) as [n| |] eqn:E3;
      [|discriminate|destruct roots; discriminate]. cbn [bind].
    destruct (n =? 1); [|discriminate]. cbn [bind].
    destruct (py_getitem_str car_header "roots") as [roots'| |] eqn:E4;
      [|discriminate|].
    + cbn [bind].
      destruct (py_getitem_0 roots') as [root| |] eqn:E5; try discriminate.
      destruct roots' as [| | | | [|? ?] | ? | [|? ?] | ?];
        try discriminate.
      simpl in E5. destruct (str_chars s0); discriminate.
    + destruct car_header; try discriminate. simpl in E4.
      destruct (pd_get d (KStr "roots")); discriminate.
  - intros [root s0] _.
    apply bind_not_out; [apply parse_car_blocks_fuel; lia|].
    intros nodes _. discriminate.
Qed.

Lemma blocks_reach_run (length : Z) (fuel fuel' : nat) (s s' : stream)
  (nodes nodes' : pydict) :
  blocks_reach length fuel s nodes fuel' s' nodes' ->
  parse_car_blocks fuel s length nodes = parse_car_blocks fuel' s' length nodes'.
Proof.
  induction 1 as [|f s s1 nodes nodes1 f' s' nodes' Hne Hb _ IH];
    [reflexivity|].
  simpl. replace (tell s =? length) with false
    by (symmetry; now apply Z.eqb_neq).
  rewrite Hb. exact IH.
Qed.

Lemma blocks_reach_fuel (length : Z) (fuel fuel' : nat) (s s' : stream)
  (nodes nodes' : pydict) :
  blocks_reach length fuel s nodes fuel' s' nodes' ->
  (List.length (rest s) < fuel)%nat -> (List.length (rest s') < fuel')%nat.
Proof.
  induction 1 as [|f s s1 nodes nodes1 f' s' nodes' Hne Hb _ IH];
    intros Hf; [assumption|].
  apply parse_car_block_shrinks in Hb. apply IH. lia.
Qed.

(** An exception raised by a block is the outcome of [parse_car]: the blocks
    read before it are not returned. *)
Lemma parse_car_block_error (s : stream) (length : Z) (root : pyval)
  (s0 : stream) (fuel : nat) (sk : stream) (nodes : pydict) (e : exn) :
  parse_car_header s = Ok (root, s0) ->
  blocks_reach length (S (List.length (rest s0))) s0 [] fuel sk nodes ->
  tell sk <> length ->
  parse_car_block sk nodes = Err e ->
  parse_car s length = Err e.
Proof.
  intros Hh Hreach Hne Hb. unfold parse_car. rewrite Hh. cbn [bind].
  rewrite (blocks_reach_run _ _ _ _ _ _ _ Hreach).
  apply blocks_reach_fuel in Hreach; [|lia].
  destruct fuel as [|f]; [lia|]. simpl.
  replace (tell sk =? length) with false by (symmetry; now apply Z.eqb_neq).
  rewrite Hb. reflexivity.
Qed.

(** C1. When the loop of [parse_car] is at a block whose 36 bytes of CID
    carry the accepted prefix and the SHA-256 of whose payload is not the
    last 32 bytes of those CID bytes, the block raises the digest assertion,
    and that assertion is the outcome of [parse_car]: the root and the
    blocks read before it are not returned. *)
Theorem C1_digest_mismatch_is_fatal
  (s : stream) (length : Z) (root : pyval) (s0 : stream)
  (fuel : nat) (sk : stream) (nodes : pydict)
  (block_len : Z) (s1 : stream) (cid_raw : bytes) (s2 : stream)
  (block_data : bytes) (s3 : stream) :
  parse_car_header s = Ok (root, s0) ->
  blocks_reach length (S (List.length (rest s0))) s0 [] fuel sk nodes ->
  tell sk <> length ->
  parse_varint sk = Ok (block_len, s1) ->
  read 36 s1 = (cid_raw, s2) ->
  startswith cid_raw block_prefix_dag_cbor = true ->
  read (block_len - 36) s2 = (block_data, s3) ->
  skipn (List.length cid_raw - 32) cid_raw <> sha256 block_data ->
  parse_car_block sk nodes = Err (AssertionError AssertDigest)
  /\ parse_car s length = Err (AssertionError AssertDigest).
Proof.
  intros Hh Hreach Hne Hv Hc Hp Hd Hdigest.
  assert (Hb : parse_car_block sk nodes = Err (AssertionError AssertDigest)).
  { rewrite (parse_car_block_reads _ _ _ _ _ _ _ _ Hv Hc Hd), Hp.
    apply (endswith_digest _ _ (sha256_length block_data)) in Hdigest.
    rewrite Hdigest. reflexivity. }
  split; [exact Hb|].
  exact (parse_car_block_error _ _ _ _ _ _ _ _ Hh Hreach Hne Hb).
Qed.

Lemma C1_digest_mismatch_is_fatal_witness :
  Fixtures.parse Fixtures.car_bad_digest = Err (AssertionError AssertDigest).
Proof.
  unfold Fixtures.parse.
  eapply C1_digest_mismatch_is_fatal.
  - vm_compute. reflexivity.
  - vm_compute. eapply reach_next.
    + vm_compute. discriminate.
    + vm_compute. reflexivity.
    + apply reach_here.
  - vm_compute. discriminate.
  - vm_compute. reflexivity.
  - vm_compute. reflexivity.
  - vm_compute. reflexivity.
  - vm_compute. reflexivity.
  - vm_compute. discriminate.
Defined.

(** The example of the specification: one block, with a wrong digest. *)
Example car_single_bad_block :
  Fixtures.parse
    (Fixtures.car Fixtures.root
       [Fixtures.framed (Fixtures.cid_of x71 Fixtures.five ++ [x06])])
  = Err (AssertionError AssertDigest).
Proof. vm_compute. reflexivity. Qed.

Example car_good :
  exists nodes,
    Fixtures.parse
      (Fixtures.car Fixtures.root
         [Fixtures.block x71 Fixtures.empty_node;
          Fixtures.block x71 Fixtures.five])
    = Ok (PyStr "bafyreib47qoy3wxasj2dlstlfmphwpeyaeytgsmi2o7nzgagogw4jsbn7y",
          nodes)
    /\ map snd nodes = [PyDict [(KStr "e", PyList [])]; PyInt 5].
Proof. eexists. split; vm_compute; reflexivity. Qed.

Lemma decode_link_accepts (b : bytes) :
  List.length b = 37%nat ->
  decode_link (PyBytes b)
  = if startswith b link_prefix_dag_cbor || startswith b link_prefix_raw
    then Ok (PyStr (cid_text (tl b)))
    else Err (AssertionError AssertLinkPrefix).
Proof.
  intros Hlen. unfold decode_link, len. rewrite Hlen. cbn [Z.eqb py_assert bind].
  simpl (Z.of_nat 37 =? 37). cbn [py_assert bind].
  destruct (startswith b link_prefix_dag_cbor || startswith b link_prefix_raw);
    reflexivity.
Qed.

(** C2 (amended). An embedded link of 37 bytes is accepted exactly when it
    starts with the multibase byte and the CID v1 / DAG-CBOR / SHA-256
    prefix or the CID v1 / raw / SHA-256 prefix, and fails the prefix
    assertion otherwise.  The 36 bytes of a container block's CID are
    accepted only with the CID v1 / DAG-CBOR / SHA-256 prefix: with any
    other first four bytes, those of the raw prefix among them, the block
    fails the prefix assertion and so does [parse_car]. *)
Theorem C2_accepted_cid_prefixes :
  (forall b : bytes,
      List.length b = 37%nat ->
      ((exists v, decode_link (PyBytes b) = Ok v)
       <-> (firstn 5 b = link_prefix_dag_cbor \/ firstn 5 b = link_prefix_raw))
      /\ (firstn 5 b <> link_prefix_dag_cbor ->
          firstn 5 b <> link_prefix_raw ->
          decode_link (PyBytes b) = Err (AssertionError AssertLinkPrefix)))
  /\ (forall (s : stream) (length : Z) (root : pyval) (s0 : stream)
             (fuel : nat) (sk : stream) (nodes : pydict)
             (block_len : Z) (s1 : stream) (cid_raw : bytes) (s2 : stream),
        parse_car_header s = Ok (root, s0) ->
        blocks_reach length (S (List.length (rest s0))) s0 [] fuel sk nodes ->
        tell sk <> length ->
        parse_varint sk = Ok (block_len, s1) ->
        read 36 s1 = (cid_raw, s2) ->
        (firstn 4 cid_raw <> block_prefix_dag_cbor ->
         parse_car_block sk nodes = Err (AssertionError AssertBlockPrefix)
         /\ parse_car s length = Err (AssertionError AssertBlockPrefix))
        /\ (firstn 4 cid_raw = block_prefix_raw ->
            parse_car_block sk nodes = Err (AssertionError AssertBlockPrefix)
            /\ parse_car s length = Err (AssertionError AssertBlockPrefix))
        /\ (forall r, parse_car_block sk nodes = Ok r ->
              firstn 4 cid_raw = block_prefix_dag_cbor)).
Proof.
  split.
  - intros b Hlen. rewrite (decode_link_accepts b Hlen).
    pose proof (startswith_firstn b link_prefix_dag_cbor) as Hd.
    pose proof (startswith_firstn b link_prefix_raw) as Hr.
    simpl List.length in Hd, Hr.
    destruct (startswith b link_prefix_dag_cbor) eqn:Ed;
      destruct (startswith b link_prefix_raw) eqn:Er; simpl orb.
    + split; [split; [intros _; left; now apply Hd | intros _; eauto]|].
      intros H. exfalso. apply H. now apply Hd.
    + split; [split; [intros _; left; now apply Hd | intros _; eauto]|].
      intros H. exfalso. apply H. now apply Hd.
    + split; [split; [intros _; right; now apply Hr | intros _; eauto]|].
      intros _ H. exfalso. apply H. now apply Hr.
    + split; [|reflexivity]. split.
      * intros [v Hv]. discriminate.
      * intros [H|H]; [apply Hd in H | apply Hr in H]; discriminate.
  - intros s length root s0 fuel sk nodes block_len s1 cid_raw s2
           Hh Hreach Hne Hv Hc.
    destruct (read (block_len - 36) s2) as [block_data s3] eqn:Hd.
    pose proof (parse_car_block_reads _ _ _ _ nodes _ _ _ Hv Hc Hd) as Hrun.
    pose proof (startswith_firstn cid_raw block_prefix_dag_cbor) as Hp.
    simpl List.length in Hp.
    assert (Hrej : firstn 4 cid_raw <> block_prefix_dag_cbor ->
                   parse_car_block sk nodes
                   = Err (AssertionError AssertBlockPrefix)
                   /\ parse_car s length
                      = Err (AssertionError AssertBlockPrefix)).
    { intros Hneq.
      assert (Hb : parse_car_block sk nodes
                   = Err (AssertionError AssertBlockPrefix)).
      { rewrite Hrun.
        destruct (startswith cid_raw block_prefix_dag_cbor) eqn:E;
          [|reflexivity].
        exfalso. apply Hneq. now apply Hp. }
      split; [exact Hb|].
      exact (parse_car_block_error _ _ _ _ _ _ _ _ Hh Hreach Hne Hb). }
    split; [exact Hrej|]. split.
    + intros Hraw. apply Hrej. rewrite Hraw. discriminate.
    + intros r Hok. rewrite Hrun in Hok.
      apply bind_ok in Hok. destruct Hok as [u [Ha _]].
      apply py_assert_ok in Ha. now apply Hp.
Qed.

Lemma C2_accepted_cid_prefixes_witness :
  firstn 4 (Fixtures.cid_of x55 Fixtures.five) = block_prefix_raw
  /\ Fixtures.parse Fixtures.car_raw_block
     = Err (AssertionError AssertBlockPrefix).
Proof.
  split; [reflexivity|].
  destruct C2_accepted_cid_prefixes as [_ Hblock].
  unfold Fixtures.parse.
  edestruct (Hblock (BytesIO Fixtures.car_raw_block)
                    (len Fixtures.car_raw_block)) as [_ [Hraw _]].
  - vm_compute. reflexivity.
  - vm_compute. eapply reach_next.
    + vm_compute. discriminate.
    + vm_compute. reflexivity.
    + apply reach_here.
  - vm_compute. discriminate.
  - vm_compute. reflexivity.
  - vm_compute. reflexivity.
  - apply Hraw. reflexivity.
Defined.

(** C2 as stated fails on a container whose second block has the raw
    codec in its CID, the right digest and a payload that decodes: the
    parser raises the prefix assertion instead of accepting the block. *)
Lemma C2_raw_block_rejected :
  firstn 4 (Fixtures.cid_of x55 Fixtures.five) = block_prefix_raw
  /\ skipn 4 (Fixtures.cid_of x55 Fixtures.five) = sha256 Fixtures.five
  /\ Fixtures.car_raw_block
     = Fixtures.framed (Fixtures.header Fixtures.root)
       ++ Fixtures.block x71 Fixtures.empty_node
       ++ Fixtures.framed (Fixtures.cid_of x55 Fixtures.five ++ Fixtures.five)
  /\ Fixtures.parse Fixtures.car_raw_block
     = Err (AssertionError AssertBlockPrefix).
Proof. repeat split; vm_compute; reflexivity. Qed.




(** The headers of the specification's examples. *)
Example car_header_shapes :
  Fixtures.parse Fixtures.car_no_roots = Err (AssertionError AssertRoots)
  /\ Fixtures.parse Fixtures.car_two_roots = Err (AssertionError AssertRoots)
  /\ Fixtures.parse Fixtures.car_version_2 = Err (AssertionError AssertVersion).
Proof. repeat split; vm_compute; reflexivity. Qed.

(** What Python's [==] and [len] let through: the boolean [True] as a
    version, and a one-character text string as [roots]. *)
Example car_header_python_equalities :
  py_eq_int (PyBool true) 1 = true
  /\ py_eq_int (PyFloat [x3c; x00]) 1 = true
  /\ py_len (PyStr "a") = Ok 1.
Proof. repeat split; reflexivity. Qed.

(** C9 (amended). For a block whose varint length is below 36, the parser
    still reads 36 bytes for the CID and then asks for a negative number of
    payload bytes, which returns all the bytes that remain.  Such a block
    always fails, and so does [parse_car]: with the prefix assertion, the
    digest assertion, an exception of the value decoder on the payload, the
    trailing-bytes assertion or the block-length assertion.  There is no
    minimum-length check of its own. *)
Theorem C9_short_block_length_not_checked
  (s : stream) (length : Z) (root : pyval) (s0 : stream)
  (fuel : nat) (sk : stream) (nodes : pydict)
  (block_len : Z) (s1 : stream) (cid_raw : bytes) (s2 : stream) :
  parse_car_header s = Ok (root, s0) ->
  blocks_reach length (S (List.length (rest s0))) s0 [] fuel sk nodes ->
  tell sk <> length ->
  parse_varint sk = Ok (block_len, s1) ->
  block_len < 36 ->
  read 36 s1 = (cid_raw, s2) ->
  read (block_len - 36) s2 = (rest s2, mkStream (pos s2 + len (rest s2)) [])
  /\ exists e,
       parse_car_block sk nodes = Err e
       /\ parse_car s length = Err e
       /\ (e = AssertionError AssertBlockPrefix
           \/ e = AssertionError AssertDigest
           \/ parse_dag_cbor_object (BytesIO (rest s2)) = Err e
           \/ e = AssertionError AssertTrailing
           \/ e = AssertionError AssertBlockLen).
Proof.
  intros Hh Hreach Hne Hv Hlt Hc.
  assert (Hd : read (block_len - 36) s2
               = (rest s2, mkStream (pos s2 + len (rest s2)) [])).
  { unfold read. replace (block_len - 36 <? 0) with true; [reflexivity|].
    symmetry. apply Z.ltb_lt. lia. }
  split; [exact Hd|].
  assert (Hblock : exists e,
             parse_car_block sk nodes = Err e
             /\ (e = AssertionError AssertBlockPrefix
                 \/ e = AssertionError AssertDigest
                 \/ parse_dag_cbor_object (BytesIO (rest s2)) = Err e
                 \/ e = AssertionError AssertTrailing
                 \/ e = AssertionError AssertBlockLen)).
  { rewrite (parse_car_block_reads _ _ _ _ nodes _ _ _ Hv Hc Hd).
    destruct (startswith cid_raw block_prefix_dag_cbor);
      [|eexists; split; [reflexivity | tauto]].
    destruct (endswith cid_raw (sha256 (rest s2)));
      [|eexists; split; [reflexivity | tauto]].
    cbn [py_assert bind].
    destruct (parse_dag_cbor_object (BytesIO (rest s2)))
      as [[block bs]|e|] eqn:Ep.
    - cbn [bind].
      destruct (is_empty (fst (read_all bs)));
        [|eexists; split; [reflexivity | tauto]].
      cbn [py_assert bind].
      assert (Hlen : (tell (mkStream (pos s2 + len (rest s2)) []) - tell s1
                      =? block_len) = false).
      { apply Z.eqb_neq. unfold tell. cbn [pos]. intros Heq.
        pose proof (read_spec _ _ _ _ Hc) as [Hrest Hpos].
        pose proof (read_length _ _ _ _ Hc) as Hl.
        change (36 <? 0) with false in Hl. cbv iota in Hl.
        assert (Hall : len (rest s1) = len cid_raw + len (rest s2)).
        { rewrite Hrest. unfold len. rewrite length_app. lia. }
        assert (Hempty : rest s2 = []).
        { destruct (rest s2) as [|x t] eqn:E; [reflexivity|].
          unfold len in *. simpl List.length in *. lia. }
        rewrite Hempty in Ep. discriminate. }
      rewrite Hlen. eexists; split; [reflexivity | tauto].
    - eexists; split; [reflexivity | tauto].
    - exfalso. revert Ep. apply parse_obj_total. }
  destruct Hblock as [e [Hb He]]. exists e. split; [exact Hb|]. split.
  - exact (parse_car_block_error _ _ _ _ _ _ _ _ Hh Hreach Hne Hb).
  - exact He.
Qed.

Lemma C9_short_block_length_not_checked_witness :
  exists e,
    Fixtures.parse Fixtures.car_short_block = Err e
    /\ (e = AssertionError AssertBlockPrefix
        \/ e = AssertionError AssertDigest
        \/ parse_dag_cbor_object (BytesIO []) = Err e
        \/ e = AssertionError AssertTrailing
        \/ e = AssertionError AssertBlockLen).
Proof.
  edestruct (C9_short_block_length_not_checked
               (BytesIO Fixtures.car_short_block)
               (len Fixtures.car_short_block))
    as [_ [e [_ [H2 H3]]]].
  - vm_compute. reflexivity.
  - vm_compute. eapply reach_next.
    + vm_compute. discriminate.
    + vm_compute. reflexivity.
    + apply reach_here.
  - vm_compute. discriminate.
  - vm_compute. reflexivity.
  - vm_compute. reflexivity.
  - vm_compute. reflexivity.
  - exists e. split; [exact H2 | exact H3].
Defined.

(** C9 as stated fails on a container whose second block declares the
    length 0 and carries the CID of the empty payload: its failure is the
    [IndexError] of the value decoder on the empty payload, which is none
    of the assertions. *)
Lemma C9_short_block_decode_error :
  parse_varint (BytesIO ([x00] ++ Fixtures.cid_of x71 []))
  = Ok (0, mkStream 1 (Fixtures.cid_of x71 []))
  /\ Fixtures.car_short_block
     = Fixtures.framed (Fixtures.header Fixtures.root)
       ++ Fixtures.block x71 Fixtures.empty_node
       ++ [x00] ++ Fixtures.cid_of x71 []
  /\ Fixtures.parse Fixtures.car_short_block = Err IndexError
  /\ (forall site, IndexError <> AssertionError site).
Proof.
  split; [vm_compute; reflexivity|].
  split; [vm_compute; reflexivity|].
  split; [vm_compute; reflexivity|].
  intros site. discriminate.
Qed.

(** ** Map keys *)

Lemma gt_not_leb (n : Z) : 0 < n -> (n <=? 0) = false.
Proof. intros H. apply Z.leb_gt. assumption. Qed.

(** An exception of an inner call or of the rest of a loop is the
    exception of the call or loop around it. *)
Lemma invokes_raises (a b : frame) (e : exn) :
  invokes a b -> frame_raises b e -> frame_raises a e.
Proof.
  intros Hinv. destruct Hinv; cbn [frame_raises]; intros Hb.
  - rewrite parse_obj_step, H. cbn [bind as_int]. rewrite Hb. reflexivity.
  - rewrite parse_obj_step, H. cbn [bind as_int]. rewrite Hb. reflexivity.
  - rewrite parse_obj_step, H. cbn [bind as_int]. simpl (negb (42 =? 42)).
    cbv iota. rewrite Hb. reflexivity.
  - rewrite parse_array_items_step, gt_not_leb, Hb by assumption. reflexivity.
  - rewrite parse_array_items_step, gt_not_leb, H0 by assumption. exact Hb.
  - rewrite parse_map_items_step, gt_not_leb, Hb by assumption. reflexivity.
  - rewrite parse_map_items_step, gt_not_leb, H0 by assumption.
    cbn [bind]. rewrite Hb. reflexivity.
  - rewrite parse_map_items_step, gt_not_leb, H0 by assumption.
    cbn [bind]. rewrite H1. exact Hb.
Qed.

Lemma within_raises (a b : frame) (e : exn) :
  within a b -> frame_raises b e -> frame_raises a e.
Proof.
  induction 1 as [|a b c Hab _ IH]; intros Hc; [assumption|].
  eapply invokes_raises; eauto.
Qed.

Lemma parse_cbor_head_scalar (s s' : stream) (m : MajorType) (info : pyval) :
  parse_cbor_head s = Ok (m, info, s') -> str_keyed info = true.
Proof.
  unfold parse_cbor_head. intros H.
  apply bind_ok in H. destruct H as [[first s1] [_ H]].
  apply bind_ok in H. destruct H as [mt [_ H]].
  destruct (Z.land first 31 <? 24).
  - destruct mt; try (inv H; reflexivity).
    apply bind_ok in H. destruct H as [v [Hv H]]. inv H.
    unfold simple_value in Hv.
    destruct (Z.land first 31) as [|q|q]; try discriminate.
    repeat (destruct q as [q|q|]; try discriminate); inv Hv; reflexivity.
  - destruct (BYTE_LENGTHS (Z.land first 31)) as [k|].
    + destruct (read k s1) as [bv s2].
      destruct mt; try (inv H; reflexivity).
      apply bind_ok in H. destruct H as [v [Hv H]]. inv H.
      unfold unpack_float in Hv.
      destruct (List.length bv) as [|[|[|[|[|[|[|[|[|n]]]]]]]]];
        try discriminate; inv Hv; reflexivity.
    + destruct (Z.land first 31 =? 31); discriminate.
Qed.

Lemma pd_set_str_keyed (d : pydict) (k : string) (v : pyval) :
  entries_str_keyed d = true -> str_keyed v = true ->
  entries_str_keyed (pd_set d (KStr k) v) = true.
Proof.
  intros Hd Hv. unfold pd_set. induction d as [|[k' v'] d IH]; simpl.
  - now rewrite Hv.
  - simpl in Hd. apply andb_true_iff in Hd. destruct Hd as [Hk Hd].
    destruct (pykey_eqb k' (KStr k)) eqn:E; simpl.
    + destruct k'; [|discriminate]. now rewrite Hv, Hd.
    + rewrite Hk. now apply IH.
Qed.

(** Every dict that the decoder returns, at any depth of the value, has
    only [str] keys. *)
Lemma parse_obj_str_keyed (fuel : nat) :
  (forall s v s', parse_obj fuel s = Ok (v, s') -> str_keyed v = true)
  /\ (forall n vs s vs' s',
        forallb str_keyed vs = true ->
        parse_array_items fuel n vs s = Ok (vs', s') ->
        forallb str_keyed vs' = true)
  /\ (forall n d s d' s',
        entries_str_keyed d = true ->
        parse_map_items fuel n d s = Ok (d', s') ->
        entries_str_keyed d' = true).
Proof.
  induction fuel as [|f [IHo [IHa IHm]]].
  - repeat split; intros; discriminate.
  - split; [|split].
    + intros s v s' H. rewrite parse_obj_step in H.
      apply bind_ok in H. destruct H as [[[mt info] s1] [Hh H]].
      apply parse_cbor_head_scalar in Hh.
      destruct mt.
      * inv H. assumption.
      * inv H. assumption.
      * apply bind_ok in H. destruct H as [n [_ H]].
        destruct (read n s1) as [value s2].
        destruct (negb (len value =? n)); [discriminate|]. inv H. reflexivity.
      * apply bind_ok in H. destruct H as [n [_ H]].
        destruct (read n s1) as [value s2].
        destruct (negb (len value =? n)); [discriminate|].
        apply bind_ok in H. destruct H as [str [_ H]]. inv H. reflexivity.
      * apply bind_ok in H. destruct H as [n [_ H]].
        apply bind_ok in H. destruct H as [[values s2] [Ha H]].
        apply IHa in Ha; [|reflexivity]. inv H. exact Ha.
      * apply bind_ok in H. destruct H as [n [_ H]].
        apply bind_ok in H. destruct H as [[values s2] [Ha H]].
        apply IHm in Ha; [|reflexivity]. inv H. exact Ha.
      * apply bind_ok in H. destruct H as [n [_ H]].
        destruct (negb (n =? 42)); [discriminate|].
        apply bind_ok in H. destruct H as [[cid_bytes s2] [_ H]].
        apply bind_ok in H. destruct H as [link [Hl H]]. inv H.
        destruct cid_bytes; try discriminate. unfold decode_link in Hl.
        apply bind_ok in Hl. destruct Hl as [_ [_ Hl]].
        apply bind_ok in Hl. destruct Hl as [_ [_ Hl]]. inv Hl. reflexivity.
      * inv H. assumption.
    + intros n vs s vs' s' Hvs H. rewrite parse_array_items_step in H.
      destruct (n <=? 0); [inv H; assumption|].
      apply bind_ok in H. destruct H as [[v s1] [Ho H]].
      apply IHo in Ho. apply IHa in H; [assumption|].
      rewrite forallb_app, Hvs. simpl. now rewrite Ho.
    + intros n d s d' s' Hd H. rewrite parse_map_items_step in H.
      destruct (n <=? 0); [inv H; assumption|].
      apply bind_ok in H. destruct H as [[key s1] [Ho H]].
      destruct key; try discriminate.
      apply bind_ok in H. destruct H as [[v s2] [Ho2 H]].
      apply IHo in Ho2. apply IHm in H; [assumption|].
      now apply pd_set_str_keyed.
Qed.

(** The frames inside a call that has fuel enough have fuel enough; in
    particular none is out of fuel. *)
Lemma invokes_fueled (a b : frame) :
  invokes a b -> frame_fueled a -> frame_fueled b.
Proof.
  destruct (parse_obj_shrinks (match a with
                               | FObj f _ | FArr f _ _ _ | FMap f _ _ _ => pred f
                               end)) as [Sho _].
  intros Hinv. destruct Hinv; cbn [frame_fueled pred] in *; intros Ha;
    repeat match goal with
           | H : parse_cbor_head _ = Ok _ |- _ =>
               apply parse_cbor_head_shrinks in H
           | H : parse_obj _ _ = Ok _ |- _ => apply Sho in H
           end; lia.
Qed.

Lemma within_fueled (a b : frame) :
  within a b -> frame_fueled a -> frame_fueled b.
Proof.
  induction 1 as [|a b c Hab _ IH]; intros Ha; [assumption|].
  apply IH. eapply invokes_fueled; eauto.
Qed.

Lemma within_top_fueled (s0 : stream) (fr : frame) :
  within (FObj (2 * List.length (rest s0) + 2) s0) fr -> frame_fueled fr.
Proof.
  intros H. apply (within_fueled _ _ H). simpl. lia.
Qed.

(** C6. When the decoding of a value is, at any depth, in the loop of a map
    with entries left, and the next key decodes to a value that is not a
    text string, that loop raises the map-key [ValueError] and the whole
    decoding raises it: the key is neither converted nor skipped.  Every
    map in a value that the decoder returns has only text-string keys. *)
Theorem C6_map_keys_must_be_strings :
  (forall (s0 : stream) (f : nat) (n : Z) (values : pydict) (s : stream)
          (key : pyval) (s1 : stream),
      within (FObj (2 * List.length (rest s0) + 2) s0) (FMap (S f) n values s) ->
      0 < n ->
      parse_obj f s = Ok (key, s1) ->
      (forall k, key <> PyStr k) ->
      parse_map_items (S f) n values s = Err MapKeyNotStr
      /\ parse_dag_cbor_object s0 = Err MapKeyNotStr)
  /\ (forall (s : stream) (v : pyval) (s' : stream),
        parse_dag_cbor_object s = Ok (v, s') -> str_keyed v = true).
Proof.
  split.
  - intros s0 f n values s key s1 Hwithin Hn Hkey Hnot.
    assert (Hloop : parse_map_items (S f) n values s = Err MapKeyNotStr).
    { rewrite parse_map_items_step, gt_not_leb, Hkey by assumption.
      cbn [bind]. destruct key; try reflexivity.
      exfalso. eapply Hnot. reflexivity. }
    split; [exact Hloop|].
    exact (within_raises _ _ _ Hwithin Hloop).
  - intros s v s'. apply (proj1 (parse_obj_str_keyed _)).
Qed.

Lemma C6_map_keys_must_be_strings_witness :
  parse_obj 6 (mkStream 2 [x01; x02]) = Ok (PyInt 1, mkStream 3 [x02])
  /\ parse_dag_cbor_object (BytesIO [x81; xa1; x01; x02]) = Err MapKeyNotStr.
Proof.
  split; [reflexivity|].
  destruct C6_map_keys_must_be_strings as [Hkeys _].
  edestruct (Hkeys (BytesIO [x81; xa1; x01; x02]) 6%nat 1 []
                   (mkStream 2 [x01; x02])) as [_ Hwhole].
  - eapply within_deeper; [apply invokes_array; reflexivity|].
    eapply within_deeper; [apply invokes_item; reflexivity|].
    eapply within_deeper; [apply invokes_map; reflexivity|].
    apply within_here.
  - lia.
  - reflexivity.
  - intros k. discriminate.
  - exact Hwhole.
Defined.

Example map_with_bytes_key_rejected :
  parse_dag_cbor_object (BytesIO [xa1; x41; x61; x02]) = Err MapKeyNotStr.
Proof. reflexivity. Qed.

(** ** Indefinite lengths *)

(** C8. A head byte whose additional-info value is 31 makes the head decoder
    raise the indefinite-length exception, whatever the major type in its
    top three bits and whatever follows it.  The call of the value decoder
    that decodes this head raises it, and so does the whole decoding, at
    whatever depth of arrays, maps and tags that call is: no value is
    returned. *)
Theorem C8_indefinite_length_rejected
  (s0 : stream) (f : nat) (s : stream) (b : byte) (t : bytes) :
  within (FObj (2 * List.length (rest s0) + 2) s0) (FObj (S f) s) ->
  rest s = b :: t ->
  Z.land (byte_val b) 0x1F = 31 ->
  parse_cbor_head s = Err ExcIndefinite
  /\ parse_obj (S f) s = Err ExcIndefinite
  /\ parse_dag_cbor_object s0 = Err ExcIndefinite.
Proof.
  intros Hwithin Hrest Hinfo.
  pose proof (parse_cbor_head_indefinite s b t Hrest Hinfo) as Hhead.
  assert (Hcall : parse_obj (S f) s = Err ExcIndefinite).
  { rewrite parse_obj_step, Hhead. reflexivity. }
  repeat split; try assumption.
  exact (within_raises _ _ _ Hwithin Hcall).
Qed.

Lemma C8_indefinite_length_rejected_witness :
  Z.land (byte_val x9f) 0x1F = 31
  /\ parse_cbor_head (mkStream 1 [x9f; x01; xff]) = Err ExcIndefinite
  /\ parse_dag_cbor_object (BytesIO [x81; x9f; x01; xff]) = Err ExcIndefinite.
Proof.
  split; [reflexivity|].
  destruct (C8_indefinite_length_rejected
              (BytesIO [x81; x9f; x01; xff]) 7%nat
              (mkStream 1 [x9f; x01; xff]) x9f [x01; xff]) as [H1 [_ H3]].
  - eapply within_deeper; [apply invokes_array; reflexivity|].
    eapply within_deeper; [apply invokes_item; reflexivity|].
    apply within_here.
  - reflexivity.
  - reflexivity.
  - exact (conj H1 H3).
Defined.

(** At the top of a value. *)
Lemma indefinite_head_first (s : stream) (b : byte) (t : bytes) :
  rest s = b :: t ->
  Z.land (byte_val b) 0x1F = 31 ->
  parse_dag_cbor_object s = Err ExcIndefinite.
Proof.
  intros Hrest Hinfo. unfold parse_dag_cbor_object.
  replace (2 * List.length (rest s) + 2)%nat
    with (S (2 * List.length (rest s) + 1)) by lia.
  rewrite parse_obj_step, (parse_cbor_head_indefinite s b t Hrest Hinfo).
  reflexivity.
Qed.

(** ** More on the varint decoder *)

Lemma byte_continues (b : byte) :
  (Z.land (byte_val b) 0x80 =? 0) = negb (continues b).
Proof. destruct b; reflexivity. Qed.

Lemma groups_value_range (b : bytes) :
  0 <= groups_value b < 128 ^ len b.
Proof.
  unfold len. induction b as [|x b IH].
  - simpl. lia.
  - cbn [groups_value List.length]. rewrite Nat2Z.inj_succ, Z.pow_succ_r by lia.
    pose proof (Z.mod_pos_bound (byte_val x) 128). lia.
Qed.

Lemma varint_loop_value (cont : bytes) :
  forall (last : byte) (tail : bytes) (p acc shift : Z),
    forallb continues cont = true ->
    continues last = false ->
    0 <= shift -> 0 <= acc < 2 ^ shift ->
    varint_loop (cont ++ last :: tail) p acc shift
    = Ok (acc + groups_value (cont ++ [last]) * 2 ^ shift,
          mkStream (p + len cont + 1) tail).
Proof.
  induction cont as [|c cont IH];
    intros last tail p acc shift Hcont Hlast Hs Hacc.
  - cbn [app varint_loop groups_value]. rewrite byte_continues, Hlast.
    cbn [negb]. rewrite byte_low7.
    pose proof (Z.mod_pos_bound (byte_val last) 128).
    rewrite lor_shiftl_add by lia. unfold len. simpl. do 3 f_equal; lia.
  - cbn [forallb] in Hcont. apply andb_true_iff in Hcont.
    destruct Hcont as [Hc Hcont].
    cbn [app varint_loop]. rewrite byte_continues, Hc. cbn [negb].
    rewrite byte_low7.
    pose proof (Z.mod_pos_bound (byte_val c) 128) as Hm.
    rewrite lor_shiftl_add by lia.
    assert (Hp : 2 ^ (shift + 7) = 128 * 2 ^ shift).
    { rewrite Z.pow_add_r by lia. change (2 ^ 7) with 128. lia. }
    pose proof (Z.pow_pos_nonneg 2 shift) as Hpos.
    rewrite IH; try assumption; try lia; [|rewrite Hp; nia].
    cbn [app groups_value]. rewrite Hp. unfold len. cbn [List.length].
    rewrite Nat2Z.inj_succ. do 2 f_equal; [ring | f_equal; lia].
Qed.

(** The decoder reads bytes up to and including the first one without the
    high bit and returns the integer their low seven bits spell, least
    significant group first; it stops there, whatever follows, and its
    position moves by the number of bytes read.  There is no bound on that
    number and no check that the last group is not zero. *)
Theorem parse_varint_value (cont : bytes) (last : byte) (tail : bytes) (p : Z) :
  forallb continues cont = true ->
  continues last = false ->
  parse_varint (mkStream p (cont ++ last :: tail))
  = Ok (groups_value (cont ++ [last]), mkStream (p + len cont + 1) tail)
  /\ 0 <= groups_value (cont ++ [last]) < 128 ^ (len cont + 1).
Proof.
  intros Hcont Hlast. split.
  - unfold parse_varint. cbn [rest pos].
    rewrite varint_loop_value by (assumption || simpl; lia).
    rewrite Z.mul_1_r. reflexivity.
  - pose proof (groups_value_range (cont ++ [last])) as H.
    unfold len in *. rewrite length_app in H. simpl List.length in H.
    rewrite Nat2Z.inj_add in H. exact H.
Qed.

Lemma parse_varint_value_witness :
  parse_varint (mkStream 0 ([xac] ++ x02 :: [xff]))
  = Ok (groups_value ([xac] ++ [x02]), mkStream (0 + len [xac] + 1) [xff])
  /\ 0 <= groups_value ([xac] ++ [x02]) < 128 ^ (len [xac] + 1).
Proof.
  apply (parse_varint_value [xac] x02 [xff] 0); reflexivity.
Defined.

Lemma varint_loop_raises (unread : bytes) :
  forall p n shift,
    (forallb continues unread = true ->
     varint_loop unread p n shift = Err IndexError)
    /\ (forallb continues unread = false ->
        exists v s', varint_loop unread p n shift = Ok (v, s')).
Proof.
  induction unread as [|b t IH]; intros p n shift; cbn [forallb varint_loop].
  - split; [reflexivity | discriminate].
  - rewrite byte_continues. destruct (continues b); cbn [negb andb].
    + apply IH.
    + split; [discriminate | eauto].
Qed.

(** The decoder raises exactly when every unread byte has its high bit set,
    the empty stream included, and what it raises is the [IndexError] of
    reading past the end; otherwise it returns. *)
Theorem parse_varint_raises_iff (s : stream) :
  (parse_varint s = Err IndexError <-> forallb continues (rest s) = true)
  /\ (forall e, parse_varint s = Err e -> e = IndexError)
  /\ parse_varint s <> OutOfFuel.
Proof.
  unfold parse_varint.
  destruct (varint_loop_raises (rest s) (pos s) 0 0) as [Hall Hsome].
  destruct (forallb continues (rest s)) eqn:E.
  - rewrite (Hall eq_refl). repeat split; congruence.
  - destruct (Hsome eq_refl) as [v [s' Hok]]. rewrite Hok.
    repeat split; congruence.
Qed.

(** An encoding with a zero group added at its end decodes to the same
    integer: the decoder does not ask for the shortest encoding. *)
Theorem parse_varint_not_minimal (cont : bytes) (last : byte) (tail : bytes)
  (p : Z) :
  forallb continues cont = true ->
  continues last = false ->
  parse_varint
    (mkStream p (cont ++ byte_of_Z (byte_val last + 128) :: x00 :: tail))
  = Ok (groups_value (cont ++ [last]), mkStream (p + len cont + 2) tail).
Proof.
  intros Hcont Hlast.
  assert (Hl : 0 <= byte_val last < 128).
  { pose proof (byte_val_range last). unfold continues in Hlast.
    apply Z.leb_gt in Hlast. lia. }
  pose proof (varint_loop_value
                (cont ++ [byte_of_Z (byte_val last + 128)]) x00 tail p 0 0)
    as Hloop.
  unfold parse_varint. cbn [rest pos].
  rewrite <- app_assoc in Hloop.
  cbn [app] in Hloop.
  rewrite Hloop; try (simpl; lia); try reflexivity.
  - f_equal. f_equal.
    + rewrite Z.mul_1_r, Z.add_0_l.
      clear Hloop Hcont.
      induction cont as [|c cont IH]; cbn [app groups_value].
      * rewrite byte_val_of_Z by lia.
        replace (byte_val last + 128) with (byte_val last + 1 * 128) by lia.
        rewrite Z.mod_add by lia.
        change (byte_val x00 mod 128) with 0. lia.
      * rewrite IH. reflexivity.
    + f_equal. unfold len. rewrite length_app. simpl. lia.
  - rewrite forallb_app, Hcont. cbn [forallb]. unfold continues.
    rewrite byte_val_of_Z by lia.
    replace (128 <=? byte_val last + 128) with true; [reflexivity|].
    symmetry. apply Z.leb_le. lia.
Qed.

Lemma parse_varint_not_minimal_witness :
  parse_varint (mkStream 0 ([] ++ byte_of_Z (byte_val x05 + 128) :: x00 :: []))
  = Ok (groups_value ([] ++ [x05]), mkStream (0 + len (@nil byte) + 2) []).
Proof.
  apply (parse_varint_not_minimal [] x05 [] 0); reflexivity.
Defined.

(** ** More on heads and scalars *)

Lemma parse_dag_cbor_object_unfold (s : stream) :
  parse_dag_cbor_object s = parse_obj (S (2 * List.length (rest s) + 1)) s.
Proof. unfold parse_dag_cbor_object. f_equal. lia. Qed.

Lemma read_exact (a t : bytes) (p : Z) :
  read (len a) (mkStream p (a ++ t)) = (a, mkStream (p + len a) t).
Proof.
  unfold read, len. cbn [rest pos].
  replace (Z.of_nat (List.length a) <? 0) with false
    by (symmetry; apply Z.ltb_ge; lia).
  rewrite split_at_firstn by lia. rewrite Nat2Z.id.
  rewrite firstn_app, skipn_app, Nat.sub_diag, firstn_all, skipn_all.
  cbn [firstn skipn]. now rewrite !app_nil_r.
Qed.

Lemma int_from_bytes_big_acc (b : bytes) (acc : Z) :
  fold_left (fun a x => a * 256 + byte_val x) b acc
  = acc * 256 ^ len b + int_from_bytes_big b.
Proof.
  unfold int_from_bytes_big, len. revert acc.
  induction b as [|x b IH]; intros acc.
  - simpl. lia.
  - cbn [fold_left List.length]. rewrite IH, (IH (0 * 256 + byte_val x)).
    rewrite Nat2Z.inj_succ, Z.pow_succ_r by lia. ring.
Qed.

Lemma int_from_bytes_big_cons (x : byte) (b : bytes) :
  int_from_bytes_big (x :: b) = byte_val x * 256 ^ len b + int_from_bytes_big b.
Proof.
  unfold int_from_bytes_big at 1. cbn [fold_left].
  rewrite int_from_bytes_big_acc. ring.
Qed.

Lemma int_from_bytes_big_range (b : bytes) :
  0 <= int_from_bytes_big b < 256 ^ len b.
Proof.
  induction b as [|x b IH].
  - unfold int_from_bytes_big, len. simpl. lia.
  - rewrite int_from_bytes_big_cons. pose proof (byte_val_range x).
    unfold len in *. cbn [List.length].
    rewrite Nat2Z.inj_succ, Z.pow_succ_r by lia.
    pose proof (Z.pow_pos_nonneg 256 (Z.of_nat (List.length b))). nia.
Qed.

Lemma int_to_bytes_big_length (width : nat) (n : Z) :
  len (int_to_bytes_big width n) = Z.of_nat width.
Proof. unfold len, int_to_bytes_big. now rewrite be_bytes_length. Qed.

(** [int.from_bytes(n.to_bytes(width, "big"), "big")] *)
Lemma int_from_to_bytes_big (width : nat) (n : Z) :
  0 <= n ->
  int_from_bytes_big (int_to_bytes_big width n) = n mod 256 ^ Z.of_nat width.
Proof.
  intros Hn. unfold int_to_bytes_big, SHA256.be_bytes.
  induction width as [|w IH].
  - simpl. now rewrite Z.mod_1_r.
  - rewrite seq_S, rev_app_distr. cbn [rev app map Nat.add].
    rewrite int_from_bytes_big_cons, IH.
    unfold len. rewrite length_map, length_rev, length_seq.
    assert (Hb : 0 <= Z.shiftr n (8 * Z.of_nat w) mod 256 < 256)
      by (apply Z.mod_pos_bound; lia).
    rewrite byte_val_of_Z by assumption.
    rewrite Z.shiftr_div_pow2 by lia.
    replace (2 ^ (8 * Z.of_nat w)) with (256 ^ Z.of_nat w)
      by (change 256 with (2 ^ 8); rewrite <- Z.pow_mul_r; lia).
    rewrite Nat2Z.inj_succ, Z.pow_succ_r by lia.
    pose proof (Z.pow_pos_nonneg 256 (Z.of_nat w)) as Hp.
    rewrite (Z.mul_comm 256), Z.rem_mul_r by lia. ring.
Qed.

Lemma BYTE_LENGTHS_cases (info k : Z) :
  BYTE_LENGTHS info = Some k ->
  (info = 24 /\ k = 1) \/ (info = 25 /\ k = 2)
  \/ (info = 26 /\ k = 4) \/ (info = 27 /\ k = 8).
Proof.
  unfold BYTE_LENGTHS. intros H.
  destruct info as [|q|q]; try discriminate.
  repeat (destruct q as [q|q|]; try discriminate); inv H; tauto.
Qed.

(** Unsigned integers.  A head of major type 0 with additional info below 24
    is that integer; with additional info 24 to 27 and the 1, 2, 4 or 8 bytes
    it announces, it is the big-endian value of those bytes, also when a
    shorter form would hold the integer.  One head and its bytes are read,
    nothing more. *)
Theorem unsigned_int_decodes (tail : bytes) (p : Z) :
  (forall v, 0 <= v < 24 ->
     parse_dag_cbor_object (mkStream p (byte_of_Z v :: tail))
     = Ok (PyInt v, mkStream (p + 1) tail))
  /\ (forall info k v,
        BYTE_LENGTHS info = Some k -> 0 <= v < 256 ^ k ->
        parse_dag_cbor_object
          (mkStream p (byte_of_Z info :: int_to_bytes_big (Z.to_nat k) v ++ tail))
        = Ok (PyInt v, mkStream (p + 1 + k) tail)).
Proof.
  split.
  - intros v Hv. rewrite parse_dag_cbor_object_unfold, parse_obj_step.
    assert (Hcases : exists n, (n < 24)%nat /\ v = Z.of_nat n)
      by (exists (Z.to_nat v); lia).
    destruct Hcases as [n [Hn ->]].
    do 24 (destruct n as [|n]; [reflexivity|]). lia.
  - intros info k v Hk Hv. rewrite parse_dag_cbor_object_unfold, parse_obj_step.
    pose proof (int_to_bytes_big_length (Z.to_nat k) v) as Hlen.
    pose proof (int_from_to_bytes_big (Z.to_nat k) v ltac:(lia)) as Hval.
    assert (Hk0 : 0 <= k) by (apply BYTE_LENGTHS_cases in Hk; lia).
    rewrite Z2Nat.id in Hlen, Hval by assumption.
    rewrite Z.mod_small in Hval by assumption.
    apply BYTE_LENGTHS_cases in Hk.
    assert (Hhead : parse_cbor_head
                      (mkStream p (byte_of_Z info
                                   :: int_to_bytes_big (Z.to_nat k) v ++ tail))
                    = Ok (UNSIGNED_INT, PyInt v, mkStream (p + 1 + k) tail)).
    { rewrite <- Hval at 2.
      apply head_multibyte_unchecked
        with (s1 := mkStream (p + 1)
                      (int_to_bytes_big (Z.to_nat k) v ++ tail))
             (first := byte_val (byte_of_Z info)) (k := k).
      - reflexivity.
      - destruct Hk as [[-> _]|[[-> _]|[[-> _]|[-> _]]]]; reflexivity.
      - discriminate.
      - discriminate.
      - destruct Hk as [[-> ->]|[[-> ->]|[[-> ->]|[-> ->]]]]; reflexivity.
      - rewrite <- Hlen at 1. rewrite read_exact. rewrite Hlen.
        reflexivity. }
    rewrite Hhead. reflexivity.
Qed.

Lemma unsigned_int_decodes_witness :
  parse_dag_cbor_object (mkStream 0 (byte_of_Z 23 :: [xff]))
  = Ok (PyInt 23, mkStream (0 + 1) [xff])
  /\ parse_dag_cbor_object
       (mkStream 0 (byte_of_Z 25 :: int_to_bytes_big (Z.to_nat 2) 5 ++ [xff]))
     = Ok (PyInt 5, mkStream (0 + 1 + 2) [xff]).
Proof.
  destruct (unsigned_int_decodes [xff] 0) as [Hshort Hwide]. split.
  - apply Hshort. lia.
  - apply Hwide; [reflexivity | simpl; lia].
Defined.

Lemma head_multibyte_negative (s s1 s2 : stream) (first k : Z)
  (byte_value : bytes) :
  read_byte s = Ok (first, s1) ->
  MajorType_of (Z.shiftr first 5) = Ok NEGATIVE_INT ->
  BYTE_LENGTHS (Z.land first 0x1F) = Some k ->
  read k s1 = (byte_value, s2) ->
  parse_cbor_head s
  = Ok (NEGATIVE_INT, PyInt (-1 - int_from_bytes_big byte_value), s2).
Proof.
  intros Hb Hm Hk Hr. unfold parse_cbor_head.
  rewrite Hb. cbn [bind]. rewrite Hm. cbn [bind].
  assert (Hge : (Z.land first 31 <? 24) = false).
  { apply BYTE_LENGTHS_cases in Hk. apply Z.ltb_ge. lia. }
  rewrite Hge, Hk, Hr. reflexivity.
Qed.

Lemma head_multibyte_float (s s1 s2 : stream) (first k : Z)
  (byte_value : bytes) :
  read_byte s = Ok (first, s1) ->
  MajorType_of (Z.shiftr first 5) = Ok FLOAT ->
  BYTE_LENGTHS (Z.land first 0x1F) = Some k ->
  read k s1 = (byte_value, s2) ->
  parse_cbor_head s = (v <- unpack_float byte_value ;; Ok (FLOAT, v, s2)).
Proof.
  intros Hb Hm Hk Hr. unfold parse_cbor_head.
  rewrite Hb. cbn [bind]. rewrite Hm. cbn [bind].
  assert (Hge : (Z.land first 31 <? 24) = false).
  { apply BYTE_LENGTHS_cases in Hk. apply Z.ltb_ge. lia. }
  rewrite Hge, Hk, Hr. reflexivity.
Qed.

(** Negative integers.  With additional info 24 to 27 and the bytes it
    announces, a head of major type 1 is [-1 - value], as CBOR has it.  With
    additional info below 24 the decoder returns the additional info itself,
    which is not negative: the byte [0x20], which in CBOR is -1, decodes to
    0, while [0x38 0x00], also -1 in CBOR, decodes to -1. *)
Theorem negative_int_decodes (tail : bytes) (p : Z) :
  (forall info k v,
      BYTE_LENGTHS info = Some k -> 0 <= v < 256 ^ k ->
      parse_dag_cbor_object
        (mkStream p (byte_of_Z (0x20 + info)
                     :: int_to_bytes_big (Z.to_nat k) v ++ tail))
      = Ok (PyInt (-1 - v), mkStream (p + 1 + k) tail))
  /\ (forall v, 0 <= v < 24 ->
        parse_dag_cbor_object (mkStream p (byte_of_Z (0x20 + v) :: tail))
        = Ok (PyInt v, mkStream (p + 1) tail)).
Proof.
  split.
  - intros info k v Hk Hv. rewrite parse_dag_cbor_object_unfold, parse_obj_step.
    pose proof (int_to_bytes_big_length (Z.to_nat k) v) as Hlen.
    pose proof (int_from_to_bytes_big (Z.to_nat k) v ltac:(lia)) as Hval.
    assert (Hk0 : 0 <= k) by (apply BYTE_LENGTHS_cases in Hk; lia).
    rewrite Z2Nat.id in Hlen, Hval by assumption.
    rewrite Z.mod_small in Hval by assumption.
    apply BYTE_LENGTHS_cases in Hk.
    assert (Hhead : parse_cbor_head
                      (mkStream p (byte_of_Z (0x20 + info)
                                   :: int_to_bytes_big (Z.to_nat k) v ++ tail))
                    = Ok (NEGATIVE_INT, PyInt (-1 - v),
                          mkStream (p + 1 + k) tail)).
    { rewrite <- Hval at 2.
      apply head_multibyte_negative
        with (s1 := mkStream (p + 1)
                      (int_to_bytes_big (Z.to_nat k) v ++ tail))
             (first := byte_val (byte_of_Z (0x20 + info))) (k := k).
      - reflexivity.
      - destruct Hk as [[-> _]|[[-> _]|[[-> _]|[-> _]]]]; reflexivity.
      - destruct Hk as [[-> ->]|[[-> ->]|[[-> ->]|[-> ->]]]]; reflexivity.
      - rewrite <- Hlen at 1. rewrite read_exact. rewrite Hlen.
        reflexivity. }
    rewrite Hhead. reflexivity.
  - intros v Hv. rewrite parse_dag_cbor_object_unfold, parse_obj_step.
    assert (Hcases : exists n, (n < 24)%nat /\ v = Z.of_nat n)
      by (exists (Z.to_nat v); lia).
    destruct Hcases as [n [Hn ->]].
    do 24 (destruct n as [|n]; [reflexivity|]). lia.
Qed.

Lemma negative_int_decodes_witness :
  parse_dag_cbor_object
    (mkStream 0 (byte_of_Z (0x20 + 24)
                 :: int_to_bytes_big (Z.to_nat 1) 0 ++ []))
  = Ok (PyInt (-1 - 0), mkStream (0 + 1 + 1) [])
  /\ parse_dag_cbor_object (mkStream 0 (byte_of_Z (0x20 + 0) :: []))
     = Ok (PyInt 0, mkStream (0 + 1) []).
Proof.
  destruct (negative_int_decodes [] 0) as [Hwide Hshort]. split.
  - apply Hwide; [reflexivity | simpl; lia].
  - apply Hshort. lia.
Defined.

(** A head with additional info 28, 29 or 30 is not well-formed, for every
    major type, and so is every value that starts with it. *)
Theorem reserved_additional_info_rejected (s : stream) (b : byte) (t : bytes) :
  rest s = b :: t ->
  28 <= Z.land (byte_val b) 0x1F <= 30 ->
  parse_cbor_head s = Err ExcNotWellFormed
  /\ parse_dag_cbor_object s = Err ExcNotWellFormed.
Proof.
  intros Hrest Hinfo.
  assert (Hhead : parse_cbor_head s = Err ExcNotWellFormed).
  { unfold parse_cbor_head, read_byte. rewrite Hrest. cbn [bind].
    destruct Hinfo as [Hlo Hhi]. revert Hlo Hhi.
    destruct b; intros Hlo Hhi;
      try (exfalso; vm_compute in Hlo; now apply Hlo);
      try (exfalso; vm_compute in Hhi; now apply Hhi);
      reflexivity. }
  split; [exact Hhead|].
  rewrite parse_dag_cbor_object_unfold, parse_obj_step, Hhead. reflexivity.
Qed.

Lemma reserved_additional_info_rejected_witness :
  28 <= Z.land (byte_val x5c) 0x1F <= 30
  /\ parse_dag_cbor_object (BytesIO [x5c; x00]) = Err ExcNotWellFormed.
Proof.
  split; [simpl; lia|].
  apply (reserved_additional_info_rejected (BytesIO [x5c; x00]) x5c [x00]);
    [reflexivity | simpl; lia].
Defined.

(** Simple values.  Of the bytes [0xe0] to [0xf7] (major type 7, additional
    info below 24), [0xf4], [0xf5] and [0xf6] decode to [False], [True] and
    [None]; every other one raises the [KeyError] of the lookup table. *)
Theorem simple_values_decode (b : byte) (tail : bytes) (p : Z) :
  0xe0 <= byte_val b <= 0xf7 ->
  parse_dag_cbor_object (mkStream p (b :: tail))
  = if byte_val b =? 0xf4 then Ok (PyBool false, mkStream (p + 1) tail)
    else if byte_val b =? 0xf5 then Ok (PyBool true, mkStream (p + 1) tail)
    else if byte_val b =? 0xf6 then Ok (PyNone, mkStream (p + 1) tail)
    else Err KeyError.
Proof.
  intros [Hlo Hhi]. rewrite parse_dag_cbor_object_unfold, parse_obj_step.
  revert Hlo Hhi.
  destruct b; intros Hlo Hhi;
    try (exfalso; vm_compute in Hlo; now apply Hlo);
    try (exfalso; vm_compute in Hhi; now apply Hhi);
    reflexivity.
Qed.

Lemma simple_values_decode_witness :
  parse_dag_cbor_object (mkStream 0 (xf6 :: [xff]))
  = Ok (PyNone, mkStream (0 + 1) [xff])
  /\ parse_dag_cbor_object (mkStream 0 (xf7 :: [xff])) = Err KeyError.
Proof.
  split.
  - apply (simple_values_decode xf6 [xff] 0). vm_compute. split; discriminate.
  - apply (simple_values_decode xf7 [xff] 0). vm_compute. split; discriminate.
Defined.

(** Floats.  A head of major type 7 with additional info 25, 26 or 27 and
    the 2, 4 or 8 bytes it announces decodes to the float of those bytes.
    When the stream ends before them, what is returned depends on the number
    of bytes that were left: one byte raises "invalid", two or four bytes
    are taken for a shorter float, and any other number, none included,
    raises the exception that the source calls unreachable.  Additional
    info 24 with a byte after it raises "invalid". *)
Theorem float_decodes (info k : Z) (raw : bytes) (p : Z) :
  BYTE_LENGTHS info = Some k ->
  (forall tail,
      len raw = k ->
      parse_dag_cbor_object (mkStream p (byte_of_Z (0xe0 + info) :: raw ++ tail))
      = if k =? 1 then Err ExcInvalid
        else Ok (PyFloat raw, mkStream (p + 1 + k) tail))
  /\ (len raw < k ->
      parse_dag_cbor_object (mkStream p (byte_of_Z (0xe0 + info) :: raw))
      = if len raw =? 1 then Err ExcInvalid
        else if (len raw =? 2) || (len raw =? 4)
             then Ok (PyFloat raw, mkStream (p + 1 + len raw) [])
             else Err ExcUnreachable).
Proof.
  intros Hk. pose proof (BYTE_LENGTHS_cases _ _ Hk) as Hcases.
  assert (Hfirst : MajorType_of (Z.shiftr (byte_val (byte_of_Z (0xe0 + info))) 5)
                   = Ok FLOAT
                   /\ BYTE_LENGTHS (Z.land (byte_val (byte_of_Z (0xe0 + info))) 31)
                      = Some k).
  { destruct Hcases as [[-> ->]|[[-> ->]|[[-> ->]|[-> ->]]]];
      split; reflexivity. }
  destruct Hfirst as [Hm Hb]. split.
  - intros tail Hlen. rewrite parse_dag_cbor_object_unfold, parse_obj_step.
    rewrite (head_multibyte_float
               (mkStream p (byte_of_Z (0xe0 + info) :: raw ++ tail))
               (mkStream (p + 1) (raw ++ tail))
               (mkStream (p + 1 + k) tail)
               (byte_val (byte_of_Z (0xe0 + info))) k raw eq_refl Hm Hb)
      by (rewrite <- Hlen; apply read_exact).
    unfold unpack_float. unfold len in Hlen.
    destruct Hcases as [[_ ->]|[[_ ->]|[[_ ->]|[_ ->]]]];
      replace (List.length raw) with (Z.to_nat (Z.of_nat (List.length raw)))
        by apply Nat2Z.id; rewrite Hlen; reflexivity.
  - intros Hlt. rewrite parse_dag_cbor_object_unfold, parse_obj_step.
    assert (Hread : read k (mkStream (p + 1) raw)
                    = (raw, mkStream (p + 1 + len raw) [])).
    { pose proof (read_exact raw [] (p + 1)) as Hr. rewrite app_nil_r in Hr.
      unfold read in *. cbn [rest pos] in *.
      replace (k <? 0) with false by (symmetry; apply Z.ltb_ge; lia).
      replace (len raw <? 0) with false in Hr
        by (symmetry; apply Z.ltb_ge; unfold len; lia).
      rewrite split_at_firstn in * by (unfold len; lia).
      rewrite firstn_all2, skipn_all2 by (unfold len in *; lia).
      reflexivity. }
    rewrite (head_multibyte_float
               (mkStream p (byte_of_Z (0xe0 + info) :: raw))
               (mkStream (p + 1) raw)
               (mkStream (p + 1 + len raw) [])
               (byte_val (byte_of_Z (0xe0 + info))) k raw eq_refl Hm Hb Hread).
    unfold unpack_float, len in *.
    destruct raw as [|? [|? [|? [|? [|? [|? [|? [|? ?]]]]]]]];
      try reflexivity.
    simpl List.length in Hlt. lia.
Qed.

Lemma float_decodes_witness :
  parse_dag_cbor_object (mkStream 0 (byte_of_Z (0xe0 + 25) :: [x3c; x00] ++ [xff]))
  = Ok (PyFloat [x3c; x00], mkStream (0 + 1 + 2) [xff])
  /\ parse_dag_cbor_object (mkStream 0 (byte_of_Z (0xe0 + 25) :: []))
     = Err ExcUnreachable.
Proof.
  destruct (float_decodes 25 2 [x3c; x00] 0 eq_refl) as [Hfull _].
  destruct (float_decodes 25 2 [] 0 eq_refl) as [_ Hshort].
  split.
  - apply (Hfull [xff]). reflexivity.
  - apply Hshort. reflexivity.
Defined.

(** ** More on the value decoder *)

Lemma parse_obj_fuel_add (s : stream) (fuel extra : nat) :
  (2 * List.length (rest s) + 1 <= fuel)%nat ->
  parse_obj (fuel + extra) s = parse_obj fuel s.
Proof.
  intros Hf. induction extra as [|k IH]; [now rewrite Nat.add_0_r|].
  rewrite Nat.add_succ_r, <- IH.
  apply (proj1 (parse_obj_more_fuel _)).
  apply (proj1 (parse_obj_fuel _)). lia.
Qed.

(** A call with fuel enough is the decoder. *)
Lemma parse_obj_any_fuel (s : stream) (fuel : nat) :
  (2 * List.length (rest s) + 1 <= fuel)%nat ->
  parse_obj fuel s = parse_dag_cbor_object s.
Proof.
  intros Hf. unfold parse_dag_cbor_object.
  replace fuel with ((2 * List.length (rest s) + 1)
                     + (fuel - (2 * List.length (rest s) + 1)))%nat by lia.
  rewrite (parse_obj_fuel_add s (2 * List.length (rest s) + 1)) by lia.
  replace (2 * List.length (rest s) + 2)%nat
    with ((2 * List.length (rest s) + 1) + 1)%nat by lia.
  rewrite (parse_obj_fuel_add s (2 * List.length (rest s) + 1) 1) by lia.
  reflexivity.
Qed.

Lemma read_byte_cons (p : Z) (b : byte) (t : bytes) :
  read_byte (mkStream p (b :: t)) = Ok (byte_val b, mkStream (p + 1) t).
Proof. reflexivity. Qed.

(** The head announces a byte string or a text string of [n] bytes: what the
    decoder does with the bytes after the head. *)
Lemma parse_obj_string_body (f : nat) (s s1 : stream) (m : MajorType) (n : Z) :
  parse_cbor_head s = Ok (m, PyInt n, s1) ->
  m = BYTE_STRING \/ m = TEXT_STRING ->
  parse_obj (S f) s
  = (let (value, s2) := read n s1 in
     if negb (len value =? n) then Err EOFError
     else match m with
          | TEXT_STRING => str <- decode_utf8 value ;; Ok (PyStr str, s2)
          | _ => Ok (PyBytes value, s2)
          end).
Proof.
  intros Hh [-> | ->]; rewrite parse_obj_step, Hh; reflexivity.
Qed.

Lemma short_head (m : MajorType) (n : Z) (p : Z) (t : bytes) :
  0 <= n < 24 -> m <> FLOAT ->
  parse_cbor_head (mkStream p (byte_of_Z (32 * MajorType_value m + n) :: t))
  = Ok (m, PyInt n, mkStream (p + 1) t).
Proof.
  intros Hn Hm.
  assert (Hcases : exists k, (k < 24)%nat /\ n = Z.of_nat k)
    by (exists (Z.to_nat n); lia).
  destruct Hcases as [k [Hk ->]].
  destruct m; try congruence;
    do 24 (destruct k as [|k]; [reflexivity|]); lia.
Qed.

Lemma one_byte_head (m : MajorType) (n : Z) (p : Z) (t : bytes) :
  0 <= n < 256 -> m <> FLOAT -> m <> NEGATIVE_INT ->
  parse_cbor_head
    (mkStream p (byte_of_Z (32 * MajorType_value m + 24) :: byte_of_Z n :: t))
  = Ok (m, PyInt n, mkStream (p + 2) t).
Proof.
  intros Hn Hf Hneg.
  rewrite (head_multibyte_unchecked _ (mkStream (p + 1) (byte_of_Z n :: t))
             (mkStream (p + 2) t)
             (byte_val (byte_of_Z (32 * MajorType_value m + 24))) 1 m
             [byte_of_Z n]).
  - unfold int_from_bytes_big. cbn [fold_left].
    rewrite byte_val_of_Z by assumption. reflexivity.
  - reflexivity.
  - destruct m; reflexivity.
  - assumption.
  - assumption.
  - destruct m; reflexivity.
  - replace (p + 2) with (p + 1 + len [byte_of_Z n]) by (unfold len; simpl; lia).
    exact (read_exact [byte_of_Z n] t (p + 1)).
Qed.

Lemma advances_refl (s : stream) : advances s s.
Proof. exists []. split; [reflexivity | unfold len; simpl; lia]. Qed.

Lemma advances_trans (s1 s2 s3 : stream) :
  advances s1 s2 -> advances s2 s3 -> advances s1 s3.
Proof.
  intros [c1 [H1 P1]] [c2 [H2 P2]]. exists (c1 ++ c2). split.
  - rewrite H1, H2. now rewrite app_assoc.
  - unfold len in *. rewrite length_app. lia.
Qed.

Lemma read_advances (n : Z) (s s' : stream) (a : bytes) :
  read n s = (a, s') -> advances s s'.
Proof. intros H. apply read_spec in H. exists a. exact H. Qed.

Lemma read_byte_advances (s s' : stream) (v : Z) :
  read_byte s = Ok (v, s') -> advances s s'.
Proof.
  intros H. apply read_byte_spec in H. destruct H as [b [Hr [_ Hp]]].
  exists [b]. split; [exact Hr | unfold len; simpl; lia].
Qed.

Lemma parse_cbor_head_advances (s s' : stream) (m : MajorType) (info : pyval) :
  parse_cbor_head s = Ok (m, info, s') -> advances s s'.
Proof.
  unfold parse_cbor_head. intros H.
  apply bind_ok in H. destruct H as [[first s1] [Hb H]].
  apply read_byte_advances in Hb.
  apply bind_ok in H. destruct H as [mt [_ H]].
  destruct (Z.land first 31 <? 24).
  - destruct mt; try (inv H; assumption).
    apply bind_ok in H. destruct H as [v [_ H]]. inv H. assumption.
  - destruct (BYTE_LENGTHS (Z.land first 31)) as [k|].
    + destruct (read k s1) as [bv s2] eqn:Hr. apply read_advances in Hr.
      assert (Ha : advances s s2) by (eapply advances_trans; eauto).
      destruct mt; try (inv H; assumption).
      apply bind_ok in H. destruct H as [v [_ H]]. inv H. assumption.
    + destruct (Z.land first 31 =? 31); discriminate.
Qed.

Lemma parse_obj_advances (fuel : nat) :
  (forall s v s', parse_obj fuel s = Ok (v, s') -> advances s s')
  /\ (forall n vs s vs' s',
        parse_array_items fuel n vs s = Ok (vs', s') -> advances s s')
  /\ (forall n d s d' s',
        parse_map_items fuel n d s = Ok (d', s') -> advances s s').
Proof.
  induction fuel as [|f [IHo [IHa IHm]]].
  - repeat split; intros; discriminate.
  - split; [|split].
    + intros s v s' H. rewrite parse_obj_step in H.
      apply bind_ok in H. destruct H as [[[mt info] s1] [Hh H]].
      apply parse_cbor_head_advances in Hh.
      apply (advances_trans _ _ _ Hh). clear Hh.
      destruct mt.
      * inv H. apply advances_refl.
      * inv H. apply advances_refl.
      * apply bind_ok in H. destruct H as [n [_ H]].
        destruct (read n s1) as [value s2] eqn:Hr. apply read_advances in Hr.
        destruct (negb (len value =? n)); [discriminate|]. inv H. assumption.
      * apply bind_ok in H. destruct H as [n [_ H]].
        destruct (read n s1) as [value s2] eqn:Hr. apply read_advances in Hr.
        destruct (negb (len value =? n)); [discriminate|].
        apply bind_ok in H. destruct H as [str [_ H]]. inv H. assumption.
      * apply bind_ok in H. destruct H as [n [_ H]].
        apply bind_ok in H. destruct H as [[values s2] [Ha H]].
        apply IHa in Ha. inv H. assumption.
      * apply bind_ok in H. destruct H as [n [_ H]].
        apply bind_ok in H. destruct H as [[values s2] [Ha H]].
        apply IHm in Ha. inv H. assumption.
      * apply bind_ok in H. destruct H as [n [_ H]].
        destruct (negb (n =? 42)); [discriminate|].
        apply bind_ok in H. destruct H as [[cid_bytes s2] [Ha H]].
        apply IHo in Ha.
        apply bind_ok in H. destruct H as [link [_ H]]. inv H. assumption.
      * inv H. apply advances_refl.
    + intros n vs s vs' s' H. rewrite parse_array_items_step in H.
      destruct (n <=? 0); [inv H; apply advances_refl|].
      apply bind_ok in H. destruct H as [[v s1] [Ho H]].
      apply IHo in Ho. apply IHa in H. eapply advances_trans; eauto.
    + intros n d s d' s' H. rewrite parse_map_items_step in H.
      destruct (n <=? 0); [inv H; apply advances_refl|].
      apply bind_ok in H. destruct H as [[key s1] [Ho H]].
      apply IHo in Ho. destruct key; try discriminate.
      apply bind_ok in H. destruct H as [[v s2] [Ho2 H]].
      apply IHo in Ho2. apply IHm in H.
      eapply advances_trans; [eassumption|].
      eapply advances_trans; eauto.
Qed.

(** A decoded value accounts for the bytes it read: they are a non-empty
    prefix of the unread bytes, the rest is left unread and the position
    has moved by their number. *)
Theorem parse_dag_cbor_object_consumes (s s' : stream) (v : pyval) :
  parse_dag_cbor_object s = Ok (v, s') ->
  exists consumed : bytes,
    consumed <> []
    /\ rest s = consumed ++ rest s'
    /\ pos s' = pos s + len consumed.
Proof.
  intros H. pose proof (parse_dag_cbor_object_shrinks _ _ _ H) as Hlt.
  apply (proj1 (parse_obj_advances _)) in H. destruct H as [c [Hr Hp]].
  exists c. repeat split; try assumption.
  intros ->. rewrite Hr in Hlt. simpl in Hlt. lia.
Qed.

Lemma parse_dag_cbor_object_consumes_witness :
  exists consumed : bytes,
    consumed <> []
    /\ rest (BytesIO [x82; x01; x61; x61; xff])
       = consumed ++ rest (mkStream 4 [xff])
    /\ pos (mkStream 4 [xff])
       = pos (BytesIO [x82; x01; x61; x61; xff]) + len consumed.
Proof.
  apply (parse_dag_cbor_object_consumes
           (BytesIO [x82; x01; x61; x61; xff]) (mkStream 4 [xff])
           (PyList [PyInt 1; PyStr "a"])).
  reflexivity.
Defined.

(** Byte strings.  A head that announces [len b] bytes, in its short form or
    in its one-byte form, followed by the bytes [b], decodes to [b] and
    leaves what follows unread. *)
Theorem byte_string_decodes (b tail : bytes) (p : Z) :
  (len b < 24 ->
   parse_dag_cbor_object (mkStream p (byte_of_Z (0x40 + len b) :: b ++ tail))
   = Ok (PyBytes b, mkStream (p + 1 + len b) tail))
  /\ (len b < 256 ->
      parse_dag_cbor_object
        (mkStream p (x58 :: byte_of_Z (len b) :: b ++ tail))
      = Ok (PyBytes b, mkStream (p + 2 + len b) tail)).
Proof.
  assert (H0 : 0 <= len b) by (unfold len; lia). split; intros Hlen.
  - rewrite parse_dag_cbor_object_unfold.
    rewrite (parse_obj_string_body _ _ (mkStream (p + 1) (b ++ tail))
               BYTE_STRING (len b)).
    + rewrite read_exact, Z.eqb_refl. reflexivity.
    + apply (short_head BYTE_STRING (len b) p (b ++ tail)); [lia | discriminate].
    + now left.
  - rewrite parse_dag_cbor_object_unfold.
    rewrite (parse_obj_string_body _ _ (mkStream (p + 2) (b ++ tail))
               BYTE_STRING (len b)).
    + rewrite read_exact, Z.eqb_refl. reflexivity.
    + apply (one_byte_head BYTE_STRING (len b) p (b ++ tail));
        [lia | discriminate | discriminate].
    + now left.
Qed.

Lemma byte_string_decodes_witness :
  parse_dag_cbor_object
    (mkStream 0 (byte_of_Z (0x40 + len [x01; x02]) :: [x01; x02] ++ [xff]))
  = Ok (PyBytes [x01; x02], mkStream (0 + 1 + len [x01; x02]) [xff]).
Proof.
  apply (byte_string_decodes [x01; x02] [xff] 0). reflexivity.
Defined.

(** Text strings.  A head that announces [len b] bytes followed by the bytes
    [b] decodes to the text of [b] when [b] is well-formed UTF-8 and raises
    [UnicodeDecodeError] when it is not. *)
Theorem text_string_decodes (b tail : bytes) (p : Z) :
  len b < 24 ->
  parse_dag_cbor_object (mkStream p (byte_of_Z (0x60 + len b) :: b ++ tail))
  = if utf8_valid b
    then Ok (PyStr (string_of_list_byte b), mkStream (p + 1 + len b) tail)
    else Err UnicodeDecodeError.
Proof.
  intros Hlen. assert (H0 : 0 <= len b) by (unfold len; lia).
  rewrite parse_dag_cbor_object_unfold.
  rewrite (parse_obj_string_body _ _ (mkStream (p + 1) (b ++ tail))
             TEXT_STRING (len b)).
  - rewrite read_exact, Z.eqb_refl. unfold decode_utf8.
    destruct (utf8_valid b); reflexivity.
  - apply (short_head TEXT_STRING (len b) p (b ++ tail)); [lia | discriminate].
  - now right.
Qed.

Lemma text_string_decodes_witness :
  parse_dag_cbor_object
    (mkStream 0 (byte_of_Z (0x60 + len [xc3; x28]) :: [xc3; x28] ++ []))
  = Err UnicodeDecodeError.
Proof.
  apply (text_string_decodes [xc3; x28] [] 0). reflexivity.
Defined.

(** A string whose head announces a length below 2^63, the lengths that
    [stream.read] takes, raises [EOFError] when the buffer has fewer bytes
    left than announced, and only then. *)
Theorem string_body_truncated_iff (s s1 : stream) (m : MajorType) (n : Z) :
  parse_cbor_head s = Ok (m, PyInt n, s1) ->
  m = BYTE_STRING \/ m = TEXT_STRING ->
  0 <= n < 2 ^ 63 ->
  (parse_dag_cbor_object s = Err EOFError <-> len (rest s1) < n).
Proof.
  intros Hh Hm [Hn _]. rewrite parse_dag_cbor_object_unfold.
  rewrite (parse_obj_string_body _ _ _ _ _ Hh Hm).
  destruct (read n s1) as [value s2] eqn:Hr.
  pose proof (read_length _ _ _ _ Hr) as Hl.
  replace (n <? 0) with false in Hl by (symmetry; apply Z.ltb_ge; lia).
  destruct (len value =? n) eqn:E; cbn [negb].
  - apply Z.eqb_eq in E. split; [|lia].
    destruct Hm as [-> | ->]; [discriminate|].
    unfold decode_utf8. destruct (utf8_valid value); discriminate.
  - apply Z.eqb_neq in E. split; [lia | reflexivity].
Qed.

Lemma string_body_truncated_iff_witness :
  parse_dag_cbor_object (BytesIO [x43; x01; x02]) = Err EOFError
  <-> len (rest (mkStream 1 [x01; x02])) < 3.
Proof.
  apply (string_body_truncated_iff (BytesIO [x43; x01; x02])
           (mkStream 1 [x01; x02]) BYTE_STRING 3);
    [reflexivity | now left | lia].
Defined.

Lemma parse_array_items_decode (n : nat) :
  forall (f : nat) (vs : list pyval) (s : stream),
    (2 * List.length (rest s) + 2 <= f)%nat ->
    parse_array_items f (Z.of_nat n) vs s
    = ('(vs', s') <- decode_items n s ;; Ok (vs ++ vs', s')).
Proof.
  induction n as [|k IH]; intros f vs s Hf.
  - destruct f as [|f]; [lia|]. rewrite parse_array_items_step.
    cbn. now rewrite app_nil_r.
  - destruct f as [|f]; [lia|]. rewrite parse_array_items_step.
    rewrite gt_not_leb by lia. rewrite parse_obj_any_fuel by lia.
    cbn [decode_items].
    destruct (parse_dag_cbor_object s) as [[v s1]| |] eqn:Ho; cbn [bind];
      try reflexivity.
    apply parse_dag_cbor_object_shrinks in Ho.
    replace (Z.of_nat (S k) - 1) with (Z.of_nat k) by lia.
    rewrite IH by lia.
    destruct (decode_items k s1) as [[vs' s2]| |]; cbn [bind];
      try reflexivity.
    now rewrite <- app_assoc.
Qed.

Lemma parse_map_items_decode (n : nat) :
  forall (f : nat) (d : pydict) (s : stream),
    (2 * List.length (rest s) + 2 <= f)%nat ->
    parse_map_items f (Z.of_nat n) d s = decode_entries n d s.
Proof.
  induction n as [|k IH]; intros f d s Hf.
  - destruct f as [|f]; [lia|]. reflexivity.
  - destruct f as [|f]; [lia|]. rewrite parse_map_items_step.
    rewrite gt_not_leb by lia. rewrite parse_obj_any_fuel by lia.
    cbn [decode_entries].
    destruct (parse_dag_cbor_object s) as [[key s1]| |] eqn:Ho; cbn [bind];
      try reflexivity.
    apply parse_dag_cbor_object_shrinks in Ho.
    destruct key; try reflexivity.
    rewrite parse_obj_any_fuel by lia.
    destruct (parse_dag_cbor_object s1) as [[v s2]| |] eqn:Ho2; cbn [bind];
      try reflexivity.
    apply parse_dag_cbor_object_shrinks in Ho2.
    replace (Z.of_nat (S k) - 1) with (Z.of_nat k) by lia.
    apply IH. lia.
Qed.

(** Arrays.  A head that announces [n] items decodes to the list of the [n]
    values that the decoder reads one after the other from the bytes after
    the head, in that order, and raises what the first failing item
    raises. *)
Theorem array_decodes_items (n : nat) (tail : bytes) (p : Z) :
  (n < 24)%nat ->
  parse_dag_cbor_object (mkStream p (byte_of_Z (0x80 + Z.of_nat n) :: tail))
  = ('(vs, s') <- decode_items n (mkStream (p + 1) tail) ;;
     Ok (PyList vs, s')).
Proof.
  intros Hn. rewrite parse_dag_cbor_object_unfold, parse_obj_step.
  change (0x80 + Z.of_nat n) with (32 * MajorType_value ARRAY + Z.of_nat n).
  rewrite (short_head ARRAY (Z.of_nat n) p tail) by (lia || discriminate).
  cbn [bind as_int]. rewrite parse_array_items_decode by (simpl; lia).
  destruct (decode_items n (mkStream (p + 1) tail)) as [[vs s']| |];
    reflexivity.
Qed.

Lemma array_decodes_items_witness :
  parse_dag_cbor_object (mkStream 0 (byte_of_Z (0x80 + Z.of_nat 2) :: [x01; x41; x07]))
  = ('(vs, s') <- decode_items 2 (mkStream (0 + 1) [x01; x41; x07]) ;;
     Ok (PyList vs, s')).
Proof.
  apply (array_decodes_items 2 [x01; x41; x07] 0). lia.
Defined.

(** Maps.  A head that announces [n] entries decodes to the dict that the
    [n] pairs of key and value read one after the other are assigned to, in
    that order: the keys are not required to be sorted, and a key that
    occurs again keeps its place and takes the later value. *)
Theorem map_decodes_entries (n : nat) (tail : bytes) (p : Z) :
  (n < 24)%nat ->
  parse_dag_cbor_object (mkStream p (byte_of_Z (0xa0 + Z.of_nat n) :: tail))
  = ('(d, s') <- decode_entries n [] (mkStream (p + 1) tail) ;;
     Ok (PyDict d, s')).
Proof.
  intros Hn. rewrite parse_dag_cbor_object_unfold, parse_obj_step.
  change (0xa0 + Z.of_nat n) with (32 * MajorType_value MAP + Z.of_nat n).
  rewrite (short_head MAP (Z.of_nat n) p tail) by (lia || discriminate).
  cbn [bind as_int]. rewrite parse_map_items_decode by (simpl; lia).
  reflexivity.
Qed.

Lemma map_decodes_entries_witness :
  parse_dag_cbor_object
    (mkStream 0 (byte_of_Z (0xa0 + Z.of_nat 2) :: [x61; x62; x01; x61; x61; x02]))
  = Ok (PyDict [(KStr "b", PyInt 1); (KStr "a", PyInt 2)], mkStream 7 []).
Proof.
  rewrite (map_decodes_entries 2 [x61; x62; x01; x61; x61; x02] 0) by lia.
  reflexivity.
Defined.

(** A map that gives a key twice is accepted; the dict has the key once,
    with the value given last. *)
Theorem map_duplicate_key_last_wins (p : Z) (tail : bytes)
  (s1 s2 s3 s4 : stream) (name : string) (v1 v2 : pyval) :
  parse_dag_cbor_object (mkStream (p + 1) tail) = Ok (PyStr name, s1) ->
  parse_dag_cbor_object s1 = Ok (v1, s2) ->
  parse_dag_cbor_object s2 = Ok (PyStr name, s3) ->
  parse_dag_cbor_object s3 = Ok (v2, s4) ->
  parse_dag_cbor_object (mkStream p (xa2 :: tail))
  = Ok (PyDict [(KStr name, v2)], s4).
Proof.
  intros H1 H2 H3 H4. rewrite parse_dag_cbor_object_unfold, parse_obj_step.
  change xa2 with (byte_of_Z (32 * MajorType_value MAP + 2)).
  rewrite (short_head MAP 2 p tail) by (lia || discriminate).
  cbn [bind as_int]. rewrite (parse_map_items_decode 2) by (simpl; lia).
  cbn [decode_entries].
  rewrite H1. cbn [bind]. rewrite H2. cbn [bind].
  rewrite H3. cbn [bind]. rewrite H4. cbn [bind].
  unfold pd_set. cbn [dict_set pykey_eqb]. now rewrite String.eqb_refl.
Qed.

Lemma map_duplicate_key_last_wins_witness :
  parse_dag_cbor_object (mkStream 0 (xa2 :: [x61; x61; x01; x61; x61; x02]))
  = Ok (PyDict [(KStr "a", PyInt 2)], mkStream 7 []).
Proof.
  apply (map_duplicate_key_last_wins 0 [x61; x61; x01; x61; x61; x02]
           (mkStream 3 [x01; x61; x61; x02]) (mkStream 4 [x61; x61; x02])
           (mkStream 6 [x02]) (mkStream 7 []) "a" (PyInt 1) (PyInt 2));
    reflexivity.
Defined.

(** The value after a tag-42 head is decoded by the decoder itself, and
    checked and encoded as a link. *)
Lemma parse_tag_42 (tail : bytes) (p : Z) :
  parse_dag_cbor_object (mkStream p (xd8 :: x2a :: tail))
  = ('(cid_bytes, s') <- parse_dag_cbor_object (mkStream (p + 2) tail) ;;
     link <- decode_link cid_bytes ;;
     Ok (link, s')).
Proof.
  rewrite parse_dag_cbor_object_unfold, parse_obj_step.
  change xd8 with (byte_of_Z (32 * MajorType_value TAG + 24)).
  change x2a with (byte_of_Z 42).
  rewrite (one_byte_head TAG 42 p tail) by (lia || discriminate).
  cbn [bind as_int]. change (negb (42 =? 42)) with false. cbv iota.
  rewrite parse_obj_any_fuel by (simpl; lia). reflexivity.
Qed.

(** Tags.  Every tag number but 42 is refused, in the short form of the
    head and in its one-byte form, whatever is tagged.  Under tag 42, what
    is tagged is decoded first and its exception is raised as it is; a
    decoded value that is not a byte string fails the type assertion, and a
    byte string that has not 37 bytes fails the length assertion. *)
Theorem tags_other_than_42_rejected (tail : bytes) (p : Z) :
  (forall n, 0 <= n < 24 ->
     parse_dag_cbor_object (mkStream p (byte_of_Z (0xc0 + n) :: tail))
     = Err ExcNon42)
  /\ (forall n, 0 <= n < 256 -> n <> 42 ->
        parse_dag_cbor_object (mkStream p (xd8 :: byte_of_Z n :: tail))
        = Err ExcNon42)
  /\ (forall e,
        parse_dag_cbor_object (mkStream (p + 2) tail) = Err e ->
        parse_dag_cbor_object (mkStream p (xd8 :: x2a :: tail)) = Err e)
  /\ (forall v s',
        parse_dag_cbor_object (mkStream (p + 2) tail) = Ok (v, s') ->
        (forall b, v <> PyBytes b) ->
        parse_dag_cbor_object (mkStream p (xd8 :: x2a :: tail))
        = Err (AssertionError AssertCidIsBytes))
  /\ (forall b s',
        parse_dag_cbor_object (mkStream (p + 2) tail) = Ok (PyBytes b, s') ->
        len b <> 37 ->
        parse_dag_cbor_object (mkStream p (xd8 :: x2a :: tail))
        = Err (AssertionError AssertCidLen)).
Proof.
  split; [|split; [|split; [|split]]].
  - intros n Hn. rewrite parse_dag_cbor_object_unfold, parse_obj_step.
    change (0xc0 + n) with (32 * MajorType_value TAG + n).
    rewrite (short_head TAG n p tail) by (lia || discriminate).
    cbn [bind as_int].
    replace (n =? 42) with false by (symmetry; apply Z.eqb_neq; lia).
    reflexivity.
  - intros n Hn Hne. rewrite parse_dag_cbor_object_unfold, parse_obj_step.
    change xd8 with (byte_of_Z (32 * MajorType_value TAG + 24)).
    rewrite (one_byte_head TAG n p tail) by (lia || discriminate).
    cbn [bind as_int].
    replace (n =? 42) with false by (symmetry; now apply Z.eqb_neq).
    reflexivity.
  - intros e He. rewrite parse_tag_42, He. reflexivity.
  - intros v s' Hv Hnot. rewrite parse_tag_42, Hv. cbn [bind].
    destruct v; try reflexivity. exfalso. eapply Hnot. reflexivity.
  - intros b s' Hv Hlen. rewrite parse_tag_42, Hv. cbn [bind decode_link].
    replace (len b =? 37) with false by (symmetry; now apply Z.eqb_neq).
    reflexivity.
Qed.

Lemma parse_bytes_one_byte_head (b tail : bytes) (p : Z) :
  len b < 256 ->
  parse_dag_cbor_object (mkStream p (x58 :: byte_of_Z (len b) :: b ++ tail))
  = Ok (PyBytes b, mkStream (p + 2 + len b) tail).
Proof.
  intros Hlen. assert (H0 : 0 <= len b) by (unfold len; lia).
  rewrite parse_dag_cbor_object_unfold.
  rewrite (parse_obj_string_body _ _ (mkStream (p + 2) (b ++ tail))
             BYTE_STRING (len b)).
  - rewrite read_exact, Z.eqb_refl. reflexivity.
  - apply (one_byte_head BYTE_STRING (len b) p (b ++ tail));
      [lia | discriminate | discriminate].
  - now left.
Qed.

Lemma parse_short_text (b tail : bytes) (p : Z) :
  len b < 24 -> utf8_valid b = true ->
  parse_dag_cbor_object (mkStream p (byte_of_Z (0x60 + len b) :: b ++ tail))
  = Ok (PyStr (string_of_list_byte b), mkStream (p + 1 + len b) tail).
Proof.
  intros Hlen Hvalid. assert (H0 : 0 <= len b) by (unfold len; lia).
  rewrite parse_dag_cbor_object_unfold.
  rewrite (parse_obj_string_body _ _ (mkStream (p + 1) (b ++ tail))
             TEXT_STRING (len b)).
  - rewrite read_exact, Z.eqb_refl. unfold decode_utf8. rewrite Hvalid.
    reflexivity.
  - apply (short_head TEXT_STRING (len b) p (b ++ tail)); [lia | discriminate].
  - now right.
Qed.

Lemma parse_link (codec : byte) (digest tail : bytes) (p : Z) :
  codec = x71 \/ codec = x55 ->
  List.length digest = 32%nat ->
  parse_dag_cbor_object
    (mkStream p (Fixtures.cbor_link ([x01; codec; x12; x20] ++ digest) ++ tail))
  = Ok (PyStr (cid_text ([x01; codec; x12; x20] ++ digest)),
        mkStream (p + 41) tail).
Proof.
  intros Hcodec Hlen. unfold Fixtures.cbor_link. cbn [app].
  rewrite parse_tag_42.
  pose proof (parse_bytes_one_byte_head
                (x00 :: x01 :: codec :: x12 :: x20 :: digest)
                tail (p + 2)) as Hbytes.
  assert (Hl : len (x00 :: x01 :: codec :: x12 :: x20 :: digest) = 37).
  { unfold len. cbn [List.length]. rewrite Hlen. reflexivity. }
  rewrite Hl in Hbytes. specialize (Hbytes ltac:(lia)).
  change (byte_of_Z 37) with x25 in Hbytes. cbn [app] in Hbytes.
  rewrite Hbytes. cbn [bind decode_link]. rewrite Hl.
  change (37 =? 37) with true. cbn [py_assert bind].
  assert (Hp : startswith (x00 :: x01 :: codec :: x12 :: x20 :: digest)
                 link_prefix_dag_cbor
               || startswith (x00 :: x01 :: codec :: x12 :: x20 :: digest)
                    link_prefix_raw = true).
  { destruct Hcodec as [-> | ->]; destruct digest; reflexivity. }
  rewrite Hp. cbn [py_assert bind tl]. do 2 f_equal. f_equal. lia.
Qed.

(** Links.  Tag 42 around a byte string of the multibase byte [0x00] and a
    36-byte CID with the DAG-CBOR or the raw prefix decodes to the text of
    the CID: [b] and the unpadded lowercase base32 of the 36 bytes.  The 41
    bytes of the link are read, nothing more. *)
Theorem link_decodes (codec : byte) (digest tail : bytes) (p : Z) :
  codec = x71 \/ codec = x55 ->
  List.length digest = 32%nat ->
  parse_dag_cbor_object
    (mkStream p (Fixtures.cbor_link ([x01; codec; x12; x20] ++ digest) ++ tail))
  = Ok (PyStr (cid_text ([x01; codec; x12; x20] ++ digest)),
        mkStream (p + 41) tail).
Proof. exact (parse_link codec digest tail p). Qed.

Lemma link_decodes_witness :
  parse_dag_cbor_object
    (mkStream 0 (Fixtures.cbor_link ([x01; x55; x12; x20] ++ repeat x07 32)
                 ++ [xff]))
  = Ok (PyStr (cid_text ([x01; x55; x12; x20] ++ repeat x07 32)),
        mkStream (0 + 41) [xff]).
Proof.
  apply (link_decodes x55 (repeat x07 32) [xff] 0); [now right | reflexivity].
Defined.

Lemma tags_other_than_42_rejected_witness :
  parse_dag_cbor_object (mkStream 0 (byte_of_Z (0xc0 + 1) :: [x00])) = Err ExcNon42
  /\ parse_dag_cbor_object (mkStream 0 (xd8 :: x2a :: [x01]))
     = Err (AssertionError AssertCidIsBytes)
  /\ parse_dag_cbor_object (mkStream 0 (xd8 :: x2a :: [x41; x00]))
     = Err (AssertionError AssertCidLen).
Proof.
  destruct (tags_other_than_42_rejected [x00] 0) as [Hshort _].
  destruct (tags_other_than_42_rejected [x01] 0) as [_ [_ [_ [Htype _]]]].
  destruct (tags_other_than_42_rejected [x41; x00] 0) as [_ [_ [_ [_ Hlen]]]].
  split; [apply Hshort; lia|]. split.
  - apply (Htype (PyInt 1) (mkStream 3 [])); [reflexivity | discriminate].
  - apply (Hlen [x00] (mkStream 4 [])); [reflexivity | discriminate].
Defined.

(** ** More on the container parser *)

Lemma advances_bounds (s s' : stream) :
  advances s s' ->
  pos s <= pos s' /\ pos s' + len (rest s') = pos s + len (rest s).
Proof.
  intros [c [Hr Hp]]. unfold len in *. rewrite Hr, length_app. lia.
Qed.

Lemma varint_loop_advances (unread : bytes) :
  forall (n0 shift q n : Z) (s' : stream),
    varint_loop unread q n0 shift = Ok (n, s') ->
    advances (mkStream q unread) s' /\ q < pos s'.
Proof.
  induction unread as [|b t IH]; intros n0 shift q n s' H; [discriminate|].
  cbn [varint_loop] in H.
  destruct (Z.land (byte_val b) 128 =? 0).
  - inv H. split; [|simpl; lia].
    exists [b]. split; [reflexivity | unfold len; simpl; lia].
  - apply IH in H. destruct H as [[c [Hr Hp]] Hlt]. split; [|lia].
    exists (b :: c). cbn [rest pos] in *. split.
    + rewrite Hr. reflexivity.
    + unfold len in *. cbn [List.length]. lia.
Qed.

Lemma parse_varint_advances (s s' : stream) (n : Z) :
  parse_varint s = Ok (n, s') -> advances s s' /\ pos s < pos s'.
Proof.
  unfold parse_varint. destruct s as [p unread]. cbn [rest pos].
  apply varint_loop_advances.
Qed.

(** What a block that was accepted has read. *)
Lemma parse_car_block_accepted (s s' : stream) (nodes nodes' : pydict) :
  parse_car_block s nodes = Ok (s', nodes') ->
  exists (cid_raw payload : bytes) (block : pyval) (bs : stream),
    nodes' = pd_set nodes (KStr (cid_text cid_raw)) block
    /\ List.length cid_raw = 36%nat
    /\ firstn 4 cid_raw = block_prefix_dag_cbor
    /\ skipn 4 cid_raw = sha256 payload
    /\ parse_dag_cbor_object (BytesIO payload) = Ok (block, bs)
    /\ rest bs = []
    /\ advances s s' /\ pos s < pos s'.
Proof.
  intros H. destruct (parse_varint s) as [[block_len s1]| |] eqn:Hv;
    try (unfold parse_car_block in H; rewrite Hv in H; discriminate).
  destruct (read 36 s1) as [cid_raw s2] eqn:Hc.
  destruct (read (block_len - 36) s2) as [payload s3] eqn:Hd.
  rewrite (parse_car_block_reads _ _ _ _ _ _ _ _ Hv Hc Hd) in H.
  apply bind_ok in H. destruct H as [u1 [Hprefix H]].
  apply py_assert_ok in Hprefix.
  apply bind_ok in H. destruct H as [u2 [Hdigest H]].
  apply py_assert_ok in Hdigest.
  apply bind_ok in H. destruct H as [[block bs] [Hblock H]].
  apply bind_ok in H. destruct H as [u3 [Htrail H]].
  apply py_assert_ok in Htrail.
  apply bind_ok in H. destruct H as [u4 [Hlen H]].
  apply py_assert_ok in Hlen. apply Z.eqb_eq in Hlen.
  injection H as Hs' Hn'. subst s' nodes'.
  pose proof (read_spec _ _ _ _ Hc) as [Hr1 Hp1].
  pose proof (read_spec _ _ _ _ Hd) as [Hr2 Hp2].
  pose proof (read_length _ _ _ _ Hc) as Hl1.
  change (36 <? 0) with false in Hl1. cbv iota in Hl1.
  pose proof (read_length _ _ _ _ Hd) as Hl2.
  unfold tell in Hlen.
  assert (Hall : len (rest s1) = len cid_raw + len (rest s2)).
  { rewrite Hr1. unfold len. rewrite length_app. lia. }
  assert (Hlens : len cid_raw = 36 /\ 0 <= block_len - 36).
  { destruct (block_len - 36 <? 0) eqn:E.
    - apply Z.ltb_lt in E. exfalso.
      assert (Hempty : payload = []).
      { destruct payload as [|x t]; [reflexivity|].
        unfold len in *. cbn [List.length] in *. lia. }
      subst payload. discriminate.
    - apply Z.ltb_ge in E. unfold len in *. lia. }
  destruct Hlens as [Hcid _].
  exists cid_raw, payload, block, bs.
  assert (Hcid' : List.length cid_raw = 36%nat) by (unfold len in Hcid; lia).
  repeat split.
  - exact Hcid'.
  - now apply (startswith_firstn cid_raw block_prefix_dag_cbor).
  - unfold endswith in Hdigest. apply andb_true_iff in Hdigest.
    destruct Hdigest as [_ Heq]. apply bytes_eqb_eq in Heq.
    rewrite sha256_length, Hcid' in Heq. exact Heq.
  - exact Hblock.
  - unfold read_all, read in Htrail. cbn in Htrail.
    destruct (rest bs); [reflexivity | discriminate].
  - apply parse_varint_advances in Hv. destruct Hv as [Hv _].
    apply read_advances in Hc. apply read_advances in Hd.
    eapply advances_trans; [exact Hv|].
    eapply advances_trans; eassumption.
  - apply parse_varint_advances in Hv. destruct Hv as [_ Hv].
    unfold len in *. lia.
Qed.

Lemma pd_set_Forall (P : pykey * pyval -> Prop) (d : pydict) (k : pykey)
  (v : pyval) :
  Forall P d -> P (k, v) -> Forall P (pd_set d k v).
Proof.
  intros Hd Hkv. unfold pd_set. induction Hd as [|[k' v'] d Hk' Hd IH]; simpl.
  - constructor; [assumption | constructor].
  - destruct (pykey_eqb k' k) eqn:E.
    + apply pykey_eqb_eq in E. subst k'. constructor; assumption.
    + constructor; assumption.
Qed.

Lemma parse_car_blocks_end (fuel : nat) :
  forall (s : stream) (length : Z) (nodes nodes' : pydict),
    parse_car_blocks fuel s length nodes = Ok nodes' ->
    Forall block_entry_verified nodes ->
    Forall block_entry_verified nodes'
    /\ exists s_end, advances s s_end /\ tell s_end = length.
Proof.
  induction fuel as [|f IH]; intros s length nodes nodes' H Hnodes;
    cbn [parse_car_blocks] in H.
  - destruct (tell s =? length) eqn:E; [|discriminate]. inv H.
    apply Z.eqb_eq in E. split; [assumption|].
    exists s. split; [apply advances_refl | assumption].
  - destruct (tell s =? length) eqn:E.
    + inv H. apply Z.eqb_eq in E. split; [assumption|].
      exists s. split; [apply advances_refl | assumption].
    + apply bind_ok in H. destruct H as [[s1 nodes1] [Hb H]].
      apply parse_car_block_accepted in Hb.
      destruct Hb as [cid_raw [payload [block [bs
        [-> [Hl [Hp [Hd [Hv [He [Ha _]]]]]]]]]]].
      apply IH in H.
      * destruct H as [Hall [s_end [Ha' Ht]]]. split; [assumption|].
        exists s_end. split; [eapply advances_trans; eassumption | assumption].
      * apply pd_set_Forall; [assumption|].
        exists cid_raw, payload, bs. cbn [fst snd]. repeat split; assumption.
Qed.

Lemma parse_car_header_advances (s s0 : stream) (root : pyval) :
  parse_car_header s = Ok (root, s0) -> advances s s0 /\ pos s < pos s0.
Proof.
  unfold parse_car_header. intros H.
  apply bind_ok in H. destruct H as [[header_len s1] [Hv H]].
  apply parse_varint_advances in Hv. destruct Hv as [Hv Hlt].
  apply bind_ok in H. destruct H as [[car_header s2] [Ho H]].
  apply (proj1 (parse_obj_advances _)) in Ho.
  repeat (apply bind_ok in H; destruct H as [? [_ H]]). inv H.
  split; [eapply advances_trans; eassumption|].
  apply advances_bounds in Ho. lia.
Qed.

(** Every entry of the block mapping that [parse_car] returns was checked:
    its key is the text of a 36-byte CID with the DAG-CBOR prefix whose last
    32 bytes are the SHA-256 of a payload, and its value is what that
    payload, read to its end, decodes to. *)
Theorem parse_car_entries_verified (s : stream) (length : Z) (root : pyval)
  (nodes : pydict) :
  parse_car s length = Ok (root, nodes) ->
  Forall block_entry_verified nodes.
Proof.
  unfold parse_car. intros H.
  apply bind_ok in H. destruct H as [[r s0] [_ H]].
  apply bind_ok in H. destruct H as [nodes' [Hb H]]. inv H.
  apply (parse_car_blocks_end _ _ _ _ _ Hb). constructor.
Qed.

Lemma parse_car_entries_verified_witness :
  Forall block_entry_verified
    [(KStr "bafyreib47qoy3wxasj2dlstlfmphwpeyaeytgsmi2o7nzgagogw4jsbn7y",
      PyDict [(KStr "e", PyList [])]);
     (KStr "bafyreihhponjv2pdbmg33nxvccrgj34546avahl3nojk5cplawofvn2d3m",
      PyInt 5)].
Proof.
  apply (parse_car_entries_verified
           (BytesIO (Fixtures.car Fixtures.root
                       [Fixtures.block x71 Fixtures.empty_node;
                        Fixtures.block x71 Fixtures.five]))
           (len (Fixtures.car Fixtures.root
                   [Fixtures.block x71 Fixtures.empty_node;
                    Fixtures.block x71 Fixtures.five]))
           (PyStr "bafyreib47qoy3wxasj2dlstlfmphwpeyaeytgsmi2o7nzgagogw4jsbn7y")).
  vm_compute. reflexivity.
Defined.

(** The loop returns where it stands when the position is [length]. *)
Lemma parse_car_blocks_reach (fuel : nat) :
  forall (s : stream) (length : Z) (nodes nodes' : pydict),
    parse_car_blocks fuel s length nodes = Ok nodes' ->
    exists (fuel' : nat) (s_end : stream),
      blocks_reach length fuel s nodes fuel' s_end nodes'
      /\ tell s_end = length.
Proof.
  induction fuel as [|f IH]; intros s length nodes nodes' H;
    cbn [parse_car_blocks] in H.
  - destruct (tell s =? length) eqn:E; [|discriminate].
    injection H as <-. apply Z.eqb_eq in E.
    exists O, s. split; [apply reach_here | exact E].
  - destruct (tell s =? length) eqn:E.
    + injection H as <-. apply Z.eqb_eq in E.
      exists (S f), s. split; [apply reach_here | exact E].
    + apply Z.eqb_neq in E.
      apply bind_ok in H. destruct H as [[s1 nodes1] [Hb H]].
      destruct (IH _ _ _ _ H) as [fuel' [s_end [Hreach Hend]]].
      exists fuel', s_end. split; [|exact Hend].
      exact (reach_next length f s s1 nodes nodes1 fuel' s_end nodes'
               E Hb Hreach).
Qed.

Lemma parse_car_blocks_here (fuel : nat) (s : stream) (length : Z)
  (nodes : pydict) :
  tell s = length -> parse_car_blocks fuel s length nodes = Ok nodes.
Proof.
  intros H. apply Z.eqb_eq in H. destruct fuel; simpl; now rewrite H.
Qed.

(** [parse_car] returns a root and a block mapping exactly when the
    statements before the loop give that root and the loop, after zero or
    more iterations that each started at a position other than [length] and
    succeeded, stands at the position [length], the mapping being that of
    the blocks read up to there.  That [length] lies after the start and not
    after the end of the buffer.  In every other case the parser raises: a
    [length] that the stream does not meet right after the header or right
    after a block never makes it return. *)
Theorem parse_car_returns_iff (s : stream) (length : Z) :
  (forall (root : pyval) (nodes : pydict),
      parse_car s length = Ok (root, nodes)
      <-> exists (s0 : stream) (fuel : nat) (s_end : stream),
            parse_car_header s = Ok (root, s0)
            /\ blocks_reach length (S (List.length (rest s0))) s0 []
                 fuel s_end nodes
            /\ tell s_end = length)
  /\ (forall (root : pyval) (nodes : pydict),
         parse_car s length = Ok (root, nodes) ->
         pos s < length <= pos s + len (rest s))
  /\ ((exists (root : pyval) (nodes : pydict),
          parse_car s length = Ok (root, nodes))
      \/ exists e : exn, parse_car s length = Err e).
Proof.
  split; [|split].
  - intros root nodes. split.
    + unfold parse_car. intros H.
      apply bind_ok in H. destruct H as [[r s0] [Hh H]].
      apply bind_ok in H. destruct H as [nodes' [Hb H]].
      injection H as <- <-.
      destruct (parse_car_blocks_reach _ _ _ _ _ Hb)
        as [fuel [s_end [Hreach Hend]]].
      exists s0, fuel, s_end. repeat split; assumption.
    + intros [s0 [fuel [s_end [Hh [Hreach Hend]]]]].
      unfold parse_car. rewrite Hh. cbn [bind].
      rewrite (blocks_reach_run _ _ _ _ _ _ _ Hreach).
      rewrite (parse_car_blocks_here fuel s_end length nodes Hend).
      reflexivity.
  - intros root nodes H. unfold parse_car in H.
    apply bind_ok in H. destruct H as [[r s0] [Hh H]].
    apply bind_ok in H. destruct H as [nodes' [Hb _]].
    apply parse_car_header_advances in Hh. destruct Hh as [Hh Hlt].
    apply parse_car_blocks_end in Hb; [|constructor].
    destruct Hb as [_ [s_end [Ha Ht]]].
    assert (Hs : advances s s_end) by (eapply advances_trans; eassumption).
    apply advances_bounds in Hs. apply advances_bounds in Ha.
    unfold tell in Ht. unfold len in *. lia.
  - destruct (parse_car s length) as [[root nodes]|e|] eqn:H.
    + left. exists root, nodes. reflexivity.
    + right. exists e. reflexivity.
    + exfalso. revert H. apply parse_car_total.
Qed.

Lemma parse_car_returns_iff_witness :
  pos (BytesIO (Fixtures.car Fixtures.root [Fixtures.block x71 Fixtures.five]))
  < len (Fixtures.car Fixtures.root [Fixtures.block x71 Fixtures.five])
  <= pos (BytesIO (Fixtures.car Fixtures.root [Fixtures.block x71 Fixtures.five]))
     + len (rest (BytesIO (Fixtures.car Fixtures.root
                             [Fixtures.block x71 Fixtures.five]))).
Proof.
  eapply (proj1 (proj2 (parse_car_returns_iff
            (BytesIO (Fixtures.car Fixtures.root
                        [Fixtures.block x71 Fixtures.five]))
            (len (Fixtures.car Fixtures.root
                    [Fixtures.block x71 Fixtures.five]))))).
  vm_compute. reflexivity.
Defined.

(** ** Reading what a writer wrote *)

Lemma cid_of_length (codec : byte) (payload : bytes) :
  len (Fixtures.cid_of codec payload) = 36.
Proof.
  unfold Fixtures.cid_of, len. rewrite length_app, sha256_length. reflexivity.
Qed.

Lemma leb128_encode_nonempty (n : Z) : 0 <= n -> 1 <= len (leb128_encode n).
Proof.
  intros Hn. unfold leb128_encode.
  rewrite leb128_groups_size; [lia | lia | apply leb128_fuel_enough; lia].
Qed.

(** One block of a writer, read by the body of the loop. *)
Lemma parse_car_block_written (payload tail : bytes) (p : Z) (nodes : pydict)
  (v : pyval) (bs : stream) :
  parse_dag_cbor_object (BytesIO payload) = Ok (v, bs) ->
  rest bs = [] ->
  parse_car_block (mkStream p (Fixtures.block x71 payload ++ tail)) nodes
  = Ok (mkStream (p + len (Fixtures.block x71 payload)) tail,
        pd_set nodes (KStr (cid_text (Fixtures.cid_of x71 payload))) v).
Proof.
  intros Hv Hbs. unfold Fixtures.block, Fixtures.framed.
  set (cid := Fixtures.cid_of x71 payload).
  pose proof (cid_of_length x71 payload) as Hcid. fold cid in Hcid.
  assert (Hbody : len (cid ++ payload) = 36 + len payload).
  { unfold len in *. rewrite length_app. lia. }
  set (vsize := Z.max 1 (ceil_div (bitlength (len (cid ++ payload))) 7)).
  assert (Hvar : parse_varint
                   (mkStream p ((leb128_encode (len (cid ++ payload))
                                 ++ cid ++ payload) ++ tail))
                 = Ok (len (cid ++ payload),
                       mkStream (p + vsize) (cid ++ payload ++ tail))).
  { rewrite <- !app_assoc. apply parse_varint_encode. unfold len. lia. }
  assert (Hc : read 36 (mkStream (p + vsize) (cid ++ payload ++ tail))
               = (cid, mkStream (p + vsize + 36) (payload ++ tail))).
  { rewrite <- Hcid. apply read_exact. }
  assert (Hd : read (len (cid ++ payload) - 36)
                 (mkStream (p + vsize + 36) (payload ++ tail))
               = (payload, mkStream (p + vsize + 36 + len payload) tail)).
  { replace (len (cid ++ payload) - 36) with (len payload) by lia.
    apply read_exact. }
  rewrite (parse_car_block_reads _ _ _ _ nodes _ _ _ Hvar Hc Hd).
  assert (Hp : startswith cid block_prefix_dag_cbor = true).
  { apply startswith_firstn. reflexivity. }
  assert (He : endswith cid (sha256 payload) = true).
  { unfold endswith. rewrite sha256_length.
    assert (Hl : List.length cid = 36%nat) by (unfold len in Hcid; lia).
    rewrite Hl. cbn [Nat.leb Nat.sub andb].
    apply bytes_eqb_eq. reflexivity. }
  rewrite Hp, He. cbn [py_assert bind]. rewrite Hv. cbn [bind].
  unfold read_all, read. change (-1 <? 0) with true. cbv iota. cbn [fst].
  rewrite Hbs. cbn [is_empty py_assert bind].
  unfold tell. cbn [pos].
  replace (p + vsize + 36 + len payload - (p + vsize) =? len (cid ++ payload))
    with true by (symmetry; apply Z.eqb_eq; lia).
  cbn [py_assert bind]. do 2 f_equal. f_equal.
  assert (Hsz : len (leb128_encode (len (cid ++ payload))) = vsize).
  { unfold leb128_encode. apply leb128_groups_size; [lia|].
    apply leb128_fuel_enough. unfold len. lia. }
  assert (Happ : len (leb128_encode (len (cid ++ payload)) ++ cid ++ payload)
                 = len (leb128_encode (len (cid ++ payload)))
                   + len (cid ++ payload)).
  { unfold len. rewrite length_app. lia. }
  rewrite Happ, Hsz, Hbody. lia.
Qed.

Lemma block_nonempty (payload : bytes) :
  1 <= len (Fixtures.block x71 payload).
Proof.
  unfold Fixtures.block, Fixtures.framed.
  pose proof (leb128_encode_nonempty
                (len (Fixtures.cid_of x71 payload ++ payload))
                ltac:(unfold len; lia)).
  unfold len in *. rewrite length_app. lia.
Qed.

Lemma decoded_payload_eq (payload : bytes) (v : pyval) (bs : stream) :
  parse_dag_cbor_object (BytesIO payload) = Ok (v, bs) ->
  decoded_payload payload = v.
Proof. unfold decoded_payload. now intros ->. Qed.

(** The blocks of a writer, read by the loop. *)
Lemma parse_car_blocks_written (payloads : list bytes) :
  forall (fuel : nat) (p : Z) (nodes : pydict),
    Forall decodes_whole payloads ->
    (List.length payloads <= fuel)%nat ->
    parse_car_blocks fuel
      (mkStream p (List.concat (map (Fixtures.block x71) payloads)))
      (p + len (List.concat (map (Fixtures.block x71) payloads))) nodes
    = Ok (fold_left
            (fun d payload =>
               pd_set d (KStr (cid_text (Fixtures.cid_of x71 payload)))
                      (decoded_payload payload))
            payloads nodes).
Proof.
  induction payloads as [|payload more IH]; intros fuel p nodes Hall Hf.
  - cbn [map List.concat fold_left]. unfold len. cbn [List.length].
    destruct fuel; cbn [parse_car_blocks tell pos];
      replace (p =? p + Z.of_nat 0) with true
        by (symmetry; apply Z.eqb_eq; lia); reflexivity.
  - inversion Hall as [|? ? [v [bs [Hv Hbs]]] Hmore]; subst.
    destruct fuel as [|f]; [simpl in Hf; lia|].
    cbn [map List.concat fold_left parse_car_blocks tell pos].
    pose proof (block_nonempty payload) as Hne.
    assert (Hlen : len (Fixtures.block x71 payload
                        ++ List.concat (map (Fixtures.block x71) more))
                   = len (Fixtures.block x71 payload)
                     + len (List.concat (map (Fixtures.block x71) more))).
    { unfold len. rewrite length_app. lia. }
    rewrite Hlen.
    replace (p =? p + (len (Fixtures.block x71 payload)
                       + len (List.concat (map (Fixtures.block x71) more))))
      with false by (symmetry; apply Z.eqb_neq; unfold len in *; lia).
    rewrite (parse_car_block_written payload _ p nodes v bs Hv Hbs).
    cbn [bind]. rewrite (decoded_payload_eq payload v bs Hv).
    rewrite Z.add_assoc. apply IH; [assumption | simpl in Hf; lia].
Qed.
Lemma header_bytes (root tail : bytes) :
  Fixtures.header root ++ tail
  = xa2
    :: (byte_of_Z (0x60 + len (list_byte_of_string "roots"))
        :: list_byte_of_string "roots"
        ++ (byte_of_Z (0x80 + Z.of_nat 1)
            :: (Fixtures.cbor_link root
                ++ (byte_of_Z (0x60 + len (list_byte_of_string "version"))
                    :: list_byte_of_string "version"
                    ++ (byte_of_Z 1 :: tail))))).
Proof.
  unfold Fixtures.header, Fixtures.header_of, Fixtures.cbor_text.
  cbn [map List.concat]. rewrite app_nil_r.
  repeat rewrite <- app_assoc. reflexivity.
Qed.

Lemma header_length (root : bytes) :
  List.length root = 36%nat -> len (Fixtures.header root) = 58.
Proof.
  intros H. unfold Fixtures.header, Fixtures.header_of, Fixtures.cbor_text,
    Fixtures.cbor_link, len.
  cbn [map List.concat]. repeat rewrite length_app. cbn [List.length].
  rewrite H. reflexivity.
Qed.

(** The header of a writer, decoded. *)
Lemma parse_header_written (codec : byte) (digest tail : bytes) (p : Z) :
  codec = x71 \/ codec = x55 ->
  List.length digest = 32%nat ->
  parse_dag_cbor_object
    (mkStream p (Fixtures.header ([x01; codec; x12; x20] ++ digest) ++ tail))
  = Ok (PyDict [(KStr "roots",
                 PyList [PyStr (cid_text ([x01; codec; x12; x20] ++ digest))]);
                (KStr "version", PyInt 1)],
        mkStream (p + 58) tail).
Proof.
  intros Hcodec Hlen. rewrite header_bytes.
  rewrite parse_dag_cbor_object_unfold, parse_obj_step.
  change xa2 with (byte_of_Z (32 * MajorType_value MAP + 2)).
  rewrite short_head by (lia || discriminate).
  cbn [bind as_int]. rewrite (parse_map_items_decode 2) by (simpl; lia).
  cbn [decode_entries].
  rewrite parse_short_text by reflexivity. cbn [bind].
  change (string_of_list_byte (list_byte_of_string "roots")) with "roots"%string.
  (* the array of one link *)
  rewrite parse_dag_cbor_object_unfold, parse_obj_step.
  change (0x80 + Z.of_nat 1) with (32 * MajorType_value ARRAY + Z.of_nat 1).
  rewrite short_head by (simpl; lia || discriminate).
  cbn [bind as_int]. rewrite (parse_array_items_decode 1) by (simpl; lia).
  cbn [decode_items].
  rewrite (parse_link codec digest) by assumption. cbn [bind app].
  (* the version *)
  rewrite parse_short_text by reflexivity. cbn [bind].
  change (string_of_list_byte (list_byte_of_string "version"))
    with "version"%string.
  rewrite parse_dag_cbor_object_unfold, parse_obj_step.
  change (byte_of_Z 1) with (byte_of_Z (32 * MajorType_value UNSIGNED_INT + 1)).
  rewrite short_head by (lia || discriminate).
  cbn [bind decode_entries]. unfold pd_set. cbn [dict_set pykey_eqb].
  change (String.eqb "roots" "version") with false. cbv iota.
  do 3 f_equal. unfold len. simpl. lia.
Qed.
Lemma blocks_length (payloads : list bytes) :
  (List.length payloads
   <= List.length (List.concat (map (Fixtures.block x71) payloads)))%nat.
Proof.
  induction payloads as [|payload more IH]; [simpl; lia|].
  cbn [map List.concat]. rewrite length_app.
  pose proof (block_nonempty payload) as H. unfold len in H.
  cbn [List.length]. lia.
Qed.

(** The statements before the loop, on the header of a writer. *)
Lemma parse_car_header_written (codec : byte) (digest tail : bytes) :
  codec = x71 \/ codec = x55 ->
  List.length digest = 32%nat ->
  parse_car_header
    (BytesIO (Fixtures.framed
                (Fixtures.header ([x01; codec; x12; x20] ++ digest)) ++ tail))
  = Ok (PyStr (cid_text ([x01; codec; x12; x20] ++ digest)),
        mkStream
          (len (Fixtures.framed
                  (Fixtures.header ([x01; codec; x12; x20] ++ digest))))
          tail).
Proof.
  intros Hcodec Hlen.
  remember ([x01; codec; x12; x20] ++ digest) as root eqn:Eroot.
  assert (Hroot : List.length root = 36%nat).
  { subst root. rewrite length_app, Hlen. reflexivity. }
  pose proof (header_length root Hroot) as Hh.
  unfold parse_car_header, Fixtures.framed, BytesIO.
  rewrite <- app_assoc, Hh.
  rewrite (parse_varint_encode 58 (Fixtures.header root ++ tail) 0) by lia.
  cbn [bind]. rewrite Eroot at 1.
  rewrite (parse_header_written codec digest tail _ Hcodec Hlen).
  cbn [bind]. unfold tell. cbn [pos].
  set (vsize := Z.max 1 (ceil_div (bitlength 58) 7)).
  replace (0 + vsize + 58 - (0 + vsize) =? 58) with true
    by (symmetry; apply Z.eqb_eq; lia).
  cbn [py_assert bind]. rewrite <- Eroot.
  assert (Hsz : len (leb128_encode 58 ++ Fixtures.header root) = 0 + vsize + 58).
  { assert (Happ : len (leb128_encode 58 ++ Fixtures.header root)
                   = len (leb128_encode 58) + len (Fixtures.header root))
      by (unfold len; rewrite length_app; lia).
    rewrite Happ, Hh. reflexivity. }
  rewrite Hsz. reflexivity.
Qed.

(** Round trip.  A container written as a varint-framed header
    [{"roots": [root], "version": 1}] followed by varint-framed blocks,
    each the DAG-CBOR CID of a payload and the payload, every payload one
    encoded value, is read back by [parse_car] as the text of the root and
    the mapping from the text of each block's CID to the value its payload
    decodes to. *)
Theorem parse_car_reads_written_container (codec : byte) (digest : bytes)
  (payloads : list bytes) :
  codec = x71 \/ codec = x55 ->
  List.length digest = 32%nat ->
  Forall decodes_whole payloads ->
  parse_car
    (BytesIO (Fixtures.car ([x01; codec; x12; x20] ++ digest)
                (map (Fixtures.block x71) payloads)))
    (len (Fixtures.car ([x01; codec; x12; x20] ++ digest)
            (map (Fixtures.block x71) payloads)))
  = Ok (PyStr (cid_text ([x01; codec; x12; x20] ++ digest)),
        written_blocks payloads).
Proof.
  intros Hcodec Hlen Hall. unfold parse_car, Fixtures.car.
  rewrite (parse_car_header_written codec digest _ Hcodec Hlen).
  cbn [bind rest].
  set (h := Fixtures.framed
              (Fixtures.header ([x01; codec; x12; x20] ++ digest))).
  set (blocks := List.concat (map (Fixtures.block x71) payloads)).
  assert (Hsplit : len (h ++ blocks) = len h + len blocks).
  { unfold len. rewrite length_app. lia. }
  rewrite Hsplit. unfold blocks.
  rewrite parse_car_blocks_written;
    [reflexivity | assumption |].
  pose proof (blocks_length payloads). lia.
Qed.

Lemma parse_car_reads_written_container_witness :
  parse_car
    (BytesIO (Fixtures.car ([x01; x71; x12; x20] ++ repeat x00 32)
                (map (Fixtures.block x71) [[x05]; [x41; x07]])))
    (len (Fixtures.car ([x01; x71; x12; x20] ++ repeat x00 32)
            (map (Fixtures.block x71) [[x05]; [x41; x07]])))
  = Ok (PyStr (cid_text ([x01; x71; x12; x20] ++ repeat x00 32)),
        written_blocks [[x05]; [x41; x07]]).
Proof.
  apply (parse_car_reads_written_container x71 (repeat x00 32)
           [[x05]; [x41; x07]]).
  - now left.
  - reflexivity.
  - repeat constructor.
    + exists (PyInt 5), (mkStream 1 []). split; reflexivity.
    + exists (PyBytes [x07]), (mkStream 2 []). split; reflexivity.
Defined.

(** ** More on the tree enumerator *)

Lemma common_prefix_len_le (a b : bytes) :
  (common_prefix_len a b <= List.length a)%nat.
Proof.
  revert b. induction a as [|x a IH]; intros [|y b]; simpl; try lia.
  destruct (Byte.eqb x y); [specialize (IH b)|]; lia.
Qed.

Lemma common_prefix_shared (a b : bytes) :
  firstn (common_prefix_len a b) a = firstn (common_prefix_len a b) b.
Proof.
  revert b. induction a as [|x a IH]; intros [|y b]; simpl; try reflexivity.
  destruct (Byte.eqb x y) eqn:E; [|reflexivity].
  apply Byte.byte_dec_bl in E. subst y. simpl. now rewrite IH.
Qed.

(** One unfolding of the enumerator. *)
Lemma enumerate_mst_records_step (f : nat) (nodes : pydict) (node : pyval) :
  enumerate_mst_records (S f) nodes node
  = (l <- py_dict_get node "l" PyNone ;;
     records <- mst_merge_subtree (enumerate_mst_records f nodes) nodes [] l ;;
     e <- py_getitem_str node "e" ;;
     entries <- py_iter e ;;
     '(records, _) <- mst_entries (enumerate_mst_records f nodes) nodes
                        (records, []) entries ;;
     Ok records).
Proof. reflexivity. Qed.

(** A link that names no block is passed over. *)
Lemma merge_dangling (recur : pyval -> result pydict) (nodes records : pydict)
  (link : option string) :
  dangling nodes link ->
  mst_merge_subtree recur nodes records (link_value link) = Ok records.
Proof.
  unfold mst_merge_subtree. destruct link as [cid|]; simpl; intros H.
  - now rewrite H.
  - reflexivity.
Qed.

(** A link that names a block has the records of that block merged in. *)
Lemma merge_present (recur : pyval -> result pydict) (nodes records : pydict)
  (cid : string) (sub : pyval) (subrecords : pydict) :
  pd_get nodes (KStr cid) = Some sub ->
  recur sub = Ok subrecords ->
  mst_merge_subtree recur nodes records (PyStr cid)
  = Ok (pd_update records subrecords).
Proof.
  intros Hsub Hrec. unfold mst_merge_subtree, py_in, py_dict_getitem.
  rewrite Hsub. cbn [bind]. rewrite Hrec. reflexivity.
Qed.

(** A node of a writer returns what its loop leaves, started from the
    records of its left subtree. *)
Lemma enumerate_node (f : nat) (nodes : pydict) (l : option string)
  (items : list mst_item) (left records : pydict) (last : bytes) :
  mst_merge_subtree (enumerate_mst_records f nodes) nodes [] (link_value l)
  = Ok left ->
  mst_entries (enumerate_mst_records f nodes) nodes (left, [])
    (mst_compress [] items)
  = Ok (records, last) ->
  enumerate_mst_records (S f) nodes (mst_node l items) = Ok records.
Proof.
  intros Hl He. rewrite enumerate_mst_records_step.
  transitivity
    (records <- mst_merge_subtree (enumerate_mst_records f nodes) nodes []
                  (link_value l) ;;
     '(records, _) <- mst_entries (enumerate_mst_records f nodes) nodes
                        (records, []) (mst_compress [] items) ;;
     Ok records); [reflexivity|].
  rewrite Hl. cbn [bind]. rewrite He. reflexivity.
Qed.

(** One entry of a writer, read by the body of the loop. *)
Lemma mst_entry_compressed (recur : pyval -> result pydict)
  (nodes records : pydict) (prev : bytes) (it : mst_item) :
  dangling nodes (item_tree it) ->
  mst_entry recur nodes (records, prev)
    (PyDict [(KStr "p", PyInt (Z.of_nat (common_prefix_len prev (item_key it))));
             (KStr "k", PyBytes (skipn (common_prefix_len prev (item_key it))
                                   (item_key it)));
             (KStr "v", item_value it);
             (KStr "t", link_value (item_tree it))])
  = Ok (pd_set records (KBytes (item_key it)) (item_value it), item_key it).
Proof.
  intros Hd. unfold mst_entry, py_getitem_str, py_dict_get, pd_get.
  cbn [dict_get pykey_eqb String.eqb Ascii.eqb Bool.eqb bind py_le_int].
  pose proof (common_prefix_len_le prev (item_key it)) as Hle.
  replace (Z.of_nat (common_prefix_len prev (item_key it)) <=? len prev)
    with true by (symmetry; apply Z.leb_le; unfold len; lia).
  cbn [py_assert bind py_slice_to py_bytes_concat].
  rewrite slice_to_firstn by lia. rewrite Nat2Z.id.
  rewrite common_prefix_shared, firstn_skipn.
  rewrite (merge_dangling recur nodes _ _ Hd). reflexivity.
Qed.

Lemma mst_entries_compressed (items : list mst_item) :
  forall (recur : pyval -> result pydict) (nodes records : pydict)
         (prev : bytes),
    Forall (fun it => dangling nodes (item_tree it)) items ->
    exists last,
      mst_entries recur nodes (records, prev) (mst_compress prev items)
      = Ok (records_of items records, last).
Proof.
  induction items as [|it more IH]; intros recur nodes records prev Hd.
  - exists prev. reflexivity.
  - inversion Hd as [|? ? Hit Hmore]; subst.
    cbn [mst_compress mst_entries].
    rewrite (mst_entry_compressed recur nodes records prev it Hit).
    cbn [bind].
    destruct (IH recur nodes
                (pd_set records (KBytes (item_key it)) (item_value it))
                (item_key it) Hmore) as [last Hlast].
    exists last. rewrite Hlast. reflexivity.
Qed.

Lemma pd_set_new (d : pydict) (k : pykey) (v : pyval) :
  ~ In k (map fst d) -> pd_set d k v = d ++ [(k, v)].
Proof.
  unfold pd_set. induction d as [|[k' v'] d IH]; simpl; intros H.
  - reflexivity.
  - destruct (pykey_eqb k' k) eqn:E.
    + apply pykey_eqb_eq in E. exfalso. apply H. now left.
    + rewrite IH; [reflexivity|]. intros Hin. apply H. now right.
Qed.

Lemma pd_set_keys (d : pydict) (k k' : pykey) (v : pyval) :
  In k' (map fst (pd_set d k v)) -> k' = k \/ In k' (map fst d).
Proof.
  unfold pd_set. induction d as [|[k0 v0] d IH]; simpl.
  - intros [H|[]]. now left.
  - destruct (pykey_eqb k0 k); simpl.
    + intros H. now right.
    + intros [H|H]; [right; now left|].
      destruct (IH H) as [H'|H']; [now left | right; now right].
Qed.

Lemma pd_set_NoDup (d : pydict) (k : pykey) (v : pyval) :
  NoDup (map fst d) -> NoDup (map fst (pd_set d k v)).
Proof.
  unfold pd_set. induction d as [|[k0 v0] d IH]; simpl; intros Hnd.
  - constructor; [intros [] | constructor].
  - inversion Hnd as [|? ? Hnotin Hnd']; subst.
    destruct (pykey_eqb k0 k) eqn:E; simpl.
    + constructor; assumption.
    + constructor; [|now apply IH].
      intros Hin. destruct (pd_set_keys d k k0 v Hin) as [H|H].
      * subst k0. now rewrite pykey_eqb_refl in E.
      * contradiction.
Qed.

Lemma pd_update_NoDup (other : pydict) :
  forall d : pydict,
    NoDup (map fst d) -> NoDup (map fst (pd_update d other)).
Proof.
  unfold pd_update, dict_update.
  induction other as [|[k v] other IH]; intros d Hnd; simpl.
  - assumption.
  - apply IH. now apply pd_set_NoDup.
Qed.

(** Merging a dict into one it shares no key with appends it. *)
Lemma pd_update_app (other : pydict) :
  forall d : pydict,
    NoDup (map fst (d ++ other)) -> pd_update d other = d ++ other.
Proof.
  unfold pd_update, dict_update.
  induction other as [|[k v] other IH]; intros d Hnd; simpl.
  - now rewrite app_nil_r.
  - assert (Hnew : ~ In k (map fst d)).
    { rewrite map_app in Hnd. simpl in Hnd.
      apply NoDup_remove_2 in Hnd. intros Hin. apply Hnd.
      apply in_or_app. now left. }
    fold (pd_set d k v). rewrite (pd_set_new d k v Hnew).
    rewrite IH; rewrite <- app_assoc; [reflexivity | assumption].
Qed.

Lemma merge_NoDup (recur : pyval -> result pydict) (nodes records : pydict)
  (link : pyval) (out : pydict) :
  NoDup (map fst records) ->
  mst_merge_subtree recur nodes records link = Ok out ->
  NoDup (map fst out).
Proof.
  intros Hnd. unfold mst_merge_subtree.
  destruct (py_in link nodes) as [[|]| |]; cbn [bind]; try discriminate.
  - destruct (py_dict_getitem nodes link) as [target| |]; cbn [bind];
      try discriminate.
    destruct (recur target) as [sub| |]; cbn [bind]; try discriminate.
    intros H. injection H as <-. now apply pd_update_NoDup.
  - intros H. injection H as <-. assumption.
Qed.

Lemma mst_entry_NoDup (recur : pyval -> result pydict) (nodes : pydict)
  (st st' : pydict * bytes) (entry : pyval) :
  NoDup (map fst (fst st)) ->
  mst_entry recur nodes st entry = Ok st' ->
  NoDup (map fst (fst st')).
Proof.
  destruct st as [records prev]. cbn [fst]. intros Hnd. unfold mst_entry.
  destruct (py_getitem_str entry "p") as [p| |]; cbn [bind]; try discriminate.
  destruct (py_le_int p (len prev)) as [b| |]; cbn [bind]; try discriminate.
  destruct (py_assert b AssertMstPrefix) as [[]| |]; cbn [bind];
    try discriminate.
  destruct (py_slice_to prev p) as [shared| |]; cbn [bind]; try discriminate.
  destruct (py_getitem_str entry "k") as [k| |]; cbn [bind]; try discriminate.
  destruct (py_bytes_concat shared k) as [key| |]; cbn [bind];
    try discriminate.
  destruct (py_getitem_str entry "v") as [v| |]; cbn [bind]; try discriminate.
  destruct (py_dict_get entry "t" PyNone) as [t| |]; cbn [bind];
    try discriminate.
  destruct (mst_merge_subtree recur nodes (pd_set records (KBytes key) v) t)
    as [out| |] eqn:Hm; cbn [bind]; try discriminate.
  intros H. injection H as <-. cbn [fst].
  apply (merge_NoDup recur nodes (pd_set records (KBytes key) v) t out);
    [|exact Hm].
  now apply pd_set_NoDup.
Qed.

Lemma mst_entries_NoDup (recur : pyval -> result pydict) (nodes : pydict)
  (entries : list pyval) :
  forall st st' : pydict * bytes,
    NoDup (map fst (fst st)) ->
    mst_entries recur nodes st entries = Ok st' ->
    NoDup (map fst (fst st')).
Proof.
  induction entries as [|entry more IH]; intros st st' Hnd; cbn [mst_entries].
  - intros H. injection H as <-. assumption.
  - destruct (mst_entry recur nodes st entry) as [st1| |] eqn:He; cbn [bind];
      try discriminate.
    apply IH. exact (mst_entry_NoDup recur nodes st st1 entry Hnd He).
Qed.

(** The record set the enumerator returns is a dict: no key is in it
    twice. *)
Lemma enumerate_keys_NoDup (fuel : nat) (nodes : pydict) (node : pyval)
  (records : pydict) :
  enumerate_mst_records fuel nodes node = Ok records ->
  NoDup (map fst records).
Proof.
  destruct fuel as [|f]; [discriminate|].
  rewrite enumerate_mst_records_step.
  destruct (py_dict_get node "l" PyNone) as [l| |]; cbn [bind];
    try discriminate.
  destruct (mst_merge_subtree (enumerate_mst_records f nodes) nodes [] l)
    as [left| |] eqn:Hm; cbn [bind]; try discriminate.
  destruct (py_getitem_str node "e") as [e| |]; cbn [bind]; try discriminate.
  destruct (py_iter e) as [entries| |]; cbn [bind]; try discriminate.
  destruct (mst_entries (enumerate_mst_records f nodes) nodes (left, [])
              entries) as [[out last]| |] eqn:He; cbn [bind];
    try discriminate.
  intros H. injection H as <-.
  apply (mst_entries_NoDup (enumerate_mst_records f nodes) nodes entries
           (left, []) (out, last)); [|exact He].
  cbn [fst].
  apply (merge_NoDup (enumerate_mst_records f nodes) nodes [] l left);
    [constructor | exact Hm].
Qed.

Lemma records_of_distinct (items : list mst_item) :
  forall records : pydict,
    NoDup (map fst records ++ map (fun it => KBytes (item_key it)) items) ->
    records_of items records
    = records ++ map (fun it => (KBytes (item_key it), item_value it)) items.
Proof.
  unfold records_of.
  induction items as [|it more IH]; intros records Hnd.
  - cbn. now rewrite app_nil_r.
  - cbn [fold_left map]. cbn [map] in Hnd.
    rewrite pd_set_new.
    + rewrite IH.
      * rewrite <- app_assoc. reflexivity.
      * rewrite map_app. cbn [map fst app]. rewrite <- app_assoc. exact Hnd.
    + apply NoDup_remove_2 in Hnd. intros Hin. apply Hnd.
      apply in_or_app. now left.
Qed.

Lemma bytes_keys_NoDup (keys : list bytes) :
  NoDup keys -> NoDup (map KBytes keys).
Proof.
  induction 1 as [|k keys Hnotin _ IH]; simpl; constructor; [|assumption].
  intros Hin. apply in_map_iff in Hin. destruct Hin as [k' [E Hin]].
  injection E as ->. contradiction.
Qed.

Lemma leaf_items_dangling (nodes : pydict) (kvs : list (bytes * pyval)) :
  Forall (fun it => dangling nodes (item_tree it)) (map leaf_item kvs).
Proof.
  apply Forall_forall. intros it Hin. apply in_map_iff in Hin.
  destruct Hin as [kv [<- _]]. exact I.
Qed.

Lemma unlinked_items (items : list mst_item) :
  forall records : pydict,
    records_of (map unlinked items) records = records_of items records.
Proof.
  unfold records_of. induction items as [|it more IH]; intros records.
  - reflexivity.
  - cbn [map fold_left]. apply IH.
Qed.

(** Round trip.  A node without subtrees whose entries carry distinct keys,
    each cut to what it does not share with the key before it and given with
    the length of the shared prefix, enumerates to those keys with their
    values, in their order, whatever the block mapping. *)
Theorem enumerate_reads_compressed_keys (fuel : nat) (nodes : pydict)
  (kvs : list (bytes * pyval)) :
  NoDup (map fst kvs) ->
  enumerate_mst_records (S fuel) nodes (mst_node None (map leaf_item kvs))
  = Ok (map (fun kv => (KBytes (fst kv), snd kv)) kvs).
Proof.
  intros Hnd.
  destruct (mst_entries_compressed (map leaf_item kvs)
              (enumerate_mst_records fuel nodes) nodes [] []
              (leaf_items_dangling nodes kvs)) as [last Hlast].
  rewrite records_of_distinct in Hlast.
  - cbn [app] in Hlast. rewrite map_map in Hlast.
    apply (enumerate_node fuel nodes None _ [] _ last); [reflexivity|].
    exact Hlast.
  - cbn [map app]. rewrite map_map. cbn [leaf_item item_key].
    rewrite <- (map_map fst KBytes). now apply bytes_keys_NoDup.
Qed.

Lemma enumerate_reads_compressed_keys_witness :
  enumerate_mst_records 1 []
    (mst_node None
       (map leaf_item [(list_byte_of_string "bob", PyInt 1);
                       (list_byte_of_string "brah", PyInt 2)]))
  = Ok (map (fun kv => (KBytes (fst kv), snd kv))
          [(list_byte_of_string "bob", PyInt 1);
           (list_byte_of_string "brah", PyInt 2)]).
Proof.
  apply (enumerate_reads_compressed_keys 0 []
           [(list_byte_of_string "bob", PyInt 1);
            (list_byte_of_string "brah", PyInt 2)]).
  repeat constructor; simpl; intuition discriminate.
Defined.

(** Links to blocks that the mapping does not hold are passed over without an
    error: the node enumerates as it does with its links removed, to its own
    keys assigned in order. *)
Theorem enumerate_skips_missing_blocks (fuel : nat) (nodes : pydict)
  (l : option string) (items : list mst_item) :
  dangling nodes l ->
  Forall (fun it => dangling nodes (item_tree it)) items ->
  enumerate_mst_records (S fuel) nodes (mst_node l items)
  = Ok (records_of items [])
  /\ enumerate_mst_records (S fuel) nodes (mst_node None (map unlinked items))
     = Ok (records_of items []).
Proof.
  intros Hl Hitems. split.
  - destruct (mst_entries_compressed items
                (enumerate_mst_records fuel nodes) nodes [] [] Hitems)
      as [last Hlast].
    apply (enumerate_node fuel nodes l items [] _ last); [|exact Hlast].
    now apply merge_dangling.
  - assert (Hun : Forall (fun it => dangling nodes (item_tree it))
                    (map unlinked items)).
    { apply Forall_forall. intros it Hin. apply in_map_iff in Hin.
      destruct Hin as [it' [<- _]]. exact I. }
    destruct (mst_entries_compressed (map unlinked items)
                (enumerate_mst_records fuel nodes) nodes [] [] Hun)
      as [last Hlast].
    rewrite unlinked_items in Hlast.
    apply (enumerate_node fuel nodes None _ [] _ last); [reflexivity|].
    exact Hlast.
Qed.

Lemma enumerate_skips_missing_blocks_witness :
  enumerate_mst_records 1 []
    (mst_node (Some "bafyleft"%string)
       [mkItem (list_byte_of_string "a") (PyInt 1) (Some "bafyright"%string)])
  = Ok (records_of
          [mkItem (list_byte_of_string "a") (PyInt 1)
             (Some "bafyright"%string)] [])
  /\ enumerate_mst_records 1 []
       (mst_node None
          (map unlinked
             [mkItem (list_byte_of_string "a") (PyInt 1)
                (Some "bafyright"%string)]))
     = Ok (records_of
             [mkItem (list_byte_of_string "a") (PyInt 1)
                (Some "bafyright"%string)] []).
Proof.
  apply (enumerate_skips_missing_blocks 0 [] (Some "bafyleft"%string)
           [mkItem (list_byte_of_string "a") (PyInt 1)
              (Some "bafyright"%string)]).
  - reflexivity.
  - repeat constructor.
Defined.

(** For a node whose left link names a block of the mapping and whose
    entries have no right link that names one: the records of the left
    subtree come first, and the node's own entries are assigned over them,
    so that a key of the node that the subtree also holds keeps the
    subtree's place and takes the node's value. *)
Theorem enumerate_left_subtree_first (fuel : nat) (nodes : pydict)
  (cid : string) (sub : pyval) (subrecords : pydict)
  (items : list mst_item) :
  pd_get nodes (KStr cid) = Some sub ->
  enumerate_mst_records fuel nodes sub = Ok subrecords ->
  Forall (fun it => dangling nodes (item_tree it)) items ->
  enumerate_mst_records (S fuel) nodes (mst_node (Some cid) items)
  = Ok (records_of items subrecords).
Proof.
  intros Hsub Hrec Hitems.
  destruct (mst_entries_compressed items
              (enumerate_mst_records fuel nodes) nodes subrecords [] Hitems)
    as [last Hlast].
  apply (enumerate_node fuel nodes (Some cid) items subrecords _ last);
    [|exact Hlast].
  cbn [link_value].
  rewrite (merge_present _ nodes [] cid sub subrecords Hsub Hrec).
  f_equal. apply (pd_update_app subrecords []). cbn [app].
  exact (enumerate_keys_NoDup fuel nodes sub subrecords Hrec).
Qed.

Lemma enumerate_left_subtree_first_witness :
  enumerate_mst_records 2
    [(KStr "bafyleft",
      mst_node None [mkItem (list_byte_of_string "a") (PyInt 1) None])]
    (mst_node (Some "bafyleft"%string)
       [mkItem (list_byte_of_string "b") (PyInt 2) None;
        mkItem (list_byte_of_string "a") (PyInt 3) None])
  = Ok (records_of
          [mkItem (list_byte_of_string "b") (PyInt 2) None;
           mkItem (list_byte_of_string "a") (PyInt 3) None]
          [(KBytes (list_byte_of_string "a"), PyInt 1)]).
Proof.
  apply (enumerate_left_subtree_first 1
           [(KStr "bafyleft",
             mst_node None [mkItem (list_byte_of_string "a") (PyInt 1) None])]
           "bafyleft"
           (mst_node None [mkItem (list_byte_of_string "a") (PyInt 1) None])
           [(KBytes (list_byte_of_string "a"), PyInt 1)]
           [mkItem (list_byte_of_string "b") (PyInt 2) None;
            mkItem (list_byte_of_string "a") (PyInt 3) None]).
  - reflexivity.
  - reflexivity.
  - repeat constructor.
Defined.

(** A block mapping in which the left link of a node leads back to the node
    makes the enumeration recurse without end: no depth of recursion gives a
    result. *)
Theorem enumerate_cycle_never_returns (nodes : pydict) (cid : string)
  (d : pydict) :
  pd_get d (KStr "l") = Some (PyStr cid) ->
  pd_get nodes (KStr cid) = Some (PyDict d) ->
  forall fuel, enumerate_mst_records fuel nodes (PyDict d) = OutOfFuel.
Proof.
  intros Hl Hc fuel. induction fuel as [|f IH]; [reflexivity|].
  rewrite enumerate_mst_records_step. unfold py_dict_get. rewrite Hl.
  cbn [bind]. unfold mst_merge_subtree, py_in, py_dict_getitem.
  rewrite Hc. cbn [bind]. rewrite IH. reflexivity.
Qed.

Lemma enumerate_cycle_never_returns_witness :
  enumerate_mst_records 5
    [(KStr "bafyself", mst_node (Some "bafyself"%string) [])]
    (mst_node (Some "bafyself"%string) [])
  = OutOfFuel.
Proof.
  apply (enumerate_cycle_never_returns
           [(KStr "bafyself", mst_node (Some "bafyself"%string) [])]
           "bafyself"
           [(KStr "l", PyStr "bafyself"); (KStr "e", PyList [])]);
    reflexivity.
Defined.

(** ** The tree enumerator on a node with subtrees *)

(** A link has the records it contributes merged in. *)
Lemma merge_subtree_records (fuel : nat) (nodes records : pydict)
  (link : option string) (sub : pydict) :
  subtree_records fuel nodes link sub ->
  mst_merge_subtree (enumerate_mst_records fuel nodes) nodes records
    (link_value link)
  = Ok (pd_update records sub).
Proof.
  unfold subtree_records. destruct link as [cid|].
  - destruct (pd_get nodes (KStr cid)) as [target|] eqn:E.
    + intros H. exact (merge_present _ nodes records cid target sub E H).
    + intros ->. exact (merge_dangling _ nodes records (Some cid) E).
  - intros ->. reflexivity.
Qed.

Lemma subtree_records_NoDup (fuel : nat) (nodes : pydict)
  (link : option string) (sub : pydict) :
  subtree_records fuel nodes link sub -> NoDup (map fst sub).
Proof.
  unfold subtree_records. destruct link as [cid|].
  - destruct (pd_get nodes (KStr cid)) as [target|].
    + apply enumerate_keys_NoDup.
    + intros ->. constructor.
  - intros ->. constructor.
Qed.

Lemma mst_entries_in_order (fuel : nat) (nodes : pydict)
  (items : list mst_item) (subs : list pydict) :
  Forall2 (fun it sub => subtree_records fuel nodes (item_tree it) sub)
    items subs ->
  forall (records : pydict) (prev : bytes),
    exists last,
      mst_entries (enumerate_mst_records fuel nodes) nodes (records, prev)
        (mst_compress prev items)
      = Ok (records_in_order (combine items subs) records, last).
Proof.
  induction 1 as [|it sub items subs Hit _ IH]; intros records prev.
  - exists prev. reflexivity.
  - cbn [mst_compress mst_entries combine].
    assert (He : mst_entry (enumerate_mst_records fuel nodes) nodes
                   (records, prev)
                   (PyDict
                      [(KStr "p",
                        PyInt (Z.of_nat (common_prefix_len prev (item_key it))));
                       (KStr "k",
                        PyBytes (skipn (common_prefix_len prev (item_key it))
                                   (item_key it)));
                       (KStr "v", item_value it);
                       (KStr "t", link_value (item_tree it))])
                 = Ok (pd_update
                         (pd_set records (KBytes (item_key it)) (item_value it))
                         sub,
                       item_key it)).
    { unfold mst_entry, py_getitem_str, py_dict_get, pd_get.
      cbn [dict_get pykey_eqb String.eqb Ascii.eqb Bool.eqb bind py_le_int].
      pose proof (common_prefix_len_le prev (item_key it)) as Hle.
      replace (Z.of_nat (common_prefix_len prev (item_key it)) <=? len prev)
        with true by (symmetry; apply Z.leb_le; unfold len; lia).
      cbn [py_assert bind py_slice_to py_bytes_concat].
      rewrite slice_to_firstn by lia. rewrite Nat2Z.id.
      rewrite common_prefix_shared, firstn_skipn.
      rewrite (merge_subtree_records fuel nodes _ _ sub Hit). reflexivity. }
    rewrite He. cbn [bind].
    destruct (IH (pd_update
                    (pd_set records (KBytes (item_key it)) (item_value it))
                    sub)
                 (item_key it)) as [last Hlast].
    exists last. rewrite Hlast. reflexivity.
Qed.

(** A node is enumerated in tree order: the records of the left subtree,
    then for each entry in turn its key, rebuilt from the shared prefix, with
    its value, followed by the records of the entry's right subtree.  A link
    that is null or names no block contributes nothing; a link that names a
    block contributes what the enumeration of that block returns.  Each step
    assigns into or merges into one dict, so that a key met again keeps its
    place and takes the later value. *)
Theorem enumerate_in_tree_order (fuel : nat) (nodes : pydict)
  (l : option string) (items : list mst_item)
  (left : pydict) (subs : list pydict) :
  subtree_records fuel nodes l left ->
  Forall2 (fun it sub => subtree_records fuel nodes (item_tree it) sub)
    items subs ->
  enumerate_mst_records (S fuel) nodes (mst_node l items)
  = Ok (records_in_order (combine items subs) left).
Proof.
  intros Hl Hitems.
  destruct (mst_entries_in_order fuel nodes items subs Hitems left [])
    as [last Hlast].
  apply (enumerate_node fuel nodes l items left _ last); [|exact Hlast].
  rewrite (merge_subtree_records fuel nodes [] l left Hl).
  f_equal. apply (pd_update_app left []). cbn [app].
  exact (subtree_records_NoDup fuel nodes l left Hl).
Qed.

Lemma enumerate_in_tree_order_witness :
  enumerate_mst_records 2
    [(KStr "bafyleft",
      mst_node None [mkItem (list_byte_of_string "a") (PyInt 1) None]);
     (KStr "bafyright",
      mst_node None [mkItem (list_byte_of_string "c") (PyInt 3) None])]
    (mst_node (Some "bafyleft"%string)
       [mkItem (list_byte_of_string "b") (PyInt 2)
          (Some "bafyright"%string)])
  = Ok [(KBytes (list_byte_of_string "a"), PyInt 1);
        (KBytes (list_byte_of_string "b"), PyInt 2);
        (KBytes (list_byte_of_string "c"), PyInt 3)].
Proof.
  apply (enumerate_in_tree_order 1
           [(KStr "bafyleft",
             mst_node None [mkItem (list_byte_of_string "a") (PyInt 1) None]);
            (KStr "bafyright",
             mst_node None [mkItem (list_byte_of_string "c") (PyInt 3) None])]
           (Some "bafyleft"%string)
           [mkItem (list_byte_of_string "b") (PyInt 2)
              (Some "bafyright"%string)]
           [(KBytes (list_byte_of_string "a"), PyInt 1)]
           [[(KBytes (list_byte_of_string "c"), PyInt 3)]]).
  - reflexivity.
  - repeat constructor.
Defined.

(** ** More on the deduplication helper *)

Section DedupMore.

Variable lower : string -> string.

Lemma sdict_set_new {V : Type} (d : list (string * V)) (k : string) (v : V) :
  ~ In k (map fst d) -> dict_set String.eqb d k v = d ++ [(k, v)].
Proof.
  induction d as [|[k' v'] d IH]; simpl; intros H.
  - reflexivity.
  - destruct (String.eqb k' k) eqn:E.
    + apply String.eqb_eq in E. exfalso. apply H. now left.
    + rewrite IH; [reflexivity|]. intros Hin. apply H. now right.
Qed.

Lemma sdict_set_values {V : Type} (d : list (string * V)) (k : string)
  (v x : V) :
  In x (map snd (dict_set String.eqb d k v)) -> x = v \/ In x (map snd d).
Proof.
  induction d as [|[k' v'] d IH]; simpl.
  - intros [H|[]]. now left.
  - destruct (String.eqb k' k); simpl.
    + intros [H|H]; [now left | right; now right].
    + intros [H|H]; [right; now left|].
      destruct (IH H) as [H'|H']; [now left | right; now right].
Qed.

Lemma sdict_set_length {V : Type} (d : list (string * V)) (k : string)
  (v : V) :
  (List.length (dict_set String.eqb d k v) <= S (List.length d))%nat.
Proof.
  induction d as [|[k' v'] d IH]; simpl; [lia|].
  destruct (String.eqb k' k); simpl; lia.
Qed.

(** Items of classes that are new and distinct are appended as they come. *)
Lemma fold_distinct (l : list string) :
  forall d : list (string * string),
    NoDup (map fst d ++ map lower l) ->
    fold_left (dedup_step lower) l d = d ++ map (fun x => (lower x, x)) l.
Proof.
  induction l as [|x l IH]; intros d Hnd; simpl.
  - now rewrite app_nil_r.
  - simpl in Hnd. unfold dedup_step at 2. rewrite sdict_set_new.
    + rewrite IH.
      * rewrite <- app_assoc. reflexivity.
      * rewrite map_app. simpl. rewrite <- app_assoc. exact Hnd.
    + apply NoDup_remove_2 in Hnd. intros Hin. apply Hnd.
      apply in_or_app. now left.
Qed.

Lemma fold_values_from (l : list string) :
  forall (d : list (string * string)) (y : string),
    In y (map snd (fold_left (dedup_step lower) l d)) ->
    In y (map snd d) \/ In y l.
Proof.
  induction l as [|x l IH]; intros d y; simpl; [now left|].
  intros H. destruct (IH _ _ H) as [H'|H']; [|right; now right].
  unfold dedup_step in H'. apply sdict_set_values in H'.
  destruct H' as [->|H']; [right; now left | now left].
Qed.

Lemma fold_length (l : list string) :
  forall d : list (string * string),
    (List.length (fold_left (dedup_step lower) l d)
     <= List.length d + List.length l)%nat.
Proof.
  induction l as [|x l IH]; intros d; simpl; [lia|].
  specialize (IH (dedup_step lower d x)).
  pose proof (sdict_set_length d (lower x) x) as H.
  change (dict_set String.eqb d (lower x) x) with (dedup_step lower d x) in H.
  lia.
Qed.

(** A list without two items of one class comes back as it is. *)
Lemma dedup_fixed (l : list string) :
  NoDup (map lower l) -> remove_case_insensitive_duplicates lower l = l.
Proof.
  intros Hnd. unfold remove_case_insensitive_duplicates, dict_values.
  rewrite fold_distinct by exact Hnd. simpl. rewrite map_map. simpl.
  apply map_id.
Qed.

(** The classes of the output are those of the input, each once. *)
Lemma dedup_lower_classes (l : list string) :
  map lower (remove_case_insensitive_duplicates lower l) = classes lower l.
Proof.
  unfold remove_case_insensitive_duplicates, classes.
  pose proof (fold_keys lower l []) as Hkeys. simpl in Hkeys.
  rewrite <- Hkeys. apply values_in_class_keys.
  apply fold_values_in_class. constructor.
Qed.

(** Deduplicating twice is deduplicating once, whatever the lowercase
    function is. *)
Theorem dedup_idempotent (l : list string) :
  remove_case_insensitive_duplicates lower
    (remove_case_insensitive_duplicates lower l)
  = remove_case_insensitive_duplicates lower l.
Proof.
  apply dedup_fixed. rewrite dedup_lower_classes.
  apply (classes_from_NoDup lower l []).
Qed.

(** The list comes back unchanged exactly when no two of its items are equal
    ignoring case; otherwise items are dropped or moved. *)
Theorem dedup_unchanged_iff_distinct (l : list string) :
  remove_case_insensitive_duplicates lower l = l <-> NoDup (map lower l).
Proof.
  split.
  - intros H. rewrite <- H at 1. rewrite dedup_lower_classes.
    apply (classes_from_NoDup lower l []).
  - apply dedup_fixed.
Qed.

(** Nothing is invented: the output is not longer than the input, and every
    output item is an input item, in its original case. *)
Theorem dedup_output_within_input (l : list string) :
  (List.length (remove_case_insensitive_duplicates lower l)
   <= List.length l)%nat
  /\ (forall y, In y (remove_case_insensitive_duplicates lower l) -> In y l).
Proof.
  unfold remove_case_insensitive_duplicates, dict_values. split.
  - rewrite length_map. exact (fold_length l []).
  - intros y H. destruct (fold_values_from l [] y H) as [[]|H']. exact H'.
Qed.

End DedupMore.

(** ** The public URL of a post *)

Lemma str_split_length (sep : ascii) (s : string) :
  List.length (str_split sep s) = S (count_char sep s).
Proof.
  induction s as [|c t IH]; simpl; [reflexivity|].
  destruct (Ascii.eqb c sep); simpl; [now rewrite IH|].
  destruct (str_split sep t) as [|part more]; simpl in *; [discriminate|].
  exact IH.
Qed.

Lemma str_split_sep_free (sep : ascii) (s : string) :
  count_char sep s = O -> str_split sep s = [s].
Proof.
  induction s as [|c t IH]; simpl; [reflexivity|].
  destruct (Ascii.eqb c sep); [discriminate|].
  intros H. now rewrite IH.
Qed.

(** A part without the separator, then the separator: the part is the first
    of the split. *)
Lemma str_split_first (sep : ascii) (a b : string) :
  count_char sep a = O ->
  str_split sep (a ++ String sep b) = a :: str_split sep b.
Proof.
  induction a as [|c t IH]; simpl.
  - intros _. now rewrite Ascii.eqb_refl.
  - destruct (Ascii.eqb c sep); [discriminate|].
    intros H. now rewrite IH.
Qed.

(** The separator, then a part without it: the part is the last of the
    split. *)
Lemma str_split_snoc (sep : ascii) (last : string) :
  count_char sep last = O ->
  forall s : string,
    exists init : list string,
      str_split sep (s ++ String sep last) = init ++ [last].
Proof.
  intros Hfree. induction s as [|c t [init IH]]; simpl.
  - rewrite Ascii.eqb_refl, (str_split_sep_free sep last Hfree).
    exists [EmptyString]. reflexivity.
  - rewrite IH. destruct (Ascii.eqb c sep).
    + exists (EmptyString :: init). reflexivity.
    + destruct init as [|part more]; simpl.
      * exists []. apply (f_equal (@List.length string)) in IH.
        rewrite str_split_length in IH. simpl in IH.
        assert (Hc : (1 <= count_char sep (t ++ String sep last))%nat).
        { clear. induction t as [|x b IHb]; simpl.
          - rewrite Ascii.eqb_refl. lia.
          - destruct (Ascii.eqb x sep); lia. }
        lia.
      * exists (String c part :: more). reflexivity.
Qed.

Lemma str_split_parts (sep : ascii) (s : string) :
  exists (init : list string) (last : string),
    str_split sep s = init ++ [last].
Proof.
  destruct (str_split sep s) as [|part more] eqn:E.
  - apply (f_equal (@List.length string)) in E.
    rewrite str_split_length in E. discriminate.
  - destruct (exists_last (l := part :: more)) as [init [last H]];
      [discriminate|].
    exists init, last. exact H.
Qed.

Lemma list_getitem_last {A : Type} (init : list A) (x : A) :
  list_getitem (init ++ [x]) (-1) = Ok x.
Proof.
  unfold list_getitem, len. rewrite length_app. simpl.
  replace (Z.of_nat (List.length init + 1) + -1)
    with (Z.of_nat (List.length init)) by lia.
  replace (Z.of_nat (List.length init) <? 0) with false
    by (symmetry; apply Z.ltb_ge; lia).
  rewrite Nat2Z.id, nth_error_app2 by lia.
  now rewrite Nat.sub_diag.
Qed.

Lemma list_getitem_2 {A : Type} (l : list A) :
  list_getitem l 2 = match nth_error l 2 with
                     | Some x => Ok x
                     | None => Err IndexError
                     end.
Proof. reflexivity. Qed.

(** The function, after its two subscripts. *)
Lemma get_url_from_uri_parts
  (resolve : string -> result (option string)) (uri : string)
  (init : list string) (did post_id : string) :
  str_split "/" uri = init ++ [post_id] ->
  nth_error (init ++ [post_id]) 2 = Some did ->
  get_url_from_uri resolve uri
  = (handle <- resolve did ;;
     match handle with
     | Some (String c h) =>
         Ok (Some ("https://bsky.app/profile/" ++ String c h
                   ++ "/post/" ++ post_id)%string)
     | Some EmptyString => Ok None
     | None => Ok None
     end).
Proof.
  intros Hs Hdid. unfold get_url_from_uri. rewrite Hs.
  rewrite list_getitem_2, Hdid. cbn [bind].
  rewrite list_getitem_last. reflexivity.
Qed.

(** The function raises [IndexError] whatever the resolver does exactly when
    the URI holds fewer than two slashes; the resolver is then not asked. *)
Theorem get_url_from_uri_index_error_iff (uri : string) :
  (forall resolve : string -> result (option string),
      get_url_from_uri resolve uri = Err IndexError)
  <-> (count_char "/" uri < 2)%nat.
Proof.
  pose proof (str_split_length "/" uri) as Hlen. split.
  - intros H. specialize (H (fun _ => Ok None)).
    destruct (Nat.lt_ge_cases (count_char "/" uri) 2) as [Hlt|Hge];
      [assumption|]. exfalso.
    destruct (str_split_parts "/" uri) as [init [last Hs]].
    destruct (nth_error (init ++ [last]) 2) as [did|] eqn:Hn.
    + rewrite (get_url_from_uri_parts _ uri init did last Hs Hn) in H.
      discriminate.
    + apply nth_error_None in Hn. rewrite <- Hs in Hn. lia.
  - intros Hlt resolve. unfold get_url_from_uri.
    rewrite list_getitem_2.
    assert (Hn : nth_error (str_split "/" uri) 2 = None)
      by (apply nth_error_None; lia).
    rewrite Hn. reflexivity.
Qed.

(** For the URI [at://<did>/<collection>/<record key>] of a post, the DID and
    the record key without a slash, and a resolver that gives the DID a
    handle that is not empty, the result is
    [https://bsky.app/profile/<handle>/post/<record key>]. *)
Theorem get_url_from_uri_builds_post_url
  (resolve : string -> result (option string))
  (did collection rkey handle : string) :
  count_char "/" did = O ->
  count_char "/" rkey = O ->
  resolve did = Ok (Some handle) ->
  handle <> EmptyString ->
  get_url_from_uri resolve
    ("at://" ++ did ++ "/" ++ collection ++ "/" ++ rkey)%string
  = Ok (Some ("https://bsky.app/profile/" ++ handle
              ++ "/post/" ++ rkey)%string).
Proof.
  intros Hdid Hrkey Hres Hne.
  destruct (str_split_snoc "/" rkey Hrkey collection) as [init Hinit].
  assert (Hs : str_split "/"
                 ("at://" ++ did ++ "/" ++ collection ++ "/" ++ rkey)%string
               = ("at:"%string :: EmptyString :: did :: init) ++ [rkey]).
  { change ("at://" ++ did ++ "/" ++ collection ++ "/" ++ rkey)%string
      with ("at:" ++ String "/" ("" ++ String "/"
              (did ++ String "/" (collection ++ String "/" rkey))))%string.
    rewrite (str_split_first "/" "at:") by reflexivity.
    rewrite (str_split_first "/" "") by reflexivity.
    rewrite (str_split_first "/" did) by assumption.
    rewrite Hinit. reflexivity. }
  rewrite (get_url_from_uri_parts resolve _ _ did rkey Hs eq_refl).
  rewrite Hres. cbn [bind].
  destruct handle as [|c h]; [contradiction | reflexivity].
Qed.

Lemma get_url_from_uri_builds_post_url_witness :
  get_url_from_uri
    (fun did => if String.eqb did "did:plc:abc"
                then Ok (Some "alice.test"%string) else Ok None)
    ("at://" ++ "did:plc:abc" ++ "/" ++ "app.bsky.feed.post" ++ "/"
     ++ "3k2a")%string
  = Ok (Some ("https://bsky.app/profile/" ++ "alice.test"
              ++ "/post/" ++ "3k2a")%string).
Proof.
  apply (get_url_from_uri_builds_post_url
           (fun did => if String.eqb did "did:plc:abc"
                       then Ok (Some "alice.test"%string) else Ok None)
           "did:plc:abc" "app.bsky.feed.post" "3k2a" "alice.test").
  - reflexivity.
  - reflexivity.
  - reflexivity.
  - discriminate.
Defined.
